(** * External reference validation of spec-up-t, embedded in Rocq

    The development follows [assets/js/validate-external-refs.js] (the
    client-side validator of xref and tref elements) and
    [src/prepare-tref.js] (the build-time transclusion step).

    JavaScript strings are sequences of UTF-16 code units, arrays are lists
    with JavaScript's write-at-the-end extension, [Map]s are finite maps and
    the DOM is a tree of element and text nodes.  Numbers are exact
    rationals, and an absent number stands for [NaN]/[undefined]: the only
    fractions computed are quotients of string lengths, which correctly
    rounded doubles order against 0.95 as the rationals do for every string
    shorter than 2^48 code units.  What the browser or Node.js supplies (the
    HTML parser, the HTML serialiser, lower-casing, number formatting, the
    network) is a parameter of the model; lower-casing is taken code unit by
    code unit.  Console output is not modelled, and an asynchronous call is
    followed from its start to its end. *)

From Stdlib Require Import QArith NArith Ascii String.
From stdpp Require Import gmap strings list fin_maps.

Set Warnings "-register-all".

Local Open Scope nat_scope.

(** ** JavaScript strings *)

(** A string is the list of its UTF-16 code units; [length], [charAt],
    [===] and the regular expressions of the source all work on code
    units. *)
Abbreviation jsstring := (list N).

(** String literals of the source, written as Rocq strings. *)
Definition js (s : string) : jsstring :=
  map N_of_ascii (String.list_ascii_of_string s).

(** [!s] is true exactly for the empty string. *)
Definition truthy (s : jsstring) : bool :=
  match s with [] => false | _ :: _ => true end.

(** [parts.join(sep)]. *)
Fixpoint join (sep : jsstring) (parts : list jsstring) : jsstring :=
  match parts with
  | [] => []
  | [p] => p
  | p :: rest => p ++ sep ++ join sep rest
  end.

(** [s.startsWith(prefix)]. *)
Fixpoint startsWith (prefix s : jsstring) : bool :=
  match prefix, s with
  | [], _ => true
  | p :: prefix', c :: s' => bool_decide (p = c) && startsWith prefix' s'
  | _ :: _, [] => false
  end.

(** The characters [\s] matches and [trim] removes: ECMAScript's WhiteSpace
    and LineTerminator code points. *)
Definition isWhiteSpace (c : N) : bool :=
  ((9 <=? c) && (c <=? 13) || (c =? 32) || (c =? 160) || (c =? 5760)
   || (8192 <=? c) && (c <=? 8202) || (c =? 8232) || (c =? 8233)
   || (c =? 8239) || (c =? 8287) || (c =? 12288) || (c =? 65279))%N.

(** The class [[\u200B-\u200D\uFEFF]]. *)
Definition isZeroWidth (c : N) : bool :=
  ((8203 <=? c) && (c <=? 8205) || (c =? 65279))%N.

(** The class [[.,;:!?]]. *)
Definition isPunctuation (c : N) : bool :=
  ((c =? 46) || (c =? 44) || (c =? 59) || (c =? 58) || (c =? 33) || (c =? 63))%N.

(** What [.] does not match: the line terminators LF, CR, LS and PS. *)
Definition isLineTerminator (c : N) : bool :=
  ((c =? 10) || (c =? 13) || (c =? 8232) || (c =? 8233))%N.

Fixpoint dropWhile {A : Type} (p : A → bool) (l : list A) : list A :=
  match l with
  | [] => []
  | x :: rest => if p x then dropWhile p rest else l
  end.

Definition trimStart (s : jsstring) : jsstring := dropWhile isWhiteSpace s.
Definition trimEnd (s : jsstring) : jsstring := rev (dropWhile isWhiteSpace (rev s)).
(** [s.trim()]. *)
Definition trim (s : jsstring) : jsstring := trimEnd (trimStart s).

(** [s.split(sep)] for a one-character separator: the pieces between
    separators, empty pieces included. *)
Fixpoint splitOn (sep : N) (s : jsstring) : list jsstring :=
  match s with
  | [] => [[]]
  | c :: rest =>
      if bool_decide (c = sep) then [] :: splitOn sep rest
      else match splitOn sep rest with
           | piece :: pieces => (c :: piece) :: pieces
           | [] => [[c]]
           end
  end.

(** Lower-casing of the ASCII letters, one instance of the lower-casing the
    model is parameterised by. *)
Definition asciiLower (c : N) : N :=
  if ((65 <=? c) && (c <=? 90))%N then (c + 32)%N else c.

(** ** Loops and arrays *)

(** [for (let i of idx) s = body(i, s)], where a step may fail to yield a
    defined state. *)
Fixpoint for_each {St : Type} (idx : list nat) (body : nat → St → option St)
    (s : St) : option St :=
  match idx with
  | [] => Some s
  | i :: rest => s' ← body i s; for_each rest body s'
  end.

(** [arr[i] = x]: overwrites inside the array and extends it by one slot at
    [i = arr.length].  A write further out would leave holes, which the
    model does not represent. *)
Definition js_set {A : Type} (arr : list A) (i : nat) (x : A) : option (list A) :=
  if decide (i < length arr) then Some (<[i:=x]> arr)
  else if decide (i = length arr) then Some (arr ++ [x])
  else None.

(** ** Similarity scorer *)

(** [matrix[i][j]]; [None] when the slot is [undefined]. *)
Definition cell (matrix : list (list nat)) (i j : nat) : option nat :=
  row ← matrix !! i; row !! j.

(** [matrix[i][j] = v]. *)
Definition set_cell (matrix : list (list nat)) (i j v : nat) : option (list (list nat)) :=
  row ← matrix !! i; row' ← js_set row j v; Some (<[i:=row']> matrix).

(** [levenshteinDistance(str1, str2)].  [s.charAt(k)] is [s !! k]: out of
    range it is the empty string, which [===] only another empty string. *)
Definition levenshteinDistance (str1 str2 : jsstring) : option nat :=
  m0 ← for_each (seq 0 (S (length str2))) (λ i matrix, js_set matrix i [i]) [];
  m1 ← for_each (seq 0 (S (length str1))) (λ j matrix, set_cell matrix 0 j j) m0;
  m2 ← for_each (seq 1 (length str2)) (λ i matrix,
          for_each (seq 1 (length str1)) (λ j matrix,
            if decide (str2 !! (i - 1) = str1 !! (j - 1)) then
              d ← cell matrix (i - 1) (j - 1);
              set_cell matrix i j d
            else
              d ← cell matrix (i - 1) (j - 1);
              l ← cell matrix i (j - 1);
              u ← cell matrix (i - 1) j;
              set_cell matrix i j (Nat.min (d + 1) (Nat.min (l + 1) (u + 1))))
            matrix) m1;
  cell m2 (length str2) (length str1).

(** [calculateSimilarity(str1, str2)]; [None] would be [NaN]. *)
Definition calculateSimilarity (str1 str2 : jsstring) : option Q :=
  if decide (str1 = str2) then Some 1%Q
  else if negb (truthy str1) || negb (truthy str2) then Some 0%Q
  else
    let longer := if decide (length str2 < length str1) then str1 else str2 in
    let shorter := if decide (length str2 < length str1) then str2 else str1 in
    if decide (length longer = 0) then Some 1%Q
    else
      editDistance ← levenshteinDistance shorter longer;
      Some ((inject_Z (Z.of_nat (length longer)) - inject_Z (Z.of_nat editDistance))
            / inject_Z (Z.of_nat (length longer)))%Q.

(** *** The Levenshtein distance, as the specification words it *)

(** An edit script turning [a] into [b]: a kept character is free, a
    substitution, a deletion and an insertion cost 1 each. *)
Inductive edits : jsstring → jsstring → nat → Prop :=
  | edits_nil : edits [] [] 0
  | edits_keep x a b n : edits a b n → edits (x :: a) (x :: b) n
  | edits_subst x y a b n : edits a b n → edits (x :: a) (y :: b) (S n)
  | edits_delete x a b n : edits a b n → edits (x :: a) b (S n)
  | edits_insert y a b n : edits a b n → edits a (y :: b) (S n).

(** [d] is the Levenshtein distance of [a] and [b]: the cost of a cheapest
    edit script. *)
Definition levenshtein_distance (a b : jsstring) (d : nat) : Prop :=
  edits a b d ∧ ∀ n, edits a b n → d ≤ n.

(** The classic recurrence, on the first characters. *)
Fixpoint lev (a b : jsstring) : nat :=
  match a with
  | [] => length b
  | x :: a' =>
      (fix lev_row (b : jsstring) : nat :=
         match b with
         | [] => length a
         | y :: b' =>
             if decide (x = y) then lev a' b'
             else S (Nat.min (lev a' b') (Nat.min (lev a' b) (lev_row b')))
         end) b
  end.

(** The entry the dynamic programme holds at row [i], column [j]: the
    distance of the first [j] characters of [str1] and the first [i] of
    [str2], by the recurrence on their last characters. *)
Definition dp_entry (str1 str2 : jsstring) (i j : nat) : nat :=
  lev (rev (take j str1)) (rev (take i str2)).

(** The first [j] entries of row [i] of the finished matrix. *)
Definition dp_row (str1 str2 : jsstring) (i j : nat) : list nat :=
  map (dp_entry str1 str2 i) (seq 0 j).

(** The matrix while row [i] is being filled and holds [j] entries: the
    rows above are complete, the rows below still hold their first column. *)
Definition dp_matrix (str1 str2 : jsstring) (i j : nat) : list (list nat) :=
  map (λ k, dp_row str1 str2 k (S (length str1))) (seq 0 i)
  ++ dp_row str1 str2 i j
  :: map (λ k, [k]) (seq (S i) (length str2 - i)).

(** ** Configuration *)

(** [VALIDATOR_CONFIG], passed explicitly.  The CSS class names are fixed
    below; [debug] only switches console output, which is not modelled. *)
Record Config : Type := {
  showValidIndicators : bool;
  cacheTimeout : Z;
  similarityThreshold : Q;
  debug : bool
}.

Definition VALIDATOR_CONFIG : Config := {|
  showValidIndicators := false;
  cacheTimeout := 5 * 60 * 1000;
  similarityThreshold := (95 # 100)%Q;
  debug := true
|}.

Inductive IndicatorType : Type := missing | changed | valid | error.

#[global] Instance IndicatorType_eq_dec : EqDecision IndicatorType.
Proof. solve_decision. Defined.

Definition indicatorClass : string := "external-ref-validation-indicator".

(** [VALIDATOR_CONFIG.classes[type]]. *)
Definition typeClass (type : IndicatorType) : string :=
  match type with
  | missing => "external-ref-missing"
  | changed => "external-ref-changed"
  | valid => "external-ref-valid"
  | error => "external-ref-error"
  end.

(** [VALIDATOR_CONFIG.labels[type]]: an emoji, then the text. *)
Definition label (type : IndicatorType) : jsstring :=
  match type with
  | missing => [9888; 65039]%N ++ js " Term not found"
  | changed => [55357; 56580]%N ++ js " Definition changed"
  | error => [10060]%N ++ js " Could not verify"
  | valid => [10003]%N ++ js " Verified"
  end.

(** ** The DOM *)

(** A node is a text node or an element with its tag name (in lower case),
    its [id] (empty when it has none), its class list, its other attributes
    and its child nodes in document order. *)
Inductive node : Type :=
  | Text (data : jsstring)
  | Element (tagName : string) (id : jsstring) (classList : list string)
      (attributes : list (string * jsstring)) (childNodes : list node).

Definition isElement (n : node) : bool :=
  match n with Text _ => false | Element _ _ _ _ _ => true end.

Definition hasTag (tag : string) (n : node) : bool :=
  match n with
  | Text _ => false
  | Element t _ _ _ _ => bool_decide (t = tag)
  end.

(** [n.classList.contains(cls)] on an element. *)
Definition hasClass (cls : string) (n : node) : bool :=
  match n with
  | Text _ => false
  | Element _ _ classes _ _ => bool_decide (cls ∈ classes)
  end.

Definition nodeId (n : node) : jsstring :=
  match n with Text _ => [] | Element _ i _ _ _ => i end.

Definition children (n : node) : list node :=
  match n with Text _ => [] | Element _ _ _ _ cs => cs end.

(** [n.textContent]: the text of the node's descendants, in document
    order. *)
Fixpoint textContent (n : node) : jsstring :=
  match n with
  | Text data => data
  | Element _ _ _ _ cs => concat (map textContent cs)
  end.

(** [n.querySelector(sel)]: the first descendant of [n] in document order
    that the selector [sel] matches. *)
Fixpoint querySelector (sel : node → bool) (n : node) : option node :=
  match n with
  | Text _ => None
  | Element _ _ _ _ cs =>
      (fix first_in (cs : list node) : option node :=
         match cs with
         | [] => None
         | c :: rest =>
             if sel c then Some c
             else match querySelector sel c with
                  | Some found => Some found
                  | None => first_in rest
                  end
         end) cs
  end.

(** [n.nextElementSibling], from the nodes that follow [n] under its
    parent. *)
Fixpoint nextElementSibling (following : list node) : option node :=
  match following with
  | [] => None
  | Text _ :: rest => nextElementSibling rest
  | e :: _ => Some e
  end.

(** [n.appendChild(child)]. *)
Definition appendChild (n child : node) : node :=
  match n with
  | Text _ => n
  | Element t i cls attrs cs => Element t i cls attrs (cs ++ [child])
  end.

(** The tree [n] after its first descendant that [sel] matches has been
    mutated into [new]. *)
Fixpoint replaceFirst (sel : node → bool) (new : node) (n : node) : node :=
  match n with
  | Text _ => n
  | Element t i cls attrs cs =>
      Element t i cls attrs
        ((fix replace_in (cs : list node) : list node :=
            match cs with
            | [] => []
            | c :: rest =>
                if sel c then new :: rest
                else match querySelector sel c with
                     | Some _ => replaceFirst sel new c :: rest
                     | None => c :: replace_in rest
                     end
            end) cs)
  end.

(** The selector [[id^="term:"]]. *)
Definition termIdSelector (n : node) : bool :=
  isElement n && startsWith (js "term:") (nodeId n).

(** The selector [span.term-external]. *)
Definition termExternalSpan (n : node) : bool :=
  hasTag "span" n && hasClass "term-external" n.

(** The selector [.external-ref-validation-indicator]. *)
Definition indicatorSelector (n : node) : bool := hasClass indicatorClass n.



(** A selector that looks at the element alone, not at what is below it. *)
Definition shallow (sel : node → bool) : Prop :=
  ∀ tag i cls attrs cs cs',
    sel (Element tag i cls attrs cs) = sel (Element tag i cls attrs cs').

(** ** Content normalizer *)

(** [s.replace(/\s+/g, ' ')]: each maximal run of white space becomes one
    space, written when the run ends. *)
Fixpoint collapseWhiteSpace (s : jsstring) : jsstring :=
  match s with
  | [] => []
  | c :: rest =>
      if isWhiteSpace c then
        match rest with
        | c' :: _ => if isWhiteSpace c' then collapseWhiteSpace rest
                     else 32%N :: collapseWhiteSpace rest
        | [] => [32%N]
        end
      else c :: collapseWhiteSpace rest
  end.

(** Whether the white space starting [s] (possibly none) is followed by a
    punctuation character: whether [/\s*([.,;:!?])\s*/] matches at the start
    of [s]. *)
Definition punctuationAhead (s : jsstring) : bool :=
  match dropWhile isWhiteSpace s with
  | c :: _ => isPunctuation c
  | [] => false
  end.

(** [s.replace(/\s*([.,;:!?])\s*/g, '$1 ')], scanning from the left:
    white space that leads to a punctuation character is part of the match
    and dropped, the character is written with one space, and
    [afterPunctuation] says that the scan is inside the white space that
    ends the match. *)
Fixpoint spacePunctuation (afterPunctuation : bool) (s : jsstring) : jsstring :=
  match s with
  | [] => []
  | c :: rest =>
      if isWhiteSpace c then
        if afterPunctuation || punctuationAhead s
        then spacePunctuation afterPunctuation rest
        else c :: spacePunctuation false rest
      else if isPunctuation c then c :: 32%N :: spacePunctuation true rest
      else c :: spacePunctuation false rest
  end.

(** ** Diff extractor *)

(** [text.split(/\n+/)]: [line] is the piece being read; a maximal run of
    newlines ends it, and a run at either end of the text leaves an empty
    piece there. *)
Fixpoint splitLines (line : jsstring) (s : jsstring) : list jsstring :=
  match s with
  | [] => [line]
  | c :: rest =>
      if bool_decide (c = 10%N) then
        match rest with
        | c' :: _ => if bool_decide (c' = 10%N) then splitLines line rest
                     else line :: splitLines [] rest
        | [] => [line; []]
        end
      else splitLines (line ++ [c]) rest
  end.

(** [text.split(/\n+/).filter(line => line.trim())]. *)
Definition nonBlankLines (text : jsstring) : list jsstring :=
  List.filter (λ line, truthy (trim line)) (splitLines [] text).

(** [lines.includes(line)]. *)
Definition includes (lines : list jsstring) (line : jsstring) : bool :=
  bool_decide (line ∈ lines).

Record TextDifferences : Type := {
  oldUnique : jsstring;
  newUnique : jsstring;
  hasDifferences : bool
}.

Definition findTextDifferences (text1 text2 : jsstring) : TextDifferences :=
  let lines1 := nonBlankLines text1 in
  let lines2 := nonBlankLines text2 in
  let oldUnique := List.filter (λ line, negb (includes lines2 line)) lines1 in
  let newUnique := List.filter (λ line, negb (includes lines1 line)) lines2 in
  {| oldUnique := if decide (0 < length oldUnique) then join [10%N] oldUnique
                  else js "(no removed content)";
     newUnique := if decide (0 < length newUnique) then join [10%N] newUnique
                  else js "(no added content)";
     hasDifferences :=
       bool_decide (0 < length oldUnique) || bool_decide (0 < length newUnique) |}.

(** The non-blank lines of a text, told without runs: the pieces between
    single newlines that are not blank. *)
Definition nonBlankLines_spec (text : jsstring) : list jsstring :=
  List.filter (λ line, truthy (trim line)) (splitOn 10%N text).

(** ** Indicator renderer: text helpers *)

(** [truncateText(text, maxLength)]. *)
Definition truncateText (text : jsstring) (maxLength : nat) : jsstring :=
  if negb (truthy text) || bool_decide (length text ≤ maxLength) then text
  else take maxLength text ++ js "...".

(** [escapeHtml(text)]: the serialisation of a text node, which writes
    [&], [<], [>] and the no-break space as character references. *)
Definition escapeHtml (text : jsstring) : jsstring :=
  flat_map (λ c : N,
      if (c =? 38)%N then js "&amp;"
      else if (c =? 60)%N then js "&lt;"
      else if (c =? 62)%N then js "&gt;"
      else if (c =? 160)%N then js "&nbsp;"
      else [c]) text.

(** [createIndicator]'s [details]; an absent property is the empty string,
    as every use is a truthiness test. *)
Record Details : Type := {
  message : jsstring;
  oldContent : jsstring;
  newContent : jsstring;
  similarity : jsstring
}.

Definition noDetails : Details :=
  {| message := []; oldContent := []; newContent := []; similarity := [] |}.

(** Pieces of the markup templates: a double quote, an opening [div] with
    a class, and a line break followed by indentation. *)
Definition dquote : jsstring := [34%N].

Definition divOpen (cls : string) : jsstring :=
  js "<div class=" ++ dquote ++ js cls ++ dquote ++ js ">".

Definition br (indentation : nat) : jsstring := 10%N :: replicate indentation 32%N.

(** ** Data *)

(** An entry of the reference index [allXTrefs.xtrefs] (the page's copy of
    [xtrefs-data.json]); [sourceFiles] pairs a file with its reference type. *)
Module XTref.
Record t : Type := {
  externalSpec : jsstring;
  term : jsstring;
  ghPageUrl : jsstring;
  content : jsstring;
  commitHash : jsstring;
  sourceFiles : list (jsstring * jsstring)
}.
End XTref.

(** A term of a live page, as [extractTermsFromHtml] records it. *)
Module LiveTerm.
Record t : Type := {
  content : jsstring;
  rawContent : jsstring;
  termId : jsstring
}.
End LiveTerm.

(** An entry of [fetchCache]. *)
Record CacheEntry : Type := {
  timestamp : Z;
  data : gmap (list N) LiveTerm.t
}.

(** What [fetch] and [response.text()] come to: the promise of [fetch]
    rejects, or it resolves to a response with a status, whose body is read
    or fails to be read. *)
Record Response : Type := {
  status : nat;
  text : option (list N)
}.

(** [response.ok]: the status is in the range 200-299. *)
Definition ok (response : Response) : bool :=
  bool_decide (200 ≤ status response ≤ 299).

Inductive FetchOutcome : Type :=
  | rejected
  | resolved (response : Response).

(** The state a page load threads through the fetcher: the cache, the
    clock [Date.now()] reads, and the requests sent so far. *)
Record World : Type := {
  fetchCache : gmap (list N) CacheEntry;
  clock : Z;
  requests : list (list N)
}.

(** [a < b] on numbers; false when [a] is [NaN]. *)
Definition lessThan (a : option Q) (b : Q) : bool :=
  match a with
  | Some q => negb (Qle_bool b q)
  | None => false
  end.

(** [a * b] on numbers; [NaN] when [a] is. *)
Definition times (a : option Q) (b : Q) : option Q := (λ q, (q * b)%Q) <$> a.

(** ** The build-time transclusion step ([prepare-tref.js]) *)

(** A call returns a value or throws. *)
Inductive result (A : Type) : Type :=
  | returned (a : A)
  | thrown.
Arguments returned {A} a.
Arguments thrown {A}.

(** [getLocalXTrefContent(externalSpec, term)], given what reading and
    parsing [output/xtrefs-data.json] yields: [None] when that fails or the
    data has no [xtrefs] to iterate, which throws.  [term] is [None] when the
    caller passes [undefined]. *)
Definition getLocalXTrefContent (index : option (list XTref.t))
    (externalSpec : jsstring) (term : option jsstring)
    : result (option (jsstring * jsstring)) :=
  match index with
  | None => thrown
  | Some xtrefs =>
      returned
        ((λ xtref, (XTref.content xtref, XTref.commitHash xtref)) <$>
         List.find (λ xtref,
             bool_decide (XTref.externalSpec xtref = externalSpec)
             && bool_decide (Some (XTref.term xtref) = term)) xtrefs)
  end.

(** The first entry of the index for the exact pair. *)
Definition lookupEntry (xtrefs : list XTref.t) (externalSpec : jsstring)
    (term : option jsstring) : option XTref.t :=
  List.find (λ xtref,
      bool_decide (XTref.externalSpec xtref = externalSpec)
      && bool_decide (Some (XTref.term xtref) = term)) xtrefs.

(** A lazy [.*?] followed by the literal [close], matched at the start of
    [s]: the shortest run of characters other than line terminators after
    which [close] stands, and what follows [close]. *)
Fixpoint lazyUntil (close : jsstring) (s : jsstring) : option (jsstring * jsstring) :=
  if startsWith close s then Some ([], drop (length close) s)
  else match s with
       | [] => None
       | c :: rest =>
           if isLineTerminator c then None
           else match lazyUntil close rest with
                | Some (captured, after) => Some (c :: captured, after)
                | None => None
                end
       end.

(** [opening] then [.*?] then [close], matched at the start of [s]: the
    captured group. *)
Definition matchAt (opening close : jsstring) (s : jsstring) : option jsstring :=
  if startsWith opening s
  then fst <$> lazyUntil close (drop (length opening) s)
  else None.

(** [line.match(/\[\[tref:(.*?)\]\]/)]: the leftmost match, as
    [match[0]] and [match[1]]. *)
Fixpoint matchTref (line : jsstring) : option (jsstring * jsstring) :=
  match matchAt (js "[[tref:") (js "]]") line with
  | Some captured => Some (js "[[tref:" ++ captured ++ js "]]", captured)
  | None =>
      match line with
      | [] => None
      | _ :: rest => matchTref rest
      end
  end.

(** [content.replace(/\[\[def: .*?\]\]:/g, '')], scanning from the left;
    [inMatch] counts the characters of the current match still to drop. *)
Fixpoint removeDefParts (inMatch : nat) (content : jsstring) : jsstring :=
  match content with
  | [] => []
  | c :: rest =>
      match inMatch with
      | S n => removeDefParts n rest
      | 0 =>
          match matchAt (js "[[def: ") (js "]]:") content with
          | Some captured => removeDefParts (6 + length captured + 3) rest
          | None => c :: removeDefParts 0 rest
          end
      end
  end.

Definition transcludedNotice : jsstring :=
  js "<!-- This is a copy of the saved remote text. Remove it if you like. It is automatically (re)generated --><span class="
  ++ dquote ++ js "transcluded-xref-term" ++ dquote ++ js ">transcluded xref</span>".

(** What [writeFileSync] is given: the marker, the notice, the commit
    hash and the content. *)
Definition transclusion (match0 commitHash content : jsstring) : jsstring :=
  match0 ++ [10%N; 10%N] ++ transcludedNotice
  ++ [10%N; 10%N] ++ js "~ Commit Hash: " ++ commitHash ++ content.

(** The body of the loop over the lines of a file: the content of the file
    after the iteration, or an exception.  [written] is the content before
    it; reading [.content] of a [null] lookup result throws. *)
Definition processLine (index : option (list XTref.t)) (written : jsstring)
    (line : jsstring) : result jsstring :=
  if startsWith (js "[[tref:") line then
    match matchTref line with
    | Some (match0, match1) =>
        let result := map trim (splitOn 44%N match1) in
        match getLocalXTrefContent index (List.hd [] result) (result !! 1) with
        | thrown => thrown
        | returned None => thrown
        | returned (Some (content, commitHash)) =>
            let content := removeDefParts 0 content in
            returned (transclusion match0 commitHash content)
        end
    | None => returned written
    end
  else returned written.

(** A line that begins with a transclusion marker: the marker, and the
    specification and term it names. *)
Definition markerOf (line : jsstring) : option (jsstring * jsstring * option jsstring) :=
  if startsWith (js "[[tref:") line then
    match matchTref line with
    | Some (match0, match1) =>
        let result := map trim (splitOn 44%N match1) in
        Some (match0, List.hd [] result, result !! 1)
    | None => None
    end
  else None.

(** The loop over the lines, inside the [try] of one file: the content of
    the file when the loop ends or an exception leaves it, and whether an
    error was logged. *)
Fixpoint processLines (index : option (list XTref.t)) (written : jsstring)
    (lines : list jsstring) : jsstring * bool :=
  match lines with
  | [] => (written, false)
  | line :: rest =>
      match processLine index written line with
      | returned written' => processLines index written' rest
      | thrown => (written, true)
      end
  end.

(** One markdown file: [data] is its content when it is read. *)
Definition processFile (index : option (list XTref.t)) (data : jsstring)
    : jsstring * bool :=
  processLines index data (splitOn 10%N data).

(** [path.extname(name)] of a file name: from its last dot, unless that
    dot starts the name. *)
Fixpoint lastDot (name : jsstring) : option nat :=
  match name with
  | [] => None
  | c :: rest =>
      match lastDot rest with
      | Some i => Some (S i)
      | None => if bool_decide (c = 46%N) then Some 0 else None
      end
  end.

Definition extname (name : jsstring) : jsstring :=
  match lastDot name with
  | Some (S i) => drop (S i) name
  | _ => []
  end.

(** A directory entry: a file with its content, a directory with its
    entries, or something else. *)
Inductive item : Type :=
  | File (name : jsstring) (data : jsstring)
  | Directory (name : jsstring) (items : list item)
  | Other (name : jsstring).

(** [processDirectory] on one entry: the entry afterwards, and the names
    of the files whose processing logged an error, in order. *)
Fixpoint processItem (index : option (list XTref.t)) (it : item)
    : item * list jsstring :=
  match it with
  | Directory name items =>
      let results := map (processItem index) items in
      (Directory name (results.*1), concat (results.*2))
  | File name data =>
      if bool_decide (extname name = js ".md") then
        let '(data', failed) := processFile index data in
        (File name data', if failed then [name] else [])
      else (it, [])
  | Other _ => (it, [])
  end.

(** [prepareTref(directory)]. *)
Definition prepareTref (index : option (list XTref.t)) (directory : list item)
    : list item * list jsstring :=
  let results := map (processItem index) directory in
  (results.*1, concat (results.*2)).

(** What [prepareTref] has no way to change in an entry: its name, its
    kind, the entries below it and the content of the files that are not
    markdown files. *)
Fixpoint withoutMarkdown (it : item) : item :=
  match it with
  | File name data =>
      if bool_decide (extname name = js ".md") then File name [] else it
  | Directory name items => Directory name (map withoutMarkdown items)
  | Other _ => it
  end.

(** The names of the markdown files below an entry, in the order in which
    [processDirectory] comes to them. *)
Fixpoint markdownFiles (it : item) : list jsstring :=
  match it with
  | File name _ => if bool_decide (extname name = js ".md") then [name] else []
  | Directory _ items => concat (map markdownFiles items)
  | Other _ => []
  end.

(** The texts in which white space and punctuation stand as
    [spacePunctuation] leaves them: a punctuation character is followed by
    one space, and a space that does not follow a punctuation character is
    followed by a character that is neither white space nor punctuation, or
    ends the text.  [afterPunctuation] says that the text follows the space
    of a punctuation character, so that it does not begin with a space. *)
Inductive spaced : bool → jsstring → Prop :=
  | spaced_nil afterPunctuation : spaced afterPunctuation []
  | spaced_plain afterPunctuation c s :
      isWhiteSpace c = false → isPunctuation c = false →
      spaced false s → spaced afterPunctuation (c :: s)
  | spaced_punctuation afterPunctuation c s :
      isPunctuation c = true →
      spaced true s → spaced afterPunctuation (c :: 32%N :: s)
  | spaced_space c s :
      isWhiteSpace c = false → isPunctuation c = false →
      spaced false s → spaced false (32%N :: c :: s)
  | spaced_end : spaced false [32%N].

(** ** Finding the cached entry of an element *)

(** [n.getAttribute(name)], for an attribute other than [id] and
    [class]. *)
Definition getAttribute (name : string) (n : node) : option jsstring :=
  match n with
  | Text _ => None
  | Element _ _ _ attrs _ =>
      snd <$> List.find (λ attribute, bool_decide (attribute.1 = name)) attrs
  end.

Fixpoint takeWhile {A : Type} (p : A → bool) (l : list A) : list A :=
  match l with
  | [] => []
  | x :: rest => if p x then x :: takeWhile p rest else []
  end.

(** [/#term:([^:]+):(.+)/] matched at the start of [s]: the two groups.
    The greedy [[^:]+] takes the characters up to the first colon and the
    greedy [.+] those up to the first line terminator; each must take one,
    and giving characters back lets neither match. *)
Definition matchTermAt (s : jsstring) : option (jsstring * jsstring) :=
  if startsWith (js "#term:") s then
    let rest := drop 6 s in
    let specName := takeWhile (λ c, negb (c =? 58)%N) rest in
    match dropWhile (λ c, negb (c =? 58)%N) rest with
    | _ :: afterColon =>
        let termName := takeWhile (λ c, negb (isLineTerminator c)) afterColon in
        if truthy specName && truthy termName then Some (specName, termName)
        else None
    | [] => None
    end
  else None.

(** [localHref.match(/#term:([^:]+):(.+)/)]: the groups of the leftmost
    match. *)
Fixpoint matchTerm (s : jsstring) : option (jsstring * jsstring) :=
  match matchTermAt s with
  | Some groups => Some groups
  | None =>
      match s with
      | [] => None
      | _ :: rest => matchTerm rest
      end
  end.

(** The selectors [[data-original-term]], [a.x-term-reference] and
    [dt.term-external]. *)
Definition originalTermSelector (n : node) : bool :=
  bool_decide (is_Some (getAttribute "data-original-term" n)).

Definition xrefSelector (n : node) : bool :=
  hasTag "a" n && hasClass "x-term-reference" n.

Definition trefSelector (n : node) : bool :=
  hasTag "dt" n && hasClass "term-external" n.

(** [element.closest(sel)], given the ancestors of the element, the
    nearest first. *)
Definition closest (sel : node → bool) (ancestors : list node) (element : node)
    : option node :=
  List.find sel (element :: ancestors).

(** ** The document as a whole *)

(** The positions of the elements below [n] that [sel] matches, in document
    order ([querySelectorAll]); a position is the list of the child indices
    that lead to the element. *)
Fixpoint positionsOf (sel : node → bool) (n : node) : list (list nat) :=
  match n with
  | Text _ => []
  | Element _ _ _ _ cs =>
      (fix among (i : nat) (cs : list node) : list (list nat) :=
         match cs with
         | [] => []
         | c :: rest =>
             (if sel c then [[i]] else [])
             ++ map (cons i) (positionsOf sel c) ++ among (S i) rest
         end) 0 cs
  end.

(** The tree after the node at a position has been mutated by [f], which is
    given the ancestors of the node, the nearest first. *)
Fixpoint updateAt (f : list node → node → node) (ancestors : list node)
    (position : list nat) (n : node) : node :=
  match position with
  | [] => f ancestors n
  | i :: position' =>
      match n with
      | Text _ => n
      | Element tag id cls attrs cs =>
          match cs !! i with
          | Some c =>
              Element tag id cls attrs
                (<[i := updateAt f (n :: ancestors) position' c]> cs)
          | None => n
          end
      end
  end.


(** The [detail] of the event [external-refs-validated]. *)
Record Validated : Type := {
  specsValidated : nat;
  xrefsValidated : nat;
  trefsValidated : nat
}.

(** ** Hosts and inputs of the examples *)

(** The parse of an input without markup: one text node. *)
Definition textFragment (html : jsstring) : list node := [Text html].

(** A parser that yields a given document. *)
Definition parsedAs (doc : list node) (html : jsstring) : list node := doc.

Definition noSerialiser (n : node) : jsstring := [].

Definition noFormat (digits : nat) (x : option Q) : jsstring := [].

(** A network on which every page answers [404] at once. *)
Definition notFound (url : jsstring) (now : Z) : FetchOutcome * Z :=
  (resolved {| status := 404; text := None |}, now).

(** Two term elements whose ids differ and whose keys coincide. *)
Definition collidingTerms : list node :=
  [Element "dl" [] ["terms-and-definitions-list"] []
     [Element "dt" [] [] []
        [Element "span" (js "term:spec-a:agent") [] [] [Text (js "agent")]];
      Element "dd" [] [] [] [Text (js "First.")];
      Element "dt" [] [] []
        [Element "span" (js "term:spec-b:Agent") [] [] [Text (js "Agent")]];
      Element "dd" [] [] [] [Text (js "Second.")]]].

(** Two term elements with different keys. *)
Definition distinctTerms : list node :=
  [Element "dl" [] ["terms-and-definitions-list"] []
     [Element "dt" [] [] []
        [Element "span" (js "term:test-term") [] [] [Text (js "test-term")]];
      Element "dd" [] [] [] [Text (js "Definition of test term.")];
      Element "dt" [] [] []
        [Element "span" (js "term:another-term") [] [] [Text (js "another-term")]];
      Element "dd" [] [] [] [Text (js "Another definition.")]]].

(** An index with entries for the terms [x] and [z] of the specification
    [a]. *)
Definition sampleEntry : XTref.t :=
  {| XTref.externalSpec := js "a"; XTref.term := js "x";
     XTref.ghPageUrl := js "https://example.github.io/a/";
     XTref.content := js "[[def: x]]:" ++ [10%N] ++ js "~ A definition.";
     XTref.commitHash := js "0a1b2c";
     XTref.sourceFiles := [(js "x.md", js "tref")] |}.

Definition otherEntry : XTref.t :=
  {| XTref.externalSpec := js "a"; XTref.term := js "z";
     XTref.ghPageUrl := js "https://example.github.io/a/";
     XTref.content := [10%N] ++ js "~ Another definition.";
     XTref.commitHash := js "3d4e5f";
     XTref.sourceFiles := [(js "z.md", js "tref")] |}.

Definition sampleIndex : list XTref.t := [sampleEntry; otherEntry].

(** A tref element and the nodes after an xref anchor. *)
Definition sampleTref : node :=
  Element "dt" [] ["term-external"] []
    [Element "span" [] ["term-external"] [] [Text (js "x")]].

Definition sampleFollowing : list node := [Text (js " and more text")].

(** A page load with one fresh cache entry. *)
Definition cachedWorld : World :=
  {| fetchCache :=
       {[ js "https://example.github.io/a/" := {| timestamp := 1000; data := ∅ |} ]};
     clock := 2000; requests := [] |}.

Definition freshWorld : World := {| fetchCache := ∅; clock := 0; requests := [] |}.

(** A network on which every page is served with the same body, 150 ms
    after the request. *)
Definition served (html : jsstring) (url : jsstring) (now : Z) : FetchOutcome * Z :=
  (resolved {| status := 200; text := Some html |}, (now + 150)%Z).

(** An xref anchor for the term [x] of the specification [a], and a page
    that holds it together with a tref element of the same term. *)
Definition sampleXref : node :=
  Element "a" [] ["x-term-reference"] [("data-local-href", js "#term:a:X")]
    [Text (js "x")].

Definition samplePage : list node :=
  [Element "p" [] [] [] [Text (js "See "); sampleXref; Text (js " for more.")];
   Element "dl" [] ["terms-and-definitions-list"] []
     [Element "dt" [] ["term-external"] []
        [Element "span" [] ["term-external"] [("data-original-term", js "x")]
           [Text (js "x")]];
      Element "dd" [] [] [] [Text (js "A definition.")]]].

Section Validator.

(** What the host provides: lower-casing of a code unit
    ([String.prototype.toLowerCase]), the HTML parser behind [innerHTML] and
    behind [DOMParser], the serialiser behind [outerHTML],
    [Number.prototype.toFixed], and the network, which answers a request
    sent at some time with an outcome and the time at which it is known. *)
Variable lowerUnit : N → N.
Variable parseFragment : jsstring → list node.
Variable parseDocument : jsstring → list node.
Variable outerHTML : node → jsstring.
Variable toFixed : nat → option Q → jsstring.
Variable network : jsstring → Z → FetchOutcome * Z.

Definition toLowerCase (s : jsstring) : jsstring := map lowerUnit s.

(** [normalizeContent(html)].  The text of a detached element is its
    [textContent]; [innerText] and [''] only stand in for an empty one. *)
Definition normalizeContent (html : jsstring) : jsstring :=
  if negb (truthy html) then []
  else
    let tempDiv := Element "div" [] [] [] (parseFragment html) in
    let text := textContent tempDiv in
    trim (spacePunctuation false
            (collapseWhiteSpace
               (List.filter (λ c, negb (isZeroWidth c)) (toLowerCase text)))).

(** The text [normalizeContent] works on, and what it does to it. *)
Definition plainText (html : jsstring) : jsstring :=
  if truthy html then textContent (Element "div" [] [] [] (parseFragment html))
  else [].

Definition normalizeText (text : jsstring) : jsstring :=
  trim (spacePunctuation false
          (collapseWhiteSpace
             (List.filter (λ c, negb (isZeroWidth c)) (toLowerCase text)))).




(** ** Term extraction *)

(** The [while] loop over [nextElementSibling]: the [dd] elements that
    follow, up to the first other element, without the meta-info wrappers. *)
Fixpoint collectDd (following : list node) : list node :=
  match following with
  | [] => []
  | Text _ :: rest => collectDd rest
  | sibling :: rest =>
      if hasTag "dd" sibling then
        if negb (hasClass "meta-info-content-wrapper" sibling)
        then sibling :: collectDd rest
        else collectDd rest
      else []
  end.

(** The body of the [forEach]: the key and the entry one [dt] contributes,
    given the nodes that follow it; nothing when it holds no term id. *)
Definition termEntry (dt : node) (following : list node) : option (jsstring * LiveTerm.t) :=
  match querySelector termIdSelector dt with
  | None => None
  | Some termSpan =>
      let termId := nodeId termSpan in
      let termName := List.last (splitOn 58%N termId) [] in
      let ddElements := collectDd following in
      let rawContent :=
        if decide (0 < length ddElements) then join [10%N] (map outerHTML ddElements)
        else [] in
      let definitionContent :=
        if decide (0 < length ddElements) then join [10%N] (map textContent ddElements)
        else [] in
      Some (toLowerCase termName,
            {| LiveTerm.content := trim definitionContent;
               LiveTerm.rawContent := rawContent;
               LiveTerm.termId := termId |})
  end.

(** [querySelectorAll('dl.terms-and-definitions-list dt')]: the [dt]
    elements below such a list, in document order, each with the nodes that
    follow it under its parent.  [inList] says that an ancestor is such a
    list. *)
Fixpoint termElementsOf (inList : bool) (n : node) : list (node * list node) :=
  match n with
  | Text _ => []
  | Element _ _ _ _ cs =>
      let inside :=
        inList || hasTag "dl" n && hasClass "terms-and-definitions-list" n in
      (fix among (cs : list node) : list (node * list node) :=
         match cs with
         | [] => []
         | c :: rest =>
             (if inside && hasTag "dt" c then [(c, rest)] else [])
             ++ termElementsOf inside c ++ among rest
         end) cs
  end.

Definition termElements (doc : list node) : list (node * list node) :=
  termElementsOf false (Element "#document" [] [] [] doc).

(** [terms.set(key, entry)] for each term element in turn. *)
Definition setTerm (terms : gmap jsstring LiveTerm.t) (dt : node * list node)
    : gmap jsstring LiveTerm.t :=
  match termEntry dt.1 dt.2 with
  | Some (key, entry) => <[key := entry]> terms
  | None => terms
  end.

(** The term entries of a document: what its term elements contribute,
    in document order. *)
Definition termEntries (doc : list node) : list (jsstring * LiveTerm.t) :=
  omap (λ dt, termEntry dt.1 dt.2) (termElements doc).

Definition extractTermsFromHtml (html : jsstring) : gmap jsstring LiveTerm.t :=
  let doc := parseDocument html in
  foldl setTerm ∅ (termElements doc).

(** ** Live spec fetcher *)

(** The [try] block of [fetchExternalSpec]: the request, and the cache
    write when it succeeds.  A rejected [fetch] or body read is caught and
    gives [null]. *)
Definition fetchLive (ghPageUrl : jsstring) (w : World)
    : option (gmap jsstring LiveTerm.t) * World :=
  let '(outcome, settled) := network ghPageUrl (clock w) in
  let w := {| fetchCache := fetchCache w; clock := settled;
              requests := requests w ++ [ghPageUrl] |} in
  match outcome with
  | rejected => (None, w)
  | resolved response =>
      if negb (ok response) then (None, w)
      else match text response with
           | None => (None, w)
           | Some html =>
               let terms := extractTermsFromHtml html in
               (Some terms,
                {| fetchCache :=
                     <[ghPageUrl := {| timestamp := clock w; data := terms |}]>
                       (fetchCache w);
                   clock := clock w; requests := requests w |})
           end
  end.

(** [fetchExternalSpec(ghPageUrl, specName)]: the value the promise
    resolves to ([None] is [null]) and the state it leaves.  [specName] only
    appears in console warnings. *)
Definition fetchExternalSpec (cfg : Config) (ghPageUrl : jsstring) (w : World)
    : option (gmap jsstring LiveTerm.t) * World :=
  match fetchCache w !! ghPageUrl with
  | Some cached =>
      if decide (clock w - timestamp cached < cacheTimeout cfg)%Z
      then (Some (data cached), w)
      else fetchLive ghPageUrl w
  | None => fetchLive ghPageUrl w
  end.

(** The states of a page load: the cache starts empty, time passes, and
    [fetchExternalSpec] is called. *)
Inductive reachable (cfg : Config) : World → Prop :=
  | reachable_start w : fetchCache w = ∅ → reachable cfg w
  | reachable_wait w now :
      reachable cfg w →
      reachable cfg {| fetchCache := fetchCache w; clock := now; requests := requests w |}
  | reachable_fetch w ghPageUrl :
      reachable cfg w → reachable cfg (fetchExternalSpec cfg ghPageUrl w).2.

(** The condition under which [fetchExternalSpec] goes to the network. *)
Definition cacheMiss (cfg : Config) (ghPageUrl : jsstring) (w : World) : Prop :=
  match fetchCache w !! ghPageUrl with
  | None => True
  | Some cached => (cacheTimeout cfg <= clock w - timestamp cached)%Z
  end.

(** Every cached entry holds the terms extracted from some page. *)
Definition cacheHoldsParsedPages (cache : gmap jsstring CacheEntry) : Prop :=
  ∀ url entry, cache !! url = Some entry →
    ∃ html, data entry = extractTermsFromHtml html.

(** ** Indicator renderer *)

(** The [innerHTML] of the details panel of a changed definition. *)
Definition changedDetailsHtml (details : Details) : jsstring :=
  let diff := findTextDifferences (oldContent details) (newContent details) in
  let similarityText :=
    if truthy (similarity details)
    then divOpen "validation-similarity" ++ js "Similarity: "
         ++ similarity details ++ js "</div>"
    else [] in
  if hasDifferences diff then
    br 16 ++ divOpen "validation-details-header"
      ++ js "Definition Changed - Showing Differences</div>"
    ++ br 16 ++ similarityText
    ++ br 16 ++ divOpen "validation-details-section"
    ++ br 20 ++ js "<strong>Removed from cached version:</strong>"
    ++ br 20 ++ divOpen "validation-content-old"
      ++ escapeHtml (truncateText (oldUnique diff) 300) ++ js "</div>"
    ++ br 16 ++ js "</div>"
    ++ br 16 ++ divOpen "validation-details-section"
    ++ br 20 ++ js "<strong>Added in live version:</strong>"
    ++ br 20 ++ divOpen "validation-content-new"
      ++ escapeHtml (truncateText (newUnique diff) 300) ++ js "</div>"
    ++ br 16 ++ js "</div>"
    ++ br 16 ++ divOpen "validation-details-footer"
    ++ br 20 ++ js "<em>Rebuild the spec to update the definition</em>"
    ++ br 16 ++ js "</div>"
    ++ br 12
  else
    br 16 ++ divOpen "validation-details-header" ++ js "Definition Changed</div>"
    ++ br 16 ++ similarityText
    ++ br 16 ++ divOpen "validation-details-section"
    ++ br 20 ++ js "<strong>Cached (at build time):</strong>"
    ++ br 20 ++ divOpen "validation-content-old"
      ++ escapeHtml (truncateText (oldContent details) 500) ++ js "</div>"
    ++ br 16 ++ js "</div>"
    ++ br 16 ++ divOpen "validation-details-section"
    ++ br 20 ++ js "<strong>Current (live):</strong>"
    ++ br 20 ++ divOpen "validation-content-new"
      ++ escapeHtml (truncateText (newContent details) 500) ++ js "</div>"
    ++ br 16 ++ js "</div>"
    ++ br 16 ++ divOpen "validation-details-footer"
    ++ br 20 ++ js "<em>Rebuild the spec to update the definition</em>"
    ++ br 16 ++ js "</div>"
    ++ br 12.

(** The [innerHTML] of the details panel of a missing term. *)
Definition missingDetailsHtml : jsstring :=
  br 12 ++ divOpen "validation-details-header" ++ js "Term Not Found</div>"
  ++ br 12 ++ divOpen "validation-details-section"
  ++ br 16 ++ js "The term referenced here no longer exists in the external specification."
  ++ br 16 ++ js "It may have been renamed, moved, or removed."
  ++ br 12 ++ js "</div>"
  ++ br 12 ++ divOpen "validation-details-footer"
  ++ br 16 ++ js "<em>Check the external specification for updates</em>"
  ++ br 12 ++ js "</div>"
  ++ br 8.

(** [createIndicator(type, details)]. *)
Definition createIndicator (type : IndicatorType) (details : Details) : node :=
  let labelText := if truthy (message details) then message details else label type in
  let iconSpan :=
    Element "span" [] ["indicator-icon"] []
      [Text (List.hd [] (splitOn 32%N (label type)))] in
  let changedDetails :=
    bool_decide (type = changed) && truthy (oldContent details)
    && truthy (newContent details) in
  let missingDetails := bool_decide (type = missing) in
  Element "span" []
    ([indicatorClass; typeClass type]
     ++ (if changedDetails then ["has-details"] else [])
     ++ (if missingDetails then ["has-details"] else []))
    [("title", labelText)]
    ([iconSpan]
     ++ (if changedDetails
         then [Element "div" [] ["validation-details"] []
                 (parseFragment (changedDetailsHtml details))]
         else [])
     ++ (if missingDetails
         then [Element "div" [] ["validation-details"] []
                 (parseFragment missingDetailsHtml)]
         else [])).

(** [insertIndicatorAfterElement(element, indicator)], on the nodes that
    follow [element] under its parent: the indicator becomes the first of
    them unless the next element already is an indicator. *)
Definition insertIndicatorAfterElement (following : list node) (indicator : node)
    : list node :=
  match nextElementSibling following with
  | Some next =>
      if hasClass indicatorClass next then following
      else indicator :: following
  | None => indicator :: following
  end.

(** [insertIndicatorIntoTref(dtElement, indicator)]: the [dt] element
    after the call. *)
Definition insertIndicatorIntoTref (dtElement : node) (indicator : node) : node :=
  match querySelector termExternalSpan dtElement with
  | None => dtElement
  | Some termSpan =>
      match querySelector indicatorSelector termSpan with
      | Some _ => dtElement
      | None => replaceFirst termExternalSpan (appendChild termSpan indicator) dtElement
      end
  end.

(** [extractTextFromHtml(html)]. *)
Definition extractTextFromHtml (html : jsstring) : jsstring :=
  textContent (Element "div" [] [] [] (parseFragment html)).

(** ** Validator *)

(** [validateXref(element, liveData, cachedXtref)]: the nodes following the
    anchor after the call.  In [liveData] a URL is absent ([undefined]),
    mapped to [None] ([null]) or mapped to its live terms. *)
Definition validateXref (cfg : Config) (following : list node)
    (liveData : gmap jsstring (option (gmap jsstring LiveTerm.t)))
    (cachedXtref : option XTref.t) : list node :=
  match cachedXtref with
  | None => following
  | Some cachedXtref =>
      if negb (truthy (XTref.ghPageUrl cachedXtref)) then following
      else
        match liveData !! XTref.ghPageUrl cachedXtref with
        | Some None =>
            insertIndicatorAfterElement following (createIndicator error noDetails)
        | None => following
        | Some (Some liveTerms) =>
            let termKey := toLowerCase (XTref.term cachedXtref) in
            match liveTerms !! termKey with
            | None =>
                insertIndicatorAfterElement following (createIndicator missing noDetails)
            | Some liveTerm =>
                let cachedNormalized := normalizeContent (XTref.content cachedXtref) in
                let liveNormalized := normalizeContent (LiveTerm.rawContent liveTerm) in
                let similarity := calculateSimilarity cachedNormalized liveNormalized in
                if lessThan similarity (similarityThreshold cfg) then
                  insertIndicatorAfterElement following
                    (createIndicator changed
                       {| message := [];
                          oldContent :=
                            if truthy (XTref.content cachedXtref)
                            then extractTextFromHtml (XTref.content cachedXtref)
                            else js "No cached content";
                          newContent :=
                            if truthy (LiveTerm.content liveTerm)
                            then LiveTerm.content liveTerm
                            else js "No live content";
                          similarity :=
                            toFixed 1 (times similarity 100) ++ js "%" |})
                else if showValidIndicators cfg then
                  insertIndicatorAfterElement following (createIndicator valid noDetails)
                else following
            end
        end
  end.

(** [validateTref(element, liveData, cachedXtref)]: the [dt] element after
    the call. *)
Definition validateTref (cfg : Config) (element : node)
    (liveData : gmap jsstring (option (gmap jsstring LiveTerm.t)))
    (cachedXtref : option XTref.t) : node :=
  match cachedXtref with
  | None => element
  | Some cachedXtref =>
      if negb (truthy (XTref.ghPageUrl cachedXtref)) then element
      else
        match liveData !! XTref.ghPageUrl cachedXtref with
        | Some None =>
            insertIndicatorIntoTref element (createIndicator error noDetails)
        | None => element
        | Some (Some liveTerms) =>
            let termKey := toLowerCase (XTref.term cachedXtref) in
            match liveTerms !! termKey with
            | None =>
                insertIndicatorIntoTref element (createIndicator missing noDetails)
            | Some liveTerm =>
                let cachedNormalized := normalizeContent (XTref.content cachedXtref) in
                let liveNormalized := normalizeContent (LiveTerm.rawContent liveTerm) in
                let similarity := calculateSimilarity cachedNormalized liveNormalized in
                if lessThan similarity (similarityThreshold cfg) then
                  insertIndicatorIntoTref element
                    (createIndicator changed
                       {| message := [];
                          oldContent :=
                            if truthy (XTref.content cachedXtref)
                            then extractTextFromHtml (XTref.content cachedXtref)
                            else js "No cached content";
                          newContent :=
                            if truthy (LiveTerm.content liveTerm)
                            then LiveTerm.content liveTerm
                            else js "No live content";
                          similarity :=
                            toFixed 1 (times similarity 100) ++ js "%" |})
                else if showValidIndicators cfg then
                  insertIndicatorIntoTref element (createIndicator valid noDetails)
                else element
            end
        end
  end.

(** The outcome of validating one reference, as the specification names
    it; [Changed] carries the old content, the new content and the
    similarity percentage. *)
Inductive ValidationOutcome : Type :=
  | Missing
  | Changed (oldText newText percentage : jsstring)
  | Error
  | Valid.

(** The classification rule of the specification, for a cached entry and
    the live mapping of its URL ([None] is [null]). *)
Definition classification (cfg : Config)
    (liveTerms : option (gmap jsstring LiveTerm.t)) (cachedXtref : XTref.t)
    : ValidationOutcome :=
  match liveTerms with
  | None => Error
  | Some liveTerms =>
      match liveTerms !! toLowerCase (XTref.term cachedXtref) with
      | None => Missing
      | Some liveTerm =>
          match calculateSimilarity (normalizeContent (XTref.content cachedXtref))
                  (normalizeContent (LiveTerm.rawContent liveTerm)) with
          | Some similarity =>
              if Qlt_le_dec similarity (similarityThreshold cfg) then
                Changed
                  (if truthy (XTref.content cachedXtref)
                   then extractTextFromHtml (XTref.content cachedXtref)
                   else js "No cached content")
                  (if truthy (LiveTerm.content liveTerm)
                   then LiveTerm.content liveTerm
                   else js "No live content")
                  (toFixed 1 (Some (similarity * 100)%Q) ++ js "%")
              else Valid
          | None => Valid
          end
      end
  end.

(** The indicator an outcome is rendered as, if any. *)
Definition indicatorOf (cfg : Config) (outcome : ValidationOutcome) : option node :=
  match outcome with
  | Error => Some (createIndicator error noDetails)
  | Missing => Some (createIndicator missing noDetails)
  | Changed oldText newText percentage =>
      Some (createIndicator changed
              {| message := []; oldContent := oldText; newContent := newText;
                 similarity := percentage |})
  | Valid =>
      if showValidIndicators cfg then Some (createIndicator valid noDetails)
      else None
  end.

(** [collectExternalSpecs()]: the [Map] from URL to [{url, specName}], as
    the list of its entries in insertion order.  [allXTrefs] is [None] when
    the global or its [xtrefs] is missing. *)
Definition addSpec (specs : list (jsstring * (jsstring * jsstring)))
    (xtref : XTref.t) : list (jsstring * (jsstring * jsstring)) :=
  if truthy (XTref.ghPageUrl xtref)
     && negb (bool_decide (XTref.ghPageUrl xtref ∈ specs.*1))
  then specs ++ [(XTref.ghPageUrl xtref,
                  (XTref.ghPageUrl xtref, XTref.externalSpec xtref))]
  else specs.

Definition collectExternalSpecs (allXTrefs : option (list XTref.t))
    : list (jsstring * (jsstring * jsstring)) :=
  match allXTrefs with
  | None => []
  | Some xtrefs => foldl addSpec [] xtrefs
  end.

(** The fetch phase of [validateExternalRefs]: one [fetchExternalSpec] per
    collected URL, and [liveData = new Map(fetchResults)].  The fetches are
    taken one after the other; they write to distinct keys of the cache. *)
Definition fetchNext (cfg : Config)
    (acc : list (jsstring * option (gmap jsstring LiveTerm.t)) * World)
    (spec : jsstring * (jsstring * jsstring))
    : list (jsstring * option (gmap jsstring LiveTerm.t)) * World :=
  let '(terms, w) := fetchExternalSpec cfg spec.1 acc.2 in
  (acc.1 ++ [(spec.1, terms)], w).

Definition fetchAll (cfg : Config) (specs : list (jsstring * (jsstring * jsstring)))
    (w : World) : list (jsstring * option (gmap jsstring LiveTerm.t)) * World :=
  foldl (fetchNext cfg) ([], w) specs.

Definition liveDataOf (fetchResults : list (jsstring * option (gmap jsstring LiveTerm.t)))
    : gmap jsstring (option (gmap jsstring LiveTerm.t)) :=
  foldl (λ liveData result, <[result.1 := result.2]> liveData) ∅ fetchResults.

(** ** The orchestrator *)

(** [findCachedXtrefForXref(element)]; [None] is [null] or [undefined]. *)
Definition findCachedXtrefForXref (allXTrefs : option (list XTref.t)) (element : node)
    : option XTref.t :=
  match allXTrefs with
  | None => None
  | Some xtrefs =>
      let localHref := default [] (getAttribute "data-local-href" element) in
      match matchTerm localHref with
      | None => None
      | Some (specName, termName) =>
          List.find (λ x,
              bool_decide (XTref.externalSpec x = specName)
              && bool_decide (toLowerCase (XTref.term x) = toLowerCase termName))
            xtrefs
      end
  end.

(** [findCachedXtrefForTref(element)], given the ancestors of the
    element. *)
Definition findCachedXtrefForTref (allXTrefs : option (list XTref.t))
    (ancestors : list node) (element : node) : option XTref.t :=
  match allXTrefs with
  | None => None
  | Some xtrefs =>
      let termSpan :=
        match querySelector originalTermSelector element with
        | Some found => Some found
        | None => closest originalTermSelector ancestors element
        end in
      match termSpan with
      | None => None
      | Some termSpan =>
          let originalTerm :=
            default [] (getAttribute "data-original-term" termSpan) in
          List.find (λ x,
              bool_decide (toLowerCase (XTref.term x) = toLowerCase originalTerm)
              && existsb (λ sf, bool_decide (sf.2 = js "tref")) (XTref.sourceFiles x))
            xtrefs
      end
  end.

(** The body of the loop over the xref elements: the nodes that follow the
    anchor, after it. *)
Definition validateXrefElement (cfg : Config) (allXTrefs : option (list XTref.t))
    (liveData : gmap jsstring (option (gmap jsstring LiveTerm.t)))
    (element : node) (following : list node) : list node :=
  match findCachedXtrefForXref allXTrefs element with
  | Some cachedXtref => validateXref cfg following liveData (Some cachedXtref)
  | None => following
  end.

(** The body of the loop over the tref elements: the element after it. *)
Definition validateTrefElement (cfg : Config) (allXTrefs : option (list XTref.t))
    (liveData : gmap jsstring (option (gmap jsstring LiveTerm.t)))
    (ancestors : list node) (element : node) : node :=
  match findCachedXtrefForTref allXTrefs ancestors element with
  | Some cachedXtref => validateTref cfg element liveData (Some cachedXtref)
  | None => element
  end.

(** The loop over [querySelectorAll('a.x-term-reference')], below [n]: the
    anchors are taken in document order, each with the nodes that follow it
    under its parent; what the body puts in front of these nodes comes
    between the anchor and them, and is not in the list of anchors, which
    was made before the loop. *)
Fixpoint validateXrefsBelow (cfg : Config) (allXTrefs : option (list XTref.t))
    (liveData : gmap jsstring (option (gmap jsstring LiveTerm.t)))
    (n : node) : node :=
  match n with
  | Text _ => n
  | Element tag id cls attrs cs =>
      Element tag id cls attrs
        ((fix among (cs : list node) : list node :=
            match cs with
            | [] => []
            | c :: rest =>
                let inserted :=
                  if xrefSelector c then
                    let following :=
                      validateXrefElement cfg allXTrefs liveData c rest in
                    take (length following - length rest) following
                  else [] in
                validateXrefsBelow cfg allXTrefs liveData c
                :: inserted ++ among rest
            end) cs)
  end.

(** The loop over [querySelectorAll('dt.term-external')]: the elements are
    taken by their positions, which the loop does not change, as all it
    does is to append children. *)
Definition validateTrefsBelow (cfg : Config) (allXTrefs : option (list XTref.t))
    (liveData : gmap jsstring (option (gmap jsstring LiveTerm.t)))
    (n : node) : node :=
  foldl (λ n position,
      updateAt (validateTrefElement cfg allXTrefs liveData) [] position n)
    n (positionsOf trefSelector n).

(** [validateExternalRefs()]: the children of the document and the state
    afterwards, and the detail of the event it dispatches, if it does. *)
Definition validateExternalRefs (cfg : Config) (allXTrefs : option (list XTref.t))
    (document : list node) (w : World) : list node * World * option Validated :=
  let specs := collectExternalSpecs allXTrefs in
  if decide (length specs = 0) then (document, w, None)
  else
    let '(fetchResults, w') := fetchAll cfg specs w in
    let liveData := liveDataOf fetchResults in
    let root := Element "#document" [] [] [] document in
    let xrefElements := positionsOf xrefSelector root in
    let root := validateXrefsBelow cfg allXTrefs liveData root in
    let trefElements := positionsOf trefSelector root in
    let root := validateTrefsBelow cfg allXTrefs liveData root in
    (children root, w',
     Some {| specsValidated := length specs;
             xrefsValidated := length xrefElements;
             trefsValidated := length trefElements |}).

(** * Proofs *)

(** ** Loops *)

Lemma for_each_invariant {St : Type} (Inv : nat → St → Prop) body lo n (s : St) :
  Inv lo s →
  (∀ i s, lo ≤ i < lo + n → Inv i s → ∃ s', body i s = Some s' ∧ Inv (1 + i) s') →
  ∃ s', for_each (seq lo n) body s = Some s' ∧ Inv (lo + n) s'.
Proof.
  revert lo s. induction n as [|n IH]; intros lo s H0 Hstep; simpl.
  - exists s. by rewrite Nat.add_0_r.
  - destruct (Hstep lo s) as (s1 & -> & H1); [lia | done |]. simpl.
    destruct (IH (S lo) s1) as (s2 & -> & H2); [done | |].
    + intros i t Hi. apply Hstep. lia.
    + exists s2. split; [done|]. by replace (lo + S n) with (S lo + n) by lia.
Qed.

(** ** Edit scripts and the recurrence *)

Lemma edits_length a b n : edits a b n → length a ≤ length b + n ∧ length b ≤ length a + n.
Proof. induction 1; simpl; lia. Qed.

Lemma edits_inserts b : edits [] b (length b).
Proof. induction b; simpl; by constructor. Qed.

Lemma edits_deletes a : edits a [] (length a).
Proof. induction a; simpl; by constructor. Qed.

Lemma edits_drop_r a y b n : edits a (y :: b) n → ∃ m, m ≤ S n ∧ edits a b m.
Proof.
  intros H. remember (y :: b) as b0 eqn:Hb. revert y b Hb.
  induction H as [|x a b0 n H IH|x y0 a b0 n H IH|x a b0 n H IH|y0 a b0 n H IH];
    intros y b Hb; simplify_eq.
  - exists (S n). split; [lia|]. by constructor.
  - exists (S n). split; [lia|]. by constructor.
  - destruct (IH _ _ eq_refl) as (m & Hm & He). exists (S m). split; [lia|].
    by constructor.
  - exists n. split; [lia|done].
Qed.

Lemma edits_drop_l x a b n : edits (x :: a) b n → ∃ m, m ≤ S n ∧ edits a b m.
Proof.
  intros H. remember (x :: a) as a0 eqn:Ha. revert x a Ha.
  induction H as [|x0 a0 b n H IH|x0 y a0 b n H IH|x0 a0 b n H IH|y a0 b n H IH];
    intros x a Ha; simplify_eq.
  - exists (S n). split; [lia|]. by constructor.
  - exists (S n). split; [lia|]. by constructor.
  - exists n. split; [lia|done].
  - destruct (IH _ _ eq_refl) as (m & Hm & He). exists (S m). split; [lia|].
    by constructor.
Qed.

Lemma lev_cons_cons x y a b :
  lev (x :: a) (y :: b) =
    if decide (x = y) then lev a b
    else S (Nat.min (lev a b) (Nat.min (lev a (y :: b)) (lev (x :: a) b))).
Proof. reflexivity. Qed.

Lemma lev_nil_r a : lev a [] = length a.
Proof. by destruct a. Qed.

Lemma lev_edits a b : edits a b (lev a b).
Proof.
  revert b. induction a as [|x a IHa]; intros b.
  - apply edits_inserts.
  - induction b as [|y b IHb].
    + rewrite lev_nil_r. apply edits_deletes.
    + rewrite lev_cons_cons. case_decide as Hxy.
      * subst. by constructor.
      * destruct (Nat.min_dec (lev a b) (Nat.min (lev a (y :: b)) (lev (x :: a) b)))
          as [->| ->]; [by constructor|].
        destruct (Nat.min_dec (lev a (y :: b)) (lev (x :: a) b)) as [->| ->];
          by constructor.
Qed.

Lemma lev_least a b n : edits a b n → lev a b ≤ n.
Proof.
  revert b n. induction a as [|x a IHa]; intros b n H.
  - apply edits_length in H. simpl in *. lia.
  - revert n H. induction b as [|y b IHb]; intros n H.
    + rewrite lev_nil_r. apply edits_length in H. simpl in *. lia.
    + rewrite lev_cons_cons. case_decide as Hxy.
      * subst y. inversion H; subst.
        -- by apply IHa.
        -- etrans; [by apply IHa|lia].
        -- match goal with H' : edits a (x :: b) _ |- _ =>
             apply edits_drop_r in H' as (m & Hm & He) end.
           etrans; [by apply IHa|lia].
        -- match goal with H' : edits (x :: a) b _ |- _ =>
             apply edits_drop_l in H' as (m & Hm & He) end.
           etrans; [by apply IHa|lia].
      * inversion H; subst; try done.
        -- match goal with H' : edits a b _ |- _ => apply IHa in H' end. lia.
        -- match goal with H' : edits a (y :: b) _ |- _ => apply IHa in H' end. lia.
        -- match goal with H' : edits (x :: a) b _ |- _ => apply IHb in H' end. lia.
Qed.

Lemma lev_is_levenshtein a b : levenshtein_distance a b (lev a b).
Proof. split; [apply lev_edits | apply lev_least]. Qed.

Lemma levenshtein_distance_unique a b d1 d2 :
  levenshtein_distance a b d1 → levenshtein_distance a b d2 → d1 = d2.
Proof. intros [H1 L1] [H2 L2]. apply L1 in H2. apply L2 in H1. lia. Qed.

(** Edit scripts can be extended at the end as well as at the front, so
    they survive reversing both strings. *)
Lemma edits_keep_end x a b n : edits a b n → edits (a ++ [x]) (b ++ [x]) n.
Proof. induction 1; simpl; try by constructor. repeat constructor. Qed.

Lemma edits_subst_end x y a b n : edits a b n → edits (a ++ [x]) (b ++ [y]) (S n).
Proof. induction 1; simpl; try by constructor. repeat constructor. Qed.

Lemma edits_delete_end x a b n : edits a b n → edits (a ++ [x]) b (S n).
Proof. induction 1; simpl; try by constructor. repeat constructor. Qed.

Lemma edits_insert_end y a b n : edits a b n → edits a (b ++ [y]) (S n).
Proof. induction 1; simpl; try by constructor. repeat constructor. Qed.

Lemma edits_rev a b n : edits a b n → edits (rev a) (rev b) n.
Proof.
  induction 1; simpl.
  - constructor.
  - by apply edits_keep_end.
  - by apply edits_subst_end.
  - by apply edits_delete_end.
  - by apply edits_insert_end.
Qed.

Lemma lev_rev a b : lev (rev a) (rev b) = lev a b.
Proof.
  apply Nat.le_antisymm.
  - apply lev_least, edits_rev, lev_edits.
  - pose proof (lev_least _ _ _ (edits_rev _ _ _ (lev_edits (rev a) (rev b)))) as H.
    by rewrite !rev_involutive in H.
Qed.

Lemma lev_le_max a b : lev a b ≤ Nat.max (length a) (length b).
Proof.
  revert b. induction a as [|x a IHa]; intros b; [simpl; lia|].
  induction b as [|y b IHb]; [rewrite lev_nil_r; lia|].
  rewrite lev_cons_cons. specialize (IHa b). simpl. case_decide; lia.
Qed.

(** ** The dynamic programme computes the recurrence *)

Lemma cell_middle (pre : list (list nat)) row post i j :
  length pre = i → cell (pre ++ row :: post) i j = row !! j.
Proof. intros <-. unfold cell. by rewrite list_lookup_middle. Qed.

Lemma cell_above (pre rest : list (list nat)) i j :
  i < length pre → cell (pre ++ rest) i j = pre !! i ≫= (.!! j).
Proof. intros Hi. unfold cell. by rewrite lookup_app_l. Qed.

Lemma set_cell_extend (pre : list (list nat)) row post i j v :
  length pre = i → length row = j →
  set_cell (pre ++ row :: post) i j v = Some (pre ++ (row ++ [v]) :: post).
Proof.
  intros <- <-. unfold set_cell, js_set. rewrite list_lookup_middle by done. simpl.
  case_decide; [lia|]. case_decide; [|done]. simpl.
  by rewrite insert_app_r_alt, Nat.sub_diag by lia.
Qed.

Section DynamicProgramme.
Variables str1 str2 : jsstring.

Lemma dp_entry_row0 j : j ≤ length str1 → dp_entry str1 str2 0 j = j.
Proof.
  intros Hj. unfold dp_entry. rewrite take_0. simpl.
  rewrite lev_nil_r, length_rev, length_take. lia.
Qed.

Lemma dp_entry_col0 i : i ≤ length str2 → dp_entry str1 str2 i 0 = i.
Proof.
  intros Hi. unfold dp_entry. rewrite take_0. simpl.
  rewrite length_rev, length_take. lia.
Qed.

Lemma dp_entry_step i j :
  1 ≤ i ≤ length str2 → 1 ≤ j ≤ length str1 →
  dp_entry str1 str2 i j =
    if decide (str2 !! (i - 1) = str1 !! (j - 1))
    then dp_entry str1 str2 (i - 1) (j - 1)
    else Nat.min (dp_entry str1 str2 (i - 1) (j - 1) + 1)
           (Nat.min (dp_entry str1 str2 i (j - 1) + 1)
                    (dp_entry str1 str2 (i - 1) j + 1)).
Proof.
  intros Hi Hj. unfold dp_entry.
  destruct i as [|i]; [lia|]. destruct j as [|j]; [lia|].
  replace (S i - 1) with i by lia. replace (S j - 1) with j by lia.
  destruct (lookup_lt_is_Some_2 str1 j) as [x Hx]; [lia|].
  destruct (lookup_lt_is_Some_2 str2 i) as [y Hy]; [lia|].
  assert (rev (take (S j) str1) = x :: rev (take j str1)) as Ha
    by (by rewrite (take_S_r _ _ _ Hx), rev_app_distr).
  assert (rev (take (S i) str2) = y :: rev (take i str2)) as Hb
    by (by rewrite (take_S_r _ _ _ Hy), rev_app_distr).
  rewrite Ha, Hb, lev_cons_cons, Hx, Hy.
  repeat case_decide; simplify_eq; try done. lia.
Qed.

Lemma dp_row_length i j : length (dp_row str1 str2 i j) = j.
Proof. unfold dp_row. by rewrite length_map, length_seq. Qed.

Lemma dp_row_lookup i j k : k < j → dp_row str1 str2 i j !! k = Some (dp_entry str1 str2 i k).
Proof.
  intros Hk. unfold dp_row. rewrite list_lookup_fmap, lookup_seq_lt by done. done.
Qed.

Lemma dp_row_extend i j :
  dp_row str1 str2 i j ++ [dp_entry str1 str2 i j] = dp_row str1 str2 i (S j).
Proof. unfold dp_row. by rewrite seq_S, map_app. Qed.

Lemma dp_matrix_cell_current i j k :
  k < j → cell (dp_matrix str1 str2 i j) i k = Some (dp_entry str1 str2 i k).
Proof.
  intros Hk. unfold dp_matrix.
  rewrite cell_middle by (by rewrite length_map, length_seq).
  by apply dp_row_lookup.
Qed.

Lemma dp_matrix_cell_above i j i' k :
  i' < i → k ≤ length str1 →
  cell (dp_matrix str1 str2 i j) i' k = Some (dp_entry str1 str2 i' k).
Proof.
  intros Hi Hk. unfold dp_matrix. rewrite cell_above.
  - rewrite list_lookup_fmap, lookup_seq_lt by done. simpl.
    apply dp_row_lookup. lia.
  - by rewrite length_map, length_seq.
Qed.

Lemma dp_matrix_set i j :
  set_cell (dp_matrix str1 str2 i j) i j (dp_entry str1 str2 i j)
  = Some (dp_matrix str1 str2 i (S j)).
Proof.
  unfold dp_matrix.
  rewrite (set_cell_extend _ _ _ i j);
    [by rewrite dp_row_extend | by rewrite length_map, length_seq | apply dp_row_length].
Qed.

(** A finished row [i] is the start of row [i + 1]. *)
Lemma dp_matrix_next_row i :
  i < length str2 →
  dp_matrix str1 str2 i (S (length str1)) = dp_matrix str1 str2 (S i) 1.
Proof.
  intros Hi. unfold dp_matrix.
  rewrite (seq_S i 0), map_app, <- app_assoc. simpl. f_equal. f_equal.
  replace (length str2 - i) with (S (length str2 - S i)) by lia. simpl.
  f_equal. unfold dp_row. simpl. by rewrite dp_entry_col0 by lia.
Qed.

Lemma first_loop :
  for_each (seq 0 (S (length str2))) (λ i matrix, js_set matrix i [i]) []
  = Some (map (λ k, [k]) (seq 0 (S (length str2)))).
Proof.
  destruct (for_each_invariant
    (λ i (m : list (list nat)), m = map (λ k, [k]) (seq 0 i))
    (λ i matrix, js_set matrix i [i]) 0 (S (length str2)) [])
    as (m & Hm & ->); [done| |done].
  intros i m _ ->. eexists. split; [|done].
  unfold js_set. rewrite length_map, length_seq.
  case_decide; [lia|]. case_decide; [|done]. by rewrite seq_S, map_app.
Qed.

Lemma second_loop :
  for_each (seq 0 (S (length str1))) (λ j matrix, set_cell matrix 0 j j)
    (map (λ k, [k]) (seq 0 (S (length str2))))
  = Some (dp_matrix str1 str2 0 (S (length str1))).
Proof.
  destruct (for_each_invariant
    (λ j (m : list (list nat)), m = dp_matrix str1 str2 0 (Nat.max 1 j))
    (λ j matrix, set_cell matrix 0 j j) 0 (S (length str1))
    (map (λ k, [k]) (seq 0 (S (length str2)))))
    as (m & Hm & ->); [| |done].
  - unfold dp_matrix, dp_row. simpl. rewrite dp_entry_col0 by lia.
    by rewrite Nat.sub_0_r.
  - intros j m Hj ->. eexists. split; [|done]. destruct j as [|j].
    + unfold dp_matrix, dp_row, set_cell, js_set. simpl.
      by rewrite dp_entry_col0 by lia.
    + replace (Nat.max 1 (S j)) with (S j) by lia.
      replace (Nat.max 1 (1 + S j)) with (S (S j)) by lia.
      rewrite <- dp_matrix_set. by rewrite dp_entry_row0 by lia.
Qed.

Lemma inner_loop i :
  1 ≤ i ≤ length str2 →
  for_each (seq 1 (length str1)) (λ j matrix,
      if decide (str2 !! (i - 1) = str1 !! (j - 1)) then
        d ← cell matrix (i - 1) (j - 1);
        set_cell matrix i j d
      else
        d ← cell matrix (i - 1) (j - 1);
        l ← cell matrix i (j - 1);
        u ← cell matrix (i - 1) j;
        set_cell matrix i j (Nat.min (d + 1) (Nat.min (l + 1) (u + 1))))
    (dp_matrix str1 str2 i 1)
  = Some (dp_matrix str1 str2 i (S (length str1))).
Proof.
  intros Hi.
  edestruct (for_each_invariant
    (λ j (m : list (list nat)), m = dp_matrix str1 str2 i j))
    as (m & Hm & ->); [| |exact Hm]; [done|].
  intros j m Hj ->. eexists. split; [|done].
  rewrite dp_matrix_cell_above by lia.
  pose proof (dp_entry_step i j ltac:(lia) ltac:(lia)) as Hstep.
  case_decide; simpl.
  - rewrite <- Hstep. apply dp_matrix_set.
  - rewrite dp_matrix_cell_current by lia. simpl.
    rewrite dp_matrix_cell_above by lia. simpl.
    rewrite <- Hstep. apply dp_matrix_set.
Qed.

(** The matrix loops never read an undefined slot, and leave the value of
    the recurrence in the last cell. *)
Lemma levenshteinDistance_recurrence :
  levenshteinDistance str1 str2 = Some (lev str1 str2).
Proof.
  unfold levenshteinDistance. rewrite first_loop. cbn [mbind option_bind].
  rewrite second_loop. cbn [mbind option_bind].
  edestruct (for_each_invariant
    (λ i (m : list (list nat)), m = dp_matrix str1 str2 (i - 1) (S (length str1))))
    as (m & Hm & ->); [| |rewrite Hm]; [done| |].
  - intros i m Hi ->. eexists. split.
    + rewrite dp_matrix_next_row by lia. replace (S (i - 1)) with i by lia.
      apply inner_loop. lia.
    + by replace (1 + i - 1) with i by lia.
  - cbn [mbind option_bind]. replace (1 + length str2 - 1) with (length str2) by lia.
    rewrite dp_matrix_cell_current by lia. f_equal.
    unfold dp_entry. by rewrite !firstn_all, lev_rev.
Qed.
End DynamicProgramme.

(** ** Similarity *)

Lemma similarity_range (len d : nat) :
  0 < len → d ≤ len →
  (0 <= (inject_Z (Z.of_nat len) - inject_Z (Z.of_nat d)) / inject_Z (Z.of_nat len)
   ∧ (inject_Z (Z.of_nat len) - inject_Z (Z.of_nat d)) / inject_Z (Z.of_nat len) <= 1)%Q.
Proof.
  intros Hlen Hd.
  assert (0 < inject_Z (Z.of_nat len))%Q as Hpos.
  { change 0%Q with (inject_Z 0). rewrite <- Zlt_Qlt. lia. }
  split.
  - apply Qle_shift_div_l; [done|]. rewrite Qmult_0_l.
    unfold Qminus. rewrite <- inject_Z_opp, <- inject_Z_plus.
    change 0%Q with (inject_Z 0). rewrite <- Zle_Qle. lia.
  - apply Qle_shift_div_r; [done|]. rewrite Qmult_1_l.
    unfold Qminus. rewrite <- inject_Z_opp, <- inject_Z_plus.
    rewrite <- Zle_Qle. lia.
Qed.

Lemma truthy_nonempty (s : jsstring) : truthy s = true ↔ s ≠ [].
Proof. by destruct s. Qed.

Lemma calculateSimilarity_unfold (a b : jsstring) :
  a ≠ b → a ≠ [] → b ≠ [] →
  calculateSimilarity a b =
    let longer := if decide (length b < length a) then a else b in
    let shorter := if decide (length b < length a) then b else a in
    Some ((inject_Z (Z.of_nat (length longer)) - inject_Z (Z.of_nat (lev shorter longer)))
          / inject_Z (Z.of_nat (length longer)))%Q.
Proof.
  intros Hab Ha Hb. unfold calculateSimilarity.
  rewrite decide_False by done.
  destruct a as [|x a]; [done|]. destruct b as [|y b]; [done|].
  cbn [truthy negb orb]. cbv zeta.
  rewrite levenshteinDistance_recurrence. cbn [mbind option_bind].
  destruct (decide (length (y :: b) < length (x :: a))) as [Hlen|Hlen];
    by rewrite decide_False by done.
Qed.

(** C2.  [calculateSimilarity(a, b)] is 1 when the strings are equal, 0
    when one of two different strings is empty, and otherwise
    [(longerLength - editDistance) / longerLength], where the matrix loops
    of [levenshteinDistance] return the Levenshtein distance of the shorter
    and the longer string (the least cost of an edit script in which a
    substitution, an insertion and a deletion cost 1 each); the value lies
    between 0 and 1. *)
Theorem calculateSimilarity_spec (a b : jsstring) :
  let longer := if decide (length b < length a) then a else b in
  let shorter := if decide (length b < length a) then b else a in
  (a = b → calculateSimilarity a b = Some 1%Q)
  ∧ (a ≠ b → a = [] ∨ b = [] → calculateSimilarity a b = Some 0%Q)
  ∧ (a ≠ b → a ≠ [] → b ≠ [] →
     ∃ editDistance,
       levenshteinDistance shorter longer = Some editDistance
       ∧ levenshtein_distance shorter longer editDistance
       ∧ calculateSimilarity a b =
           Some ((inject_Z (Z.of_nat (length longer)) - inject_Z (Z.of_nat editDistance))
                 / inject_Z (Z.of_nat (length longer)))%Q)
  ∧ (∃ q, calculateSimilarity a b = Some q ∧ (0 <= q)%Q ∧ (q <= 1)%Q).
Proof.
  intros longer shorter. split; [|split; [|split]].
  - intros ->. unfold calculateSimilarity. by rewrite decide_True.
  - intros Hab Hempty. unfold calculateSimilarity. rewrite decide_False by done.
    destruct Hempty as [-> | ->]; [done|]. by destruct a.
  - intros Hab Ha Hb. exists (lev shorter longer). split; [|split].
    + apply levenshteinDistance_recurrence.
    + apply lev_is_levenshtein.
    + by rewrite calculateSimilarity_unfold.
  - destruct (decide (a = b)) as [->|Hab].
    { exists 1%Q. unfold calculateSimilarity. by rewrite decide_True. }
    destruct (decide (a = [])) as [->|Ha].
    { exists 0%Q. unfold calculateSimilarity. by rewrite decide_False. }
    destruct (decide (b = [])) as [->|Hb].
    { exists 0%Q. unfold calculateSimilarity. rewrite decide_False by done.
      by destruct a. }
    rewrite calculateSimilarity_unfold by done. cbv zeta. fold longer shorter.
    eexists. split; [done|]. apply similarity_range.
    + subst longer. destruct a, b; try done. case_decide; simpl; lia.
    + pose proof (lev_le_max shorter longer). subst longer shorter.
      case_decide; lia.
Qed.

(** ** The transclusion step *)

Lemma getLocalXTrefContent_lookup xtrefs externalSpec term :
  getLocalXTrefContent (Some xtrefs) externalSpec term
  = returned ((λ xtref, (XTref.content xtref, XTref.commitHash xtref)) <$>
              lookupEntry xtrefs externalSpec term).
Proof. done. Qed.

Lemma processLine_other index written line :
  markerOf line = None → processLine index written line = returned written.
Proof.
  unfold markerOf, processLine. destruct (startsWith _ line); [|done].
  by destruct (matchTref line) as [[??]|].
Qed.

Lemma processLine_found xtrefs written line match0 spec term entry :
  markerOf line = Some (match0, spec, term) →
  lookupEntry xtrefs spec term = Some entry →
  processLine (Some xtrefs) written line
  = returned (transclusion match0 (XTref.commitHash entry)
                (removeDefParts 0 (XTref.content entry))).
Proof.
  unfold markerOf, processLine. destruct (startsWith _ line); [|done].
  destruct (matchTref line) as [[m0 m1]|]; [|done]. cbv zeta.
  intros [= <- <- <-] Hentry. by rewrite getLocalXTrefContent_lookup, Hentry.
Qed.

Lemma processLine_unresolved xtrefs written line match0 spec term :
  markerOf line = Some (match0, spec, term) →
  lookupEntry xtrefs spec term = None →
  processLine (Some xtrefs) written line = thrown.
Proof.
  unfold markerOf, processLine. destruct (startsWith _ line); [|done].
  destruct (matchTref line) as [[m0 m1]|]; [|done]. cbv zeta.
  intros [= <- <- <-] Hentry. by rewrite getLocalXTrefContent_lookup, Hentry.
Qed.

Lemma processLines_others index written lines :
  (∀ line, line ∈ lines → markerOf line = None) →
  processLines index written lines = (written, false).
Proof.
  induction lines as [|line lines IH]; intros Hnone; [done|]. simpl.
  rewrite processLine_other by (apply Hnone; left).
  apply IH. intros l Hl. apply Hnone. by right.
Qed.

Lemma processLines_app_returned index written written' pre rest :
  processLines index written pre = (written', false) →
  processLines index written (pre ++ rest) = processLines index written' rest.
Proof.
  revert written. induction pre as [|line pre IH]; intros written; simpl.
  - by intros [= ->].
  - destruct (processLine index written line); [apply IH|done].
Qed.

(** Lines whose markers all resolve leave no error, and leave the file as
    it was or as one of them wrote it. *)
Lemma processLines_resolving xtrefs written lines :
  (∀ line match0 spec term, line ∈ lines → markerOf line = Some (match0, spec, term) →
     is_Some (lookupEntry xtrefs spec term)) →
  ∃ written', processLines (Some xtrefs) written lines = (written', false).
Proof.
  revert written. induction lines as [|line lines IH]; intros written Hres;
    [by eexists|]. simpl.
  assert (∀ l m s t, l ∈ lines → markerOf l = Some (m, s, t) →
            is_Some (lookupEntry xtrefs s t)) as Hrest
    by (intros l m s t Hl; apply Hres; by right).
  destruct (markerOf line) as [[[m0 spec] term]|] eqn:Hmarker.
  - destruct (Hres line m0 spec term) as [entry Hentry]; [left|done|].
    rewrite (processLine_found _ _ _ _ _ _ _ Hmarker Hentry). by apply IH.
  - rewrite processLine_other by done. by apply IH.
Qed.

Lemma startsWith_app prefix s :
  startsWith prefix s = true → s = prefix ++ drop (length prefix) s.
Proof.
  revert s. induction prefix as [|p prefix IH]; intros [|c s]; simpl; try done.
  intros [->%bool_decide_eq_true Hrest]%andb_true_iff. f_equal. by apply IH.
Qed.

Lemma lazyUntil_app close s captured after :
  lazyUntil close s = Some (captured, after) → s = captured ++ close ++ after.
Proof.
  revert captured. induction s as [|c s IH]; intros captured; simpl.
  - destruct (startsWith close []) eqn:Hstart; [|done].
    intros [= <- <-]. by apply startsWith_app in Hstart.
  - destruct (startsWith close (c :: s)) eqn:Hstart.
    + intros [= <- <-]. by apply startsWith_app in Hstart.
    + destruct (isLineTerminator c); [done|].
      destruct (lazyUntil close s) as [[cap aft]|]; [|done].
      intros [= <- <-]. simpl. f_equal. by apply IH.
Qed.

Lemma matchAt_app opening close s captured :
  matchAt opening close s = Some captured →
  ∃ after, s = opening ++ captured ++ close ++ after.
Proof.
  unfold matchAt. destruct (startsWith opening s) eqn:Hstart; [|done].
  destruct (lazyUntil close _) as [[cap after]|] eqn:Hlazy; [|done].
  intros [= <-]. exists after. apply lazyUntil_app in Hlazy.
  apply startsWith_app in Hstart. by rewrite Hstart at 1; rewrite Hlazy.
Qed.

Lemma removeDefParts_skip dropped rest :
  removeDefParts (length dropped) (dropped ++ rest) = removeDefParts 0 rest.
Proof. induction dropped as [|c dropped IH]; [by destruct rest|done]. Qed.

(** A marker at which the scan stands is dropped whole; any other
    character is kept. *)
Lemma removeDefParts_marker content captured :
  matchAt (js "[[def: ") (js "]]:") content = Some captured →
  ∃ after, content = js "[[def: " ++ captured ++ js "]]:" ++ after
    ∧ removeDefParts 0 content = removeDefParts 0 after.
Proof.
  intros Hmatch. destruct (matchAt_app _ _ _ _ Hmatch) as (after & Hcontent).
  exists after. split; [done|]. destruct content as [|c content]; [done|].
  cbn [removeDefParts]. rewrite Hmatch.
  injection Hcontent as -> ->.
  rewrite <- (removeDefParts_skip (js "[def: " ++ captured ++ js "]]:") after).
  rewrite <- !app_assoc. f_equal. rewrite !length_app. simpl. lia.
Qed.

Lemma removeDefParts_other c content :
  matchAt (js "[[def: ") (js "]]:") (c :: content) = None →
  removeDefParts 0 (c :: content) = c :: removeDefParts 0 content.
Proof. intros Hmatch. cbn [removeDefParts]. by rewrite Hmatch. Qed.

Lemma prepareTref_app index before after :
  prepareTref index (before ++ after)
  = ((prepareTref index before).1 ++ (prepareTref index after).1,
     (prepareTref index before).2 ++ (prepareTref index after).2).
Proof.
  unfold prepareTref. simpl.
  by rewrite map_app, !fmap_app, concat_app.
Qed.

Lemma lookupEntry_pair xtrefs spec term entry :
  lookupEntry xtrefs spec term = Some entry →
  entry ∈ xtrefs ∧ XTref.externalSpec entry = spec ∧ Some (XTref.term entry) = term.
Proof.
  unfold lookupEntry. intros [Hin Hpair]%List.find_some.
  apply andb_true_iff in Hpair as [?%bool_decide_eq_true ?%bool_decide_eq_true].
  by rewrite list_elem_of_In.
Qed.

(** C9, as amended.  A markdown file in which every line that begins with
    a transclusion marker names a pair with an index entry is rewritten to
    the marker of the last such line, the regenerated-content notice, the
    commit hash and the content of the first entry for that exact pair, from
    which the scan has dropped each [[[def: ...]]:] marker it met and kept
    every other character; no error is logged. *)
Theorem prepareTref_transcludes (xtrefs : list XTref.t) (name data : jsstring)
    (pre post : list jsstring) (line match0 spec : jsstring) (term : option jsstring)
    (entry : XTref.t) :
  extname name = js ".md" →
  splitOn 10%N data = pre ++ line :: post →
  (∀ l m s t, l ∈ pre → markerOf l = Some (m, s, t) →
     is_Some (lookupEntry xtrefs s t)) →
  markerOf line = Some (match0, spec, term) →
  lookupEntry xtrefs spec term = Some entry →
  (∀ l, l ∈ post → markerOf l = None) →
  processItem (Some xtrefs) (File name data)
  = (File name (transclusion match0 (XTref.commitHash entry)
                  (removeDefParts 0 (XTref.content entry))), [])
  ∧ (XTref.externalSpec entry = spec ∧ Some (XTref.term entry) = term)
  ∧ (∀ content captured,
       matchAt (js "[[def: ") (js "]]:") content = Some captured →
       ∃ after, content = js "[[def: " ++ captured ++ js "]]:" ++ after
         ∧ removeDefParts 0 content = removeDefParts 0 after)
  ∧ (∀ c content,
       matchAt (js "[[def: ") (js "]]:") (c :: content) = None →
       removeDefParts 0 (c :: content) = c :: removeDefParts 0 content).
Proof.
  intros Hext Hlines Hpre Hmarker Hentry Hpost.
  split; [|split; [by apply lookupEntry_pair in Hentry as (_ & ? & ?)|]].
  - cbn [processItem]. rewrite bool_decide_true by done.
    unfold processFile. rewrite Hlines.
    destruct (processLines_resolving xtrefs data pre) as [written Hwritten]; [done|].
    rewrite (processLines_app_returned _ _ _ _ _ Hwritten). cbn [processLines].
    rewrite (processLine_found _ _ _ _ _ _ _ Hmarker Hentry).
    by rewrite processLines_others.
  - split; [apply removeDefParts_marker | apply removeDefParts_other].
Qed.

(** C10, as amended.  A markdown file whose first line that begins with a
    transclusion marker names a pair without an index entry is left as it
    was and is logged once, and the entries of the directory around it are
    processed as they are without it. *)
Theorem prepareTref_unresolved (xtrefs : list XTref.t) (name data : jsstring)
    (pre post : list jsstring) (line match0 spec : jsstring) (term : option jsstring)
    (before after : list item) :
  extname name = js ".md" →
  splitOn 10%N data = pre ++ line :: post →
  (∀ l, l ∈ pre → markerOf l = None) →
  markerOf line = Some (match0, spec, term) →
  lookupEntry xtrefs spec term = None →
  processItem (Some xtrefs) (File name data) = (File name data, [name])
  ∧ prepareTref (Some xtrefs) (before ++ File name data :: after)
    = ((prepareTref (Some xtrefs) before).1 ++ File name data
         :: (prepareTref (Some xtrefs) after).1,
       (prepareTref (Some xtrefs) before).2 ++ name
         :: (prepareTref (Some xtrefs) after).2).
Proof.
  intros Hext Hlines Hpre Hmarker Hentry.
  assert (processItem (Some xtrefs) (File name data) = (File name data, [name]))
    as Hfile.
  { cbn [processItem]. rewrite bool_decide_true by done.
    unfold processFile. rewrite Hlines.
    rewrite (processLines_app_returned _ _ data) by (by apply processLines_others).
    cbn [processLines].
    by rewrite (processLine_unresolved _ _ _ _ _ _ Hmarker Hentry). }
  split; [done|].
  rewrite prepareTref_app. f_equal.
  - f_equal. unfold prepareTref. cbn [map fst fmap list_fmap]. by rewrite Hfile.
  - f_equal. unfold prepareTref. cbn [map snd fmap list_fmap concat]. by rewrite Hfile.
Qed.

(** ** The fetcher and its cache *)

Lemma fetchLive_cases ghPageUrl w :
  ((fetchLive ghPageUrl w).1 = None
   ∧ fetchCache (fetchLive ghPageUrl w).2 = fetchCache w)
  ∨ (∃ response html,
       (network ghPageUrl (clock w)).1 = resolved response
       ∧ ok response = true ∧ text response = Some html
       ∧ (fetchLive ghPageUrl w).1 = Some (extractTermsFromHtml html)
       ∧ fetchCache (fetchLive ghPageUrl w).2 =
           <[ghPageUrl := {| timestamp := (network ghPageUrl (clock w)).2;
                             data := extractTermsFromHtml html |}]> (fetchCache w)).
Proof.
  unfold fetchLive. destruct (network ghPageUrl (clock w)) as [[|response] settled];
    [by left|].
  destruct (ok response) eqn:Hok; [|by left]. simpl.
  destruct (text response) as [html|] eqn:Htext; [|by left].
  right. by exists response, html.
Qed.

Lemma fetchLive_requests ghPageUrl w :
  requests (fetchLive ghPageUrl w).2 = requests w ++ [ghPageUrl].
Proof.
  unfold fetchLive. destruct (network ghPageUrl (clock w)) as [[|response] settled];
    [done|].
  destruct (ok response); [|done]. simpl. by destruct (text response).
Qed.

Lemma fetchExternalSpec_miss cfg ghPageUrl w :
  cacheMiss cfg ghPageUrl w →
  fetchExternalSpec cfg ghPageUrl w = fetchLive ghPageUrl w.
Proof.
  unfold cacheMiss, fetchExternalSpec. destruct (fetchCache w !! ghPageUrl); [|done].
  intros Hmiss. by rewrite decide_False by lia.
Qed.

Lemma fetchExternalSpec_cache cfg ghPageUrl w :
  fetchCache (fetchExternalSpec cfg ghPageUrl w).2 = fetchCache w
  ∨ ∃ html settled,
      (fetchExternalSpec cfg ghPageUrl w).1 = Some (extractTermsFromHtml html)
      ∧ fetchCache (fetchExternalSpec cfg ghPageUrl w).2 =
          <[ghPageUrl := {| timestamp := settled; data := extractTermsFromHtml html |}]>
            (fetchCache w).
Proof.
  assert (fetchCache (fetchLive ghPageUrl w).2 = fetchCache w
    ∨ ∃ html settled,
        (fetchLive ghPageUrl w).1 = Some (extractTermsFromHtml html)
        ∧ fetchCache (fetchLive ghPageUrl w).2 =
            <[ghPageUrl := {| timestamp := settled; data := extractTermsFromHtml html |}]>
              (fetchCache w)) as Hlive.
  { destruct (fetchLive_cases ghPageUrl w) as [[_ ?]|(r & html & _ & _ & _ & ? & ?)];
      [by left|right; eauto]. }
  unfold fetchExternalSpec. destruct (fetchCache w !! ghPageUrl); [|done].
  case_decide; [by left|done].
Qed.

Lemma reachable_cacheHoldsParsedPages cfg w :
  reachable cfg w → cacheHoldsParsedPages (fetchCache w).
Proof.
  induction 1 as [w Hempty|w now _ IH|w ghPageUrl _ IH].
  - intros url entry. by rewrite Hempty, lookup_empty.
  - done.
  - destruct (fetchExternalSpec_cache cfg ghPageUrl w) as [->|(html & t & _ & ->)];
      [done|].
    intros url entry. rewrite lookup_insert. case_decide.
    + intros [= <-]. by exists html.
    + apply IH.
Qed.

(** C3.  When [fetchExternalSpec] goes to the network (no cache entry, or
    one at least as old as the timeout) and the request is rejected, the
    status of the response is not 2xx, or reading its body fails, the result
    is [null] and the cache is as before.  In any call the cache is either
    unchanged or gains, under the requested URL, the terms extracted from
    the page that a successful fetch returned; so every entry a page load
    ever holds maps to the terms extracted from some page. *)
Theorem fetchExternalSpec_failure cfg ghPageUrl w :
  (cacheMiss cfg ghPageUrl w →
   (network ghPageUrl (clock w)).1 = rejected
   ∨ (∃ response, (network ghPageUrl (clock w)).1 = resolved response
        ∧ (¬ (200 ≤ status response ≤ 299) ∨ text response = None)) →
   (fetchExternalSpec cfg ghPageUrl w).1 = None
   ∧ fetchCache (fetchExternalSpec cfg ghPageUrl w).2 = fetchCache w)
  ∧ (fetchCache (fetchExternalSpec cfg ghPageUrl w).2 = fetchCache w
     ∨ ∃ response html,
         (network ghPageUrl (clock w)).1 = resolved response
         ∧ 200 ≤ status response ≤ 299 ∧ text response = Some html
         ∧ (fetchExternalSpec cfg ghPageUrl w).1 = Some (extractTermsFromHtml html)
         ∧ fetchCache (fetchExternalSpec cfg ghPageUrl w).2 =
             <[ghPageUrl := {| timestamp := (network ghPageUrl (clock w)).2;
                               data := extractTermsFromHtml html |}]> (fetchCache w))
  ∧ (reachable cfg w →
     cacheHoldsParsedPages (fetchCache (fetchExternalSpec cfg ghPageUrl w).2)).
Proof.
  assert (fetchCache (fetchLive ghPageUrl w).2 = fetchCache w
     ∨ ∃ response html,
         (network ghPageUrl (clock w)).1 = resolved response
         ∧ 200 ≤ status response ≤ 299 ∧ text response = Some html
         ∧ (fetchLive ghPageUrl w).1 = Some (extractTermsFromHtml html)
         ∧ fetchCache (fetchLive ghPageUrl w).2 =
             <[ghPageUrl := {| timestamp := (network ghPageUrl (clock w)).2;
                               data := extractTermsFromHtml html |}]> (fetchCache w))
    as Hlive.
  { destruct (fetchLive_cases ghPageUrl w)
      as [[_ ?]|(response & html & ? & Hok%bool_decide_eq_true & ?)]; [by left|].
    right. by exists response, html. }
  split; [|split].
  - intros Hmiss Hfail. rewrite fetchExternalSpec_miss by done.
    destruct (fetchLive_cases ghPageUrl w)
      as [?|(response & html & Hnet & Hok%bool_decide_eq_true & Htext & _)]; [done|].
    destruct Hfail as [Hrej|(response' & Hnet' & Hbad)]; [congruence|].
    assert (response' = response) as -> by congruence.
    destruct Hbad; [done|congruence].
  - unfold fetchExternalSpec. destruct (fetchCache w !! ghPageUrl) as [cached|];
      [|done].
    case_decide; [by left|done].
  - intros Hreach.
    apply (reachable_cacheHoldsParsedPages cfg), reachable_fetch, Hreach.
Qed.

(** C4.  When the cache holds an entry for the URL that is younger than
    the timeout, [fetchExternalSpec] returns the terms of that entry and
    leaves the state as it was: no request is sent and no cache entry
    changes. *)
Theorem fetchExternalSpec_cache_hit cfg ghPageUrl w cached :
  fetchCache w !! ghPageUrl = Some cached →
  (clock w - timestamp cached < cacheTimeout cfg)%Z →
  (fetchExternalSpec cfg ghPageUrl w).1 = Some (data cached)
  ∧ requests (fetchExternalSpec cfg ghPageUrl w).2 = requests w
  ∧ fetchCache (fetchExternalSpec cfg ghPageUrl w).2 = fetchCache w
  ∧ (fetchExternalSpec cfg ghPageUrl w).2 = w.
Proof.
  intros Hcached Hfresh. unfold fetchExternalSpec.
  rewrite Hcached. by rewrite decide_True.
Qed.

(** ** The diff extractor *)

Lemma splitOn_cons sep s : ∃ piece pieces, splitOn sep s = piece :: pieces.
Proof.
  destruct s as [|c rest]; simpl; [by eauto|].
  case_bool_decide; [by eauto|]. destruct (splitOn sep rest); by eauto.
Qed.

Lemma splitLines_splitOn line s :
  List.filter (λ l, truthy (trim l)) (splitLines line s)
  = List.filter (λ l, truthy (trim l))
      (match splitOn 10%N s with
       | piece :: pieces => (line ++ piece) :: pieces
       | [] => [line]
       end).
Proof.
  revert line. induction s as [|c rest IH]; intros line; simpl.
  { by rewrite app_nil_r. }
  case_bool_decide as Hc.
  - rewrite app_nil_r. destruct rest as [|c' rest']; [done|].
    case_bool_decide as Hc'.
    + rewrite IH. simpl. rewrite bool_decide_true by done.
      by rewrite app_nil_r.
    + cbn [List.filter]. f_equal. rewrite (IH []).
      by destruct (splitOn_cons 10%N (c' :: rest')) as (p & ps & ->).
  - rewrite IH. destruct (splitOn_cons 10%N rest) as (p & ps & ->).
    by rewrite <- app_assoc.
Qed.

(** Splitting on runs of newlines and dropping blank lines gives the
    non-blank lines of the text. *)
Lemma nonBlankLines_lines text : nonBlankLines text = nonBlankLines_spec text.
Proof.
  unfold nonBlankLines, nonBlankLines_spec. rewrite splitLines_splitOn.
  by destruct (splitOn_cons 10%N text) as (p & ps & ->).
Qed.

Lemma filter_not_includes (lines others : list jsstring) :
  List.filter (λ line, negb (includes others line)) lines
  = List.filter (λ line, bool_decide (line ∉ others)) lines.
Proof.
  apply List.filter_ext. intros line. unfold includes.
  by repeat case_bool_decide.
Qed.

Lemma elem_of_filter_not_in (lines others : list jsstring) line :
  line ∈ List.filter (λ line, bool_decide (line ∉ others)) lines
  ↔ line ∈ lines ∧ line ∉ others.
Proof.
  rewrite !list_elem_of_In, List.filter_In, bool_decide_eq_true.
  by rewrite !list_elem_of_In.
Qed.

(** C6.  [findTextDifferences(t1, t2)] takes the non-blank lines of each
    text; [oldUnique] joins with newlines the lines of [t1] that do not
    occur among the lines of [t2], [newUnique] those of [t2] that do not
    occur among the lines of [t1], [hasDifferences] holds exactly when one
    of the two selections is not empty, and an empty selection is written
    as [(no removed content)], respectively [(no added content)]. *)
Theorem findTextDifferences_spec (text1 text2 : jsstring) :
  let lines1 := nonBlankLines_spec text1 in
  let lines2 := nonBlankLines_spec text2 in
  let removed := List.filter (λ line, bool_decide (line ∉ lines2)) lines1 in
  let added := List.filter (λ line, bool_decide (line ∉ lines1)) lines2 in
  let diff := findTextDifferences text1 text2 in
  nonBlankLines text1 = lines1 ∧ nonBlankLines text2 = lines2
  ∧ (∀ line, line ∈ removed ↔ line ∈ lines1 ∧ line ∉ lines2)
  ∧ (∀ line, line ∈ added ↔ line ∈ lines2 ∧ line ∉ lines1)
  ∧ oldUnique diff =
      (if decide (removed = []) then js "(no removed content)"
       else join [10%N] removed)
  ∧ newUnique diff =
      (if decide (added = []) then js "(no added content)"
       else join [10%N] added)
  ∧ (hasDifferences diff = true ↔ removed ≠ [] ∨ added ≠ []).
Proof.
  intros lines1 lines2 removed added diff.
  split; [apply nonBlankLines_lines|]. split; [apply nonBlankLines_lines|].
  split; [intros line; apply elem_of_filter_not_in|].
  split; [intros line; apply elem_of_filter_not_in|].
  subst diff. unfold findTextDifferences. cbv zeta.
  rewrite !filter_not_includes, !nonBlankLines_lines.
  fold lines1 lines2. fold removed added. cbn [oldUnique newUnique hasDifferences].
  split; [|split].
  - destruct removed; [done|]. rewrite decide_True by (simpl; lia).
    by rewrite decide_False.
  - destruct added; [done|]. rewrite decide_True by (simpl; lia).
    by rewrite decide_False.
  - rewrite orb_true_iff, !bool_decide_eq_true.
    destruct removed, added; simpl; split; intros [?|?]; (done || lia || auto with lia).
Qed.

(** ** Term extraction *)

Lemma node_ind' (P : node → Prop) :
  (∀ data, P (Text data)) →
  (∀ tag i cls attrs cs, Forall P cs → P (Element tag i cls attrs cs)) →
  ∀ n, P n.
Proof.
  intros Htext Helem. fix IH 1. intros [data|tag i cls attrs cs]; [apply Htext|].
  apply Helem. induction cs as [|c cs IHcs]; constructor; [apply IH|apply IHcs].
Qed.

Lemma termElementsOf_no_dt n inList :
  querySelector (hasTag "dt") n = None → termElementsOf inList n = [].
Proof.
  revert inList. induction n as [data|tag i cls attrs cs IH] using node_ind';
    intros inList; [done|].
  simpl. generalize (inList || bool_decide (tag = "dl")
                     && bool_decide ("terms-and-definitions-list" ∈ cls)).
  intros inside. induction IH as [|c rest Hc _ IHrest]; [done|].
  destruct (hasTag "dt" c) eqn:Hdt; [done|].
  destruct (querySelector (hasTag "dt") c) eqn:Hq; [done|].
  intros Hrest. rewrite andb_false_r, (Hc inside), (IHrest Hrest) by done. done.
Qed.

Lemma foldl_setTerm_entries l m :
  foldl setTerm m l
  = foldl (λ terms kv, <[kv.1 := kv.2]> terms) m (omap (λ dt, termEntry dt.1 dt.2) l).
Proof.
  revert m. induction l as [|dt l IH]; intros m; [done|]. simpl.
  unfold setTerm at 2. destruct (termEntry dt.1 dt.2) as [[key entry]|]; simpl;
    by rewrite IH.
Qed.

Lemma foldl_insert_cases {V : Type} (kvs : list (jsstring * V)) (m : gmap jsstring V) k v :
  foldl (λ terms kv, <[kv.1 := kv.2]> terms) m kvs !! k = Some v →
  m !! k = Some v ∨ (k, v) ∈ kvs.
Proof.
  revert m. induction kvs as [|[k' v'] kvs IH]; intros m; simpl; [by left|].
  intros [Hm|Hin]%IH; [|right; by right].
  revert Hm. rewrite lookup_insert. case_decide; simplify_eq/=.
  - intros [= <-]. right. left.
  - by left.
Qed.

Lemma foldl_insert_size {V : Type} (kvs : list (jsstring * V)) (m : gmap jsstring V) :
  NoDup (kvs.*1) → (∀ k, k ∈ kvs.*1 → m !! k = None) →
  size (foldl (λ terms kv, <[kv.1 := kv.2]> terms) m kvs) = size m + length kvs.
Proof.
  revert m. induction kvs as [|[k v] kvs IH]; intros m Hnodup Hfresh; simpl; [lia|].
  apply NoDup_cons in Hnodup as [Hk Hnodup]. rewrite IH; [|done|].
  - rewrite map_size_insert_None; [lia|]. apply Hfresh. simpl. left.
  - intros k' Hk'. rewrite lookup_insert_ne; [|by intros ->].
    apply Hfresh. simpl. by right.
Qed.

Lemma termEntry_key dt following key entry :
  termEntry dt following = Some (key, entry) →
  key = toLowerCase (List.last (splitOn 58%N (LiveTerm.termId entry)) []).
Proof.
  unfold termEntry. destruct (querySelector termIdSelector dt); [|done].
  by intros [= <- <-].
Qed.

Lemma collectDd_meta pre meta post :
  hasTag "dd" meta = true → hasClass "meta-info-content-wrapper" meta = true →
  collectDd (pre ++ meta :: post) = collectDd (pre ++ post).
Proof.
  intros Htag Hcls. induction pre as [|[data|tag i cls attrs cs] pre IH].
  - destruct meta; [done|]. simpl in *. by rewrite Htag, Hcls.
  - done.
  - simpl. case_bool_decide; [|done]. by rewrite IH.
Qed.

Lemma termEntry_meta dt pre meta post :
  hasTag "dd" meta = true → hasClass "meta-info-content-wrapper" meta = true →
  termEntry dt (pre ++ meta :: post) = termEntry dt (pre ++ post).
Proof. intros Htag Hcls. unfold termEntry. by rewrite collectDd_meta. Qed.

Lemma extractTermsFromHtml_entries html :
  extractTermsFromHtml html
  = foldl (λ terms kv, <[kv.1 := kv.2]> terms) ∅ (termEntries (parseDocument html)).
Proof. unfold extractTermsFromHtml, termEntries. apply foldl_setTerm_entries. Qed.

(** C5, as amended.  No [dt] element in the document gives the empty map;
    when the term entries of the document (the term elements that hold a
    term id) have pairwise different keys, the map has one entry for each;
    every key is the lower-cased last colon-delimited segment of the term
    id of its entry; and a [dd] sibling with the meta-info wrapper class
    changes nothing in what a term element contributes, wherever it stands
    among the siblings. *)
Theorem extractTermsFromHtml_spec (html : jsstring) :
  let doc := parseDocument html in
  let entries := termEntries doc in
  (querySelector (hasTag "dt") (Element "#document" [] [] [] doc) = None →
   extractTermsFromHtml html = ∅)
  ∧ (NoDup (entries.*1) → size (extractTermsFromHtml html) = length entries)
  ∧ (∀ key entry, extractTermsFromHtml html !! key = Some entry →
       key = toLowerCase (List.last (splitOn 58%N (LiveTerm.termId entry)) []))
  ∧ (∀ dt pre meta post,
       hasTag "dd" meta = true → hasClass "meta-info-content-wrapper" meta = true →
       termEntry dt (pre ++ meta :: post) = termEntry dt (pre ++ post)).
Proof.
  intros doc entries. split; [|split; [|split]].
  - intros Hnone. unfold extractTermsFromHtml, termElements. fold doc.
    by rewrite termElementsOf_no_dt.
  - intros Hnodup. rewrite extractTermsFromHtml_entries. fold doc entries.
    rewrite foldl_insert_size; [by rewrite map_size_empty| done |].
    intros k _. apply lookup_empty.
  - intros key entry. rewrite extractTermsFromHtml_entries.
    intros [Hempty|Hin]%foldl_insert_cases; [by rewrite lookup_empty in Hempty|].
    apply list_elem_of_omap in Hin as ([dt following] & _ & Hentry).
    by eapply termEntry_key.
  - apply termEntry_meta.
Qed.

(** ** Indicator insertion *)

Lemma querySelector_matches sel n found :
  querySelector sel n = Some found → sel found = true.
Proof.
  revert found. induction n as [data|tag i cls attrs cs IH] using node_ind';
    intros found; [done|].
  simpl. induction IH as [|c rest Hc _ IHrest]; [done|].
  destruct (sel c) eqn:Hsel; [by intros [= <-]|].
  destruct (querySelector sel c) eqn:Hq; [|done].
  intros [= <-]. by apply Hc.
Qed.

Lemma querySelector_replaceFirst sel new n found :
  shallow sel → sel new = true →
  querySelector sel n = Some found →
  querySelector sel (replaceFirst sel new n) = Some new.
Proof.
  intros Hshallow Hnew. revert found.
  induction n as [data|tag i cls attrs cs IH] using node_ind'; intros found; [done|].
  simpl. induction IH as [|c rest Hc _ IHrest]; [done|].
  destruct (sel c) eqn:Hsel; [by rewrite Hnew|].
  destruct (querySelector sel c) as [found'|] eqn:Hq.
  - intros _. specialize (Hc _ eq_refl).
    assert (sel (replaceFirst sel new c) = false) as ->.
    { destruct c; [done|]. simpl. by rewrite <- Hsel. }
    by rewrite Hc.
  - intros Hrest. by rewrite Hsel, Hq, IHrest.
Qed.

Lemma termExternalSpan_shallow : shallow termExternalSpan.
Proof. done. Qed.

Lemma querySelector_appendChild sel n child :
  isElement n = true → sel child = true →
  is_Some (querySelector sel (appendChild n child)).
Proof.
  intros Helem Hsel. destruct n as [|tag i cls attrs cs]; [done|]. simpl.
  induction cs as [|c cs IH]; simpl; [rewrite Hsel; by eauto|].
  destruct (sel c); [by eauto|]. destruct (querySelector sel c); by eauto.
Qed.



Lemma insertIndicatorAfterElement_twice following indicator indicator' :
  hasClass indicatorClass indicator = true →
  insertIndicatorAfterElement (insertIndicatorAfterElement following indicator) indicator'
  = insertIndicatorAfterElement following indicator.
Proof.
  intros Hcls. unfold insertIndicatorAfterElement at 2 3.
  assert (insertIndicatorAfterElement (indicator :: following) indicator'
          = indicator :: following) as Hinserted.
  { unfold insertIndicatorAfterElement. destruct indicator; [done|].
    cbn [nextElementSibling]. by rewrite Hcls. }
  destruct (nextElementSibling following) as [next|] eqn:Hnext; [|done].
  destruct (hasClass indicatorClass next) eqn:Hnextcls; [|done].
  unfold insertIndicatorAfterElement. by rewrite Hnext, Hnextcls.
Qed.

Lemma insertIndicatorIntoTref_twice dtElement indicator indicator' :
  hasClass indicatorClass indicator = true →
  insertIndicatorIntoTref (insertIndicatorIntoTref dtElement indicator) indicator'
  = insertIndicatorIntoTref dtElement indicator.
Proof.
  intros Hcls. unfold insertIndicatorIntoTref at 2 3.
  destruct (querySelector termExternalSpan dtElement) as [termSpan|] eqn:Hspan.
  - destruct (querySelector indicatorSelector termSpan) eqn:Hind.
    + unfold insertIndicatorIntoTref. by rewrite Hspan, Hind.
    + unfold insertIndicatorIntoTref.
      pose proof (querySelector_matches _ _ _ Hspan) as Hsel.
      assert (isElement termSpan = true) as Helem by (by destruct termSpan).
      rewrite (querySelector_replaceFirst _ _ _ termSpan termExternalSpan_shallow);
        [| by destruct termSpan | done].
      by destruct (querySelector_appendChild indicatorSelector termSpan indicator)
        as [? ->].
  - unfold insertIndicatorIntoTref. by rewrite Hspan.
Qed.


(** ** The normalizer *)

Lemma normalizeContent_text html :
  normalizeContent html = normalizeText (plainText html).
Proof. unfold normalizeContent, plainText. by destruct (truthy html). Qed.

Lemma collapseWhiteSpace_cons c t :
  collapseWhiteSpace (c :: t) =
    if isWhiteSpace c then
      match t with
      | c' :: _ => if isWhiteSpace c' then collapseWhiteSpace t
                   else 32%N :: collapseWhiteSpace t
      | [] => [32%N]
      end
    else c :: collapseWhiteSpace t.
Proof. done. Qed.

Lemma dropWhile_cons {A : Type} (p : A → bool) c t :
  dropWhile p (c :: t) = if p c then dropWhile p t else c :: t.
Proof. done. Qed.

Lemma collapseWhiteSpace_other c t :
  isWhiteSpace c = false →
  collapseWhiteSpace (c :: t) = c :: collapseWhiteSpace t.
Proof. intros Hc. simpl. by rewrite Hc. Qed.

Lemma collapseWhiteSpace_space c t :
  isWhiteSpace c = true →
  collapseWhiteSpace (c :: t) = 32%N :: collapseWhiteSpace (dropWhile isWhiteSpace t).
Proof.
  revert c. induction t as [|c' t IH]; intros c Hc.
  - simpl. by rewrite Hc.
  - rewrite collapseWhiteSpace_cons, Hc, dropWhile_cons.
    destruct (isWhiteSpace c') eqn:Hc'; [|done]. by apply IH.
Qed.

Lemma dropWhile_app_all {A : Type} (p : A → bool) run t :
  forallb p run = true → dropWhile p (run ++ t) = dropWhile p t.
Proof.
  induction run as [|c run IH]; [done|]. simpl.
  intros [-> Hrun]%andb_true_iff. by apply IH.
Qed.

Lemma collapseWhiteSpace_run run t :
  run ≠ [] → forallb isWhiteSpace run = true →
  collapseWhiteSpace (run ++ t) = 32%N :: collapseWhiteSpace (dropWhile isWhiteSpace t).
Proof.
  destruct run as [|c run]; [done|]. intros _ [Hc Hrun]%andb_true_iff.
  simpl app. rewrite collapseWhiteSpace_space by done.
  by rewrite dropWhile_app_all.
Qed.

Lemma collapseWhiteSpace_head c t :
  collapseWhiteSpace (c :: t) =
    if isWhiteSpace c then 32%N :: collapseWhiteSpace (dropWhile isWhiteSpace t)
    else c :: collapseWhiteSpace t.
Proof.
  destruct (isWhiteSpace c) eqn:Hc.
  - by apply collapseWhiteSpace_space.
  - by apply collapseWhiteSpace_other.
Qed.


Section LowerCase.
Hypothesis lower_whiteSpace : ∀ c, isWhiteSpace (lowerUnit c) = isWhiteSpace c.
Hypothesis lower_zeroWidth : ∀ c, isZeroWidth (lowerUnit c) = isZeroWidth c.

Lemma visible_lower_run run :
  forallb isWhiteSpace run = true →
  forallb isWhiteSpace
    (List.filter (λ c, negb (isZeroWidth c)) (toLowerCase run)) = true
  ∧ (List.filter (λ c, negb (isZeroWidth c)) (toLowerCase run) = []
     ↔ existsb (λ c, negb (isZeroWidth c)) run = false).
Proof.
  induction run as [|c run IH]; [done|]. simpl.
  intros [Hc Hrun]%andb_true_iff. destruct (IH Hrun) as [IH1 IH2].
  rewrite lower_zeroWidth. destruct (isZeroWidth c); simpl; [done|].
  rewrite lower_whiteSpace, Hc, IH1. done.
Qed.




End LowerCase.

(** ** Classification *)

Lemma collectExternalSpecs_fold specs xtrefs url :
  url ∈ specs.*1
  ∨ (∃ x, x ∈ xtrefs ∧ XTref.ghPageUrl x = url ∧ truthy url = true) →
  url ∈ (foldl addSpec specs xtrefs).*1.
Proof.
  revert specs. induction xtrefs as [|x xtrefs IH]; intros specs; simpl.
  - intros [?|(? & Hnil & _)]; [done|by apply elem_of_nil in Hnil].
  - intros Hurl. apply IH. unfold addSpec.
    destruct Hurl as [Hin|(y & Hy & Hurl & Htruthy)].
    + left. destruct (_ && _); [|done]. rewrite fmap_app.
      apply elem_of_app. by left.
    + apply elem_of_cons in Hy as [->|Hy]; [|right; by eauto].
      left. rewrite Hurl, Htruthy. simpl. case_bool_decide; simpl; [done|].
      rewrite fmap_app. apply elem_of_app. right. simpl. left.
Qed.

Lemma collectExternalSpecs_urls xtrefs x :
  x ∈ xtrefs → XTref.ghPageUrl x ≠ [] →
  XTref.ghPageUrl x ∈ (collectExternalSpecs (Some xtrefs)).*1.
Proof.
  intros Hx Hurl. apply (collectExternalSpecs_fold [] xtrefs). right.
  exists x. by rewrite truthy_nonempty.
Qed.

Lemma fetchAll_fold cfg specs acc :
  (foldl (fetchNext cfg) acc specs).1.*1 = acc.1.*1 ++ specs.*1.
Proof.
  revert acc. induction specs as [|spec specs IH]; intros acc; simpl.
  - by rewrite app_nil_r.
  - rewrite IH. unfold fetchNext.
    destruct (fetchExternalSpec cfg spec.1 acc.2) as [terms w'].
    simpl. by rewrite fmap_app, <- app_assoc.
Qed.

Lemma fetchAll_urls cfg specs w : (fetchAll cfg specs w).1.*1 = specs.*1.
Proof. unfold fetchAll. by rewrite fetchAll_fold. Qed.

Lemma liveDataOf_fold (results : list (jsstring * option (gmap jsstring LiveTerm.t)))
    (liveData : gmap jsstring (option (gmap jsstring LiveTerm.t))) url :
  is_Some (liveData !! url) ∨ url ∈ results.*1 →
  is_Some (foldl (λ liveData result, <[result.1 := result.2]> liveData)
             liveData results !! url).
Proof.
  revert liveData. induction results as [|[u terms] results IH]; intros liveData.
  - intros [?|Hnil]; [done|by apply elem_of_nil in Hnil].
  - simpl. intros Hurl. apply IH. destruct (decide (u = url)) as [->|Hne].
    + left. rewrite lookup_insert_eq. by eauto.
    + destruct Hurl as [?|Hin]; [left; by rewrite lookup_insert_ne|].
      apply elem_of_cons in Hin as [?|?]; [done|by right].
Qed.

(** Every URL of the index has a live mapping after the fetch phase. *)
Lemma liveData_fetched cfg xtrefs w x :
  x ∈ xtrefs → XTref.ghPageUrl x ≠ [] →
  ∃ liveTerms,
    liveDataOf (fetchAll cfg (collectExternalSpecs (Some xtrefs)) w).1
      !! XTref.ghPageUrl x = Some liveTerms
    ∧ (XTref.ghPageUrl x, liveTerms)
      ∈ (fetchAll cfg (collectExternalSpecs (Some xtrefs)) w).1.
Proof.
  intros Hx Hurl.
  destruct (liveDataOf_fold (fetchAll cfg (collectExternalSpecs (Some xtrefs)) w).1
              ∅ (XTref.ghPageUrl x)) as [liveTerms Hlive].
  { right. rewrite fetchAll_urls. by apply collectExternalSpecs_urls. }
  exists liveTerms. split; [done|].
  apply foldl_insert_cases in Hlive as [Hempty|?]; [|done].
  by rewrite lookup_empty in Hempty.
Qed.

Lemma lessThan_Qlt (q threshold : Q) :
  lessThan (Some q) threshold = if Qlt_le_dec q threshold then true else false.
Proof.
  unfold lessThan. destruct (Qlt_le_dec q threshold) as [Hlt|Hle].
  - apply negb_true_iff. destruct (Qle_bool threshold q) eqn:Hb; [|done].
    apply Qle_bool_iff in Hb. by apply Qle_not_lt in Hb.
  - apply negb_false_iff. by apply Qle_bool_iff.
Qed.

Lemma validateXref_classification cfg following liveData liveTerms x :
  XTref.ghPageUrl x ≠ [] →
  liveData !! XTref.ghPageUrl x = Some liveTerms →
  validateXref cfg following liveData (Some x)
  = match indicatorOf cfg (classification cfg liveTerms x) with
    | Some indicator => insertIndicatorAfterElement following indicator
    | None => following
    end.
Proof.
  intros Hurl%truthy_nonempty Hlive. unfold validateXref, classification.
  rewrite Hurl, Hlive. cbn [negb]. destruct liveTerms as [liveTerms|]; [|done].
  cbv zeta. destruct (liveTerms !! _) as [liveTerm|]; [|done].
  destruct (calculateSimilarity _ _) as [q|].
  - rewrite lessThan_Qlt. destruct (Qlt_le_dec q _); [done|].
    cbn [indicatorOf]. by destruct (showValidIndicators cfg).
  - cbn [lessThan indicatorOf]. by destruct (showValidIndicators cfg).
Qed.

Lemma validateTref_classification cfg element liveData liveTerms x :
  XTref.ghPageUrl x ≠ [] →
  liveData !! XTref.ghPageUrl x = Some liveTerms →
  validateTref cfg element liveData (Some x)
  = match indicatorOf cfg (classification cfg liveTerms x) with
    | Some indicator => insertIndicatorIntoTref element indicator
    | None => element
    end.
Proof.
  intros Hurl%truthy_nonempty Hlive. unfold validateTref, classification.
  rewrite Hurl, Hlive. cbn [negb]. destruct liveTerms as [liveTerms|]; [|done].
  cbv zeta. destruct (liveTerms !! _) as [liveTerm|]; [|done].
  destruct (calculateSimilarity _ _) as [q|].
  - rewrite lessThan_Qlt. destruct (Qlt_le_dec q _); [done|].
    cbn [indicatorOf]. by destruct (showValidIndicators cfg).
  - cbn [lessThan indicatorOf]. by destruct (showValidIndicators cfg).
Qed.

(** C1.  For an entry of the reference index with a non-empty [ghPageUrl],
    the fetch phase leaves a live mapping under that URL, and [validateXref]
    and [validateTref] insert the indicator of the specified outcome
    ([classification]): Error when the mapping is [null]; else Missing when
    it has no entry under the lower-cased term; else Changed, with the old
    and new plain text and the similarity percentage, when the similarity of
    the normalised cached content and live raw content is below the
    threshold; else Valid, which is rendered only when [showValidIndicators]
    is set.  The defaults are a threshold of 0.95 and no valid indicators. *)
Theorem validate_classification (cfg : Config) (following : list node)
    (element : node) (xtrefs : list XTref.t) (w : World) (x : XTref.t) :
  x ∈ xtrefs → XTref.ghPageUrl x ≠ [] →
  let liveData := liveDataOf (fetchAll cfg (collectExternalSpecs (Some xtrefs)) w).1 in
  (∃ liveTerms,
     liveData !! XTref.ghPageUrl x = Some liveTerms
     ∧ (XTref.ghPageUrl x, liveTerms)
       ∈ (fetchAll cfg (collectExternalSpecs (Some xtrefs)) w).1
     ∧ validateXref cfg following liveData (Some x)
       = match indicatorOf cfg (classification cfg liveTerms x) with
         | Some indicator => insertIndicatorAfterElement following indicator
         | None => following
         end
     ∧ validateTref cfg element liveData (Some x)
       = match indicatorOf cfg (classification cfg liveTerms x) with
         | Some indicator => insertIndicatorIntoTref element indicator
         | None => element
         end)
  ∧ (similarityThreshold VALIDATOR_CONFIG == 0.95)%Q
  ∧ showValidIndicators VALIDATOR_CONFIG = false.
Proof.
  intros Hx Hurl liveData. split; [|done].
  destruct (liveData_fetched cfg xtrefs w x Hx Hurl) as (liveTerms & Hlive & Hin).
  exists liveTerms. split; [done|]. split; [done|]. split.
  - by apply validateXref_classification.
  - by apply validateTref_classification.
Qed.

(** ** The distance as a metric *)

Lemma edits_refl a : edits a a 0.
Proof. induction a; by constructor. Qed.

Lemma edits_zero a b : edits a b 0 → a = b.
Proof.
  intros H. remember 0 as n eqn:Hn. induction H; try done. by rewrite IHedits.
Qed.

Lemma edits_sym a b n : edits a b n → edits b a n.
Proof. induction 1; by constructor. Qed.

Lemma lev_sym a b : lev a b = lev b a.
Proof. apply Nat.le_antisymm; apply lev_least, edits_sym, lev_edits. Qed.

(** Edit scripts compose: the first, then the second. *)
Lemma edits_trans a b n :
  edits a b n → ∀ c m, edits b c m → ∃ k, k ≤ n + m ∧ edits a c k.
Proof.
  induction 1 as [|x a b n H IH|x y a b n H IH|x a b n H IH|y a b n H IH];
    intros c m H2.
  - exists m. by split; [lia|].
  - remember (x :: b) as xb eqn:E. revert E.
    induction H2 as [|x' b' c' m' H2 _|x' z b' c' m' H2 _|x' b' c' m' H2 _
                    |z b' c' m' H2 IH2]; intros E; simplify_eq.
    + destruct (IH _ _ H2) as (k & ? & ?). exists k.
      split; [lia|by apply edits_keep].
    + destruct (IH _ _ H2) as (k & ? & ?). exists (S k).
      split; [lia|by apply edits_subst].
    + destruct (IH _ _ H2) as (k & ? & ?). exists (S k).
      split; [lia|by apply edits_delete].
    + destruct (IH2 eq_refl) as (k & ? & ?). exists (S k).
      split; [lia|by apply edits_insert].
  - remember (y :: b) as yb eqn:E. revert E.
    induction H2 as [|x' b' c' m' H2 _|x' z b' c' m' H2 _|x' b' c' m' H2 _
                    |z b' c' m' H2 IH2]; intros E; simplify_eq.
    + destruct (IH _ _ H2) as (k & ? & ?). exists (S k).
      split; [lia|by apply edits_subst].
    + destruct (IH _ _ H2) as (k & ? & ?). exists (S k).
      split; [lia|by apply edits_subst].
    + destruct (IH _ _ H2) as (k & ? & ?). exists (S k).
      split; [lia|by apply edits_delete].
    + destruct (IH2 eq_refl) as (k & ? & ?). exists (S k).
      split; [lia|by apply edits_insert].
  - destruct (IH _ _ H2) as (k & ? & ?). exists (S k).
    split; [lia|by apply edits_delete].
  - remember (y :: b) as yb eqn:E. revert E.
    induction H2 as [|x' b' c' m' H2 _|x' z b' c' m' H2 _|x' b' c' m' H2 _
                    |z b' c' m' H2 IH2]; intros E; simplify_eq.
    + destruct (IH _ _ H2) as (k & ? & ?). exists (S k).
      split; [lia|by apply edits_insert].
    + destruct (IH _ _ H2) as (k & ? & ?). exists (S k).
      split; [lia|by apply edits_insert].
    + destruct (IH _ _ H2) as (k & ? & ?). exists k. split; [lia|done].
    + destruct (IH2 eq_refl) as (k & ? & ?). exists (S k).
      split; [lia|by apply edits_insert].
Qed.

Lemma lev_triangle a b c : lev a c ≤ lev a b + lev b c.
Proof.
  destruct (edits_trans a b _ (lev_edits a b) c _ (lev_edits b c)) as (k & Hk & Hac).
  apply lev_least in Hac. lia.
Qed.

Lemma lev_zero a b : lev a b = 0 ↔ a = b.
Proof.
  split.
  - intros H. apply edits_zero. rewrite <- H. apply lev_edits.
  - intros ->. apply Nat.le_0_r, lev_least, edits_refl.
Qed.

(** X1.  [levenshteinDistance] is a metric on strings: it does not depend
    on the order of its arguments, it is 0 exactly for equal strings, and
    the distance from [a] to [c] is at most the distance from [a] to [b]
    plus the distance from [b] to [c]. *)
Theorem levenshteinDistance_metric (a b c : jsstring) :
  levenshteinDistance a b = levenshteinDistance b a
  ∧ (levenshteinDistance a b = Some 0 ↔ a = b)
  ∧ (∃ ab bc ac,
       levenshteinDistance a b = Some ab ∧ levenshteinDistance b c = Some bc
       ∧ levenshteinDistance a c = Some ac ∧ ac ≤ ab + bc).
Proof.
  rewrite !levenshteinDistance_recurrence. split; [|split].
  - by rewrite lev_sym.
  - rewrite <- lev_zero. split; [by intros [= ->]|by intros ->].
  - exists (lev a b), (lev b c), (lev a c). by auto using lev_triangle.
Qed.

(** X2.  [levenshteinDistance] always returns a number (no matrix slot is
    read before it is written), and the number is at least the difference
    of the two lengths and at most the greater length. *)
Theorem levenshteinDistance_bounds (a b : jsstring) :
  ∃ d, levenshteinDistance a b = Some d
    ∧ length a - length b ≤ d ∧ length b - length a ≤ d
    ∧ d ≤ Nat.max (length a) (length b).
Proof.
  exists (lev a b). split; [apply levenshteinDistance_recurrence|].
  pose proof (edits_length _ _ _ (lev_edits a b)).
  pose proof (lev_le_max a b). lia.
Qed.

(** ** More on the similarity *)

(** X3.  [calculateSimilarity] does not depend on the order of its
    arguments. *)
Theorem calculateSimilarity_symmetric (a b : jsstring) :
  calculateSimilarity a b = calculateSimilarity b a.
Proof.
  destruct (decide (a = b)) as [->|Hab]; [done|].
  destruct (decide (a = [])) as [->|Ha].
  { unfold calculateSimilarity. rewrite !decide_False by done. by destruct b. }
  destruct (decide (b = [])) as [->|Hb].
  { unfold calculateSimilarity. rewrite !decide_False by done. by destruct a. }
  rewrite !calculateSimilarity_unfold by done. cbv zeta.
  destruct (decide (length b < length a)), (decide (length a < length b));
    try done; try lia.
  assert (length a = length b) as Hlen by lia. by rewrite Hlen, lev_sym.
Qed.

Lemma lev_pos a b : a ≠ b → 1 ≤ lev a b.
Proof. intros Hab. destruct (lev a b) eqn:H; [by apply lev_zero in H|lia]. Qed.

(** The similarity of two different non-empty strings, with its edit
    distance. *)
Lemma calculateSimilarity_distance (a b : jsstring) :
  a ≠ b → a ≠ [] → b ≠ [] →
  ∃ len d, len = Nat.max (length a) (length b) ∧ 1 ≤ d ≤ len ∧ d = lev a b
    ∧ calculateSimilarity a b
      = Some ((inject_Z (Z.of_nat len) - inject_Z (Z.of_nat d))
              / inject_Z (Z.of_nat len))%Q.
Proof.
  intros Hab Ha Hb. exists (Nat.max (length a) (length b)), (lev a b).
  split; [done|]. pose proof (lev_pos a b Hab). pose proof (lev_le_max a b).
  split; [lia|]. split; [done|].
  rewrite calculateSimilarity_unfold by done. cbv zeta.
  destruct (decide (length b < length a)).
  - rewrite (lev_sym b a). by rewrite Nat.max_l by lia.
  - by rewrite Nat.max_r by lia.
Qed.

(** X4.  [calculateSimilarity] returns 1 only for equal strings: two
    different strings score at most [1 - 1/L], where [L] is the length of
    the longer one. *)
Theorem calculateSimilarity_one (a b : jsstring) :
  ((∃ q, calculateSimilarity a b = Some q ∧ (q == 1)%Q) ↔ a = b)
  ∧ (a ≠ b →
     ∃ q, calculateSimilarity a b = Some q
       ∧ (q * inject_Z (Z.of_nat (Nat.max (length a) (length b)))
          <= inject_Z (Z.of_nat (Nat.max (length a) (length b))) - 1)%Q).
Proof.
  assert (a ≠ b →
     ∃ q, calculateSimilarity a b = Some q
       ∧ (q * inject_Z (Z.of_nat (Nat.max (length a) (length b)))
          <= inject_Z (Z.of_nat (Nat.max (length a) (length b))) - 1)%Q) as Hbound.
  { intros Hab. destruct (decide (a = [])) as [->|Ha].
    { exists 0%Q. split.
      - unfold calculateSimilarity. by rewrite decide_False.
      - rewrite Qmult_0_l. destruct b as [|y b]; [done|].
        change 1%Q with (inject_Z 1). unfold Qminus.
        rewrite <- inject_Z_opp, <- inject_Z_plus.
        change 0%Q with (inject_Z 0). rewrite <- Zle_Qle. simpl. lia. }
    destruct (decide (b = [])) as [->|Hb].
    { exists 0%Q. split.
      - unfold calculateSimilarity. rewrite decide_False by done. by destruct a.
      - rewrite Qmult_0_l. destruct a as [|x a]; [done|].
        change 1%Q with (inject_Z 1). unfold Qminus.
        rewrite <- inject_Z_opp, <- inject_Z_plus.
        change 0%Q with (inject_Z 0). rewrite <- Zle_Qle. simpl. lia. }
    destruct (calculateSimilarity_distance a b Hab Ha Hb)
      as (len & d & -> & Hd & _ & ->).
    eexists. split; [done|].
    assert (¬ inject_Z (Z.of_nat (Nat.max (length a) (length b))) == 0)%Q as Hlen.
    { change 0%Q with (inject_Z 0). rewrite inject_Z_injective. lia. }
    unfold Qdiv. rewrite <- Qmult_assoc, (Qmult_comm (/ _)), Qmult_inv_r by done.
    rewrite Qmult_1_r. change 1%Q with (inject_Z 1). unfold Qminus.
    rewrite <- !inject_Z_opp, <- !inject_Z_plus, <- Zle_Qle. lia. }
  split; [|done]. split.
  - intros (q & Hq & Hone). destruct (decide (a = b)) as [|Hab]; [done|].
    destruct (Hbound Hab) as (q' & Hq' & Hle). simplify_eq. exfalso.
    rewrite Hone, Qmult_1_l in Hle. revert Hle.
    change 1%Q with (inject_Z 1). unfold Qminus.
    rewrite <- inject_Z_opp, <- inject_Z_plus, <- Zle_Qle. lia.
  - intros ->. exists 1%Q. split; [|done].
    unfold calculateSimilarity. by rewrite decide_True.
Qed.

(** X5.  With the default threshold of 0.95, two different strings shorter
    than 20 characters are always below the threshold, while two strings
    one edit apart are not below it as soon as one of them has 20
    characters. *)
Theorem calculateSimilarity_threshold (a b : jsstring) :
  (a ≠ b → length a < 20 → length b < 20 →
   lessThan (calculateSimilarity a b) (similarityThreshold VALIDATOR_CONFIG) = true)
  ∧ (edits a b 1 → 20 ≤ Nat.max (length a) (length b) →
     lessThan (calculateSimilarity a b) (similarityThreshold VALIDATOR_CONFIG) = false).
Proof.
  split.
  - intros Hab Hla Hlb. destruct (decide (a = [])) as [->|Ha].
    { unfold calculateSimilarity. by rewrite decide_False. }
    destruct (decide (b = [])) as [->|Hb].
    { unfold calculateSimilarity. rewrite decide_False by done. by destruct a. }
    destruct (calculateSimilarity_distance a b Hab Ha Hb)
      as (len & d & -> & Hd & _ & ->).
    rewrite lessThan_Qlt. destruct (Qlt_le_dec _ _) as [|Hle]; [done|]. exfalso.
    revert Hle. apply Qlt_not_le. apply Qlt_shift_div_r.
    { change 0%Q with (inject_Z 0). rewrite <- Zlt_Qlt. lia. }
    unfold Qlt, Qminus, Qplus, Qopp, Qmult, inject_Z. simpl. lia.
  - intros Hedit Hlen. destruct (decide (a = b)) as [->|Hab].
    { unfold calculateSimilarity. by rewrite decide_True. }
    pose proof (edits_length _ _ _ Hedit).
    assert (a ≠ []) as Ha by (intros ->; simpl in *; lia).
    assert (b ≠ []) as Hb by (intros ->; simpl in *; lia).
    destruct (calculateSimilarity_distance a b Hab Ha Hb)
      as (len & d & -> & Hd & -> & ->).
    pose proof (lev_least _ _ _ Hedit).
    rewrite lessThan_Qlt. destruct (Qlt_le_dec _ _) as [Hlt|]; [|done]. exfalso.
    revert Hlt. apply Qle_not_lt. apply Qle_shift_div_l.
    { change 0%Q with (inject_Z 0). rewrite <- Zlt_Qlt. lia. }
    unfold Qle, Qminus, Qplus, Qopp, Qmult, inject_Z. simpl. lia.
Qed.

(** ** Text helpers of the renderer *)

(** X6.  [truncateText] returns a text of at most [maxLength] characters
    unchanged; a longer one is cut to its first [maxLength] characters and
    an ellipsis, so that the result has at most [maxLength + 3] characters
    and begins as the text does; truncating the result again changes
    nothing. *)
Theorem truncateText_bounds (text : jsstring) (maxLength : nat) :
  (length text ≤ maxLength → truncateText text maxLength = text)
  ∧ length (truncateText text maxLength) ≤ maxLength + 3
  ∧ take maxLength (truncateText text maxLength) = take maxLength text
  ∧ truncateText (truncateText text maxLength) maxLength
    = truncateText text maxLength.
Proof.
  destruct (negb (truthy text) || bool_decide (length text ≤ maxLength)) eqn:Hkeep.
  - assert (truncateText text maxLength = text) as Heq.
    { unfold truncateText. by rewrite Hkeep. }
    assert (length text ≤ maxLength) as Hlen.
    { apply orb_true_iff in Hkeep as [Hempty|Hle].
      - destruct text; [simpl; lia|done].
      - by apply bool_decide_eq_true in Hle. }
    rewrite !Heq. split; [done|]. split; [lia|]. by split.
  - assert (truncateText text maxLength = take maxLength text ++ js "...") as Heq.
    { unfold truncateText. by rewrite Hkeep. }
    apply orb_false_iff in Hkeep as [_ Hlong%bool_decide_eq_false].
    assert (length (take maxLength text) = maxLength) as Htake.
    { rewrite length_take. lia. }
    rewrite !Heq. split; [lia|].
    split; [rewrite length_app, Htake; simpl; lia|].
    split; [by rewrite take_app_length'|].
    unfold truncateText.
    assert (negb (truthy (take maxLength text ++ js "..."))
            || bool_decide (length (take maxLength text ++ js "...") ≤ maxLength)
            = false) as ->.
    { apply orb_false_iff. split.
      - by destruct (take maxLength text).
      - apply bool_decide_eq_false. rewrite length_app, Htake. simpl. lia. }
    by rewrite take_app_length'.
Qed.

(** What [escapeHtml] writes for one character. *)
Lemma escapeHtml_cons c text :
  escapeHtml (c :: text)
  = (if (c =? 38)%N then js "&amp;"
     else if (c =? 60)%N then js "&lt;"
     else if (c =? 62)%N then js "&gt;"
     else if (c =? 160)%N then js "&nbsp;"
     else [c]) ++ escapeHtml text.
Proof. done. Qed.

(** X7.  The output of [escapeHtml] holds no [<], no [>] and no no-break
    space, and a text without [&], [<], [>] and no-break spaces is returned
    as it is. *)
Theorem escapeHtml_no_markup (text : jsstring) :
  Forall (λ c, c ≠ 60%N ∧ c ≠ 62%N ∧ c ≠ 160%N) (escapeHtml text)
  ∧ (Forall (λ c, c ≠ 38%N ∧ c ≠ 60%N ∧ c ≠ 62%N ∧ c ≠ 160%N) text →
     escapeHtml text = text).
Proof.
  split.
  - induction text as [|c text IH]; [by constructor|].
    rewrite escapeHtml_cons. apply Forall_app. split; [|done].
    destruct (N.eqb_spec c 38); [by repeat constructor|].
    destruct (N.eqb_spec c 60); [by repeat constructor|].
    destruct (N.eqb_spec c 62); [by repeat constructor|].
    destruct (N.eqb_spec c 160); [by repeat constructor|].
    by repeat constructor.
  - induction 1 as [|c text (? & ? & ? & ?) _ IH]; [done|].
    rewrite escapeHtml_cons, IH.
    destruct (N.eqb_spec c 38); [done|]. destruct (N.eqb_spec c 60); [done|].
    destruct (N.eqb_spec c 62); [done|]. by destruct (N.eqb_spec c 160).
Qed.

(** X8.  [escapeHtml] loses nothing: different texts have different
    escaped forms. *)
Theorem escapeHtml_injective (text1 text2 : jsstring) :
  escapeHtml text1 = escapeHtml text2 → text1 = text2.
Proof.
  revert text2. induction text1 as [|c1 text1 IH]; intros [|c2 text2].
  - done.
  - rewrite escapeHtml_cons.
    destruct (c2 =? 38)%N; [done|]. destruct (c2 =? 60)%N; [done|].
    destruct (c2 =? 62)%N; [done|]. by destruct (c2 =? 160)%N.
  - rewrite escapeHtml_cons.
    destruct (c1 =? 38)%N; [done|]. destruct (c1 =? 60)%N; [done|].
    destruct (c1 =? 62)%N; [done|]. by destruct (c1 =? 160)%N.
  - rewrite !escapeHtml_cons. intros Heq.
    assert (c1 = c2 ∧ escapeHtml text1 = escapeHtml text2) as [-> ?].
    { destruct (N.eqb_spec c1 38) as [->|?]; [|destruct (N.eqb_spec c1 60) as [->|?];
        [|destruct (N.eqb_spec c1 62) as [->|?];
          [|destruct (N.eqb_spec c1 160) as [->|?]]]];
      (destruct (N.eqb_spec c2 38) as [->|?]; [|destruct (N.eqb_spec c2 60) as [->|?];
        [|destruct (N.eqb_spec c2 62) as [->|?];
          [|destruct (N.eqb_spec c2 160) as [->|?]]]]);
      simpl in Heq; by simplify_eq. }
    f_equal. by apply IH.
Qed.

(** ** More on the diff extractor *)

Lemma filter_not_in_nil (lines others : list jsstring) :
  List.filter (λ line, negb (includes others line)) lines = []
  ↔ ∀ line, line ∈ lines → line ∈ others.
Proof.
  rewrite filter_not_includes. split.
  - intros Hnil line Hline. destruct (decide (line ∈ others)) as [|Hout]; [done|].
    assert (line ∈ List.filter (λ line, bool_decide (line ∉ others)) lines) as Hin.
    { by apply elem_of_filter_not_in. }
    rewrite Hnil in Hin. by apply elem_of_nil in Hin.
  - intros Hsub. apply elem_of_nil_inv. intros line Hin.
    apply elem_of_filter_not_in in Hin as [Hin Hout]. by apply Hout, Hsub.
Qed.

Lemma hasDifferences_false text1 text2 :
  hasDifferences (findTextDifferences text1 text2) = false
  ↔ ∀ line, line ∈ nonBlankLines text1 ↔ line ∈ nonBlankLines text2.
Proof.
  unfold findTextDifferences. cbn [hasDifferences].
  rewrite orb_false_iff, !bool_decide_eq_false.
  assert (∀ l : list jsstring, ¬ 0 < length l ↔ l = []) as Hnil.
  { intros [|??]; simpl; split; try done; lia. }
  rewrite !Hnil, !filter_not_in_nil. split.
  - intros [H1 H2] line. split; [apply H1|apply H2].
  - intros H. split; intros line; by apply H.
Qed.

(** X9.  [findTextDifferences] compares the two texts as sets of non-blank
    lines: it reports no differences exactly when each non-blank line of one
    text is a line of the other, whatever the order and the number of
    occurrences of the lines, and whether it reports differences does not
    depend on the order of its arguments. *)
Theorem findTextDifferences_same_lines (text1 text2 : jsstring) :
  (hasDifferences (findTextDifferences text1 text2) = false
   ↔ ∀ line, line ∈ nonBlankLines text1 ↔ line ∈ nonBlankLines text2)
  ∧ hasDifferences (findTextDifferences text1 text2)
    = hasDifferences (findTextDifferences text2 text1)
  ∧ hasDifferences (findTextDifferences text1 text1) = false.
Proof.
  split; [apply hasDifferences_false|]. split.
  - destruct (hasDifferences (findTextDifferences text1 text2)) eqn:H12,
      (hasDifferences (findTextDifferences text2 text1)) eqn:H21; try done.
    + pose proof (proj1 (hasDifferences_false _ _) H21) as Hsame.
      apply not_false_iff_true in H12. destruct H12.
      apply hasDifferences_false. intros line. by rewrite Hsame.
    + pose proof (proj1 (hasDifferences_false _ _) H12) as Hsame.
      apply not_false_iff_true in H21. destruct H21.
      apply hasDifferences_false. intros line. by rewrite Hsame.
  - by apply hasDifferences_false.
Qed.

(** ** The collected specifications *)

Lemma addSpec_foldl specs xtrefs :
  NoDup specs.*1 →
  NoDup (foldl addSpec specs xtrefs).*1
  ∧ ∀ url info, (url, info) ∈ foldl addSpec specs xtrefs →
      (url, info) ∈ specs
      ∨ ((url ∉ specs.*1) ∧ url ≠ []
         ∧ ∃ x, List.find (λ x, bool_decide (XTref.ghPageUrl x = url)) xtrefs = Some x
             ∧ info = (url, XTref.externalSpec x)).
Proof.
  revert specs. induction xtrefs as [|x xtrefs IH]; intros specs Hnodup.
  { split; [done|]. by left. }
  cbn [foldl]. unfold addSpec at 2 4.
  destruct (truthy (XTref.ghPageUrl x)) eqn:Hurl; cbn [andb];
    [destruct (decide (XTref.ghPageUrl x ∈ specs.*1)) as [Hin|Hout]|].
  - rewrite bool_decide_eq_true_2 by done. cbn [negb].
    destruct (IH specs Hnodup) as [? Hentries]. split; [done|].
    intros url info [?|(Hout & Hne & y & Hfind & ->)]%Hentries; [by left|right].
    split; [done|]. split; [done|]. exists y. split; [|done].
    cbn [List.find]. rewrite bool_decide_eq_false_2; [done|by intros <-].
  - rewrite bool_decide_eq_false_2 by done. cbn [negb].
    destruct (IH (specs ++ [(XTref.ghPageUrl x,
                             (XTref.ghPageUrl x, XTref.externalSpec x))]))
      as [? Hentries].
    { rewrite fmap_app. apply NoDup_app. split; [done|]. split.
      - intros url Hin [->|[]%elem_of_nil]%elem_of_cons. done.
      - apply NoDup_singleton. }
    split; [done|]. intros url info Hin. apply Hentries in Hin.
    destruct Hin as [[?|Hnew]%elem_of_app|(Hnot & Hne & y & Hfind & ->)].
    + by left.
    + apply list_elem_of_singleton in Hnew as [= -> ->]. right.
      split; [done|]. split; [by apply truthy_nonempty|]. exists x.
      split; [|done]. cbn [List.find]. by rewrite bool_decide_eq_true_2.
    + rewrite fmap_app, elem_of_app in Hnot. right.
      split; [tauto|]. split; [done|]. exists y. split; [|done].
      cbn [List.find]. rewrite bool_decide_eq_false_2; [done|].
      intros Heq. apply Hnot. right. rewrite Heq. cbn. left.
  - destruct (IH specs Hnodup) as [? Hentries]. split; [done|].
    intros url info [?|(Hout & Hne & y & Hfind & ->)]%Hentries; [by left|right].
    split; [done|]. split; [done|]. exists y. split; [|done].
    cbn [List.find]. rewrite bool_decide_eq_false_2; [done|].
    intros Heq. rewrite Heq in Hurl. by destruct url.
Qed.

(** X10.  [collectExternalSpecs] lists each non-empty [ghPageUrl] of the
    index exactly once, and names it after the first entry of the index
    that has this URL; without an index it lists nothing. *)
Theorem collectExternalSpecs_unique (xtrefs : list XTref.t) :
  NoDup (collectExternalSpecs (Some xtrefs)).*1
  ∧ (∀ url, url ∈ (collectExternalSpecs (Some xtrefs)).*1
       ↔ url ≠ [] ∧ ∃ x, x ∈ xtrefs ∧ XTref.ghPageUrl x = url)
  ∧ (∀ url info, (url, info) ∈ collectExternalSpecs (Some xtrefs) →
       ∃ x, List.find (λ x, bool_decide (XTref.ghPageUrl x = url)) xtrefs = Some x
         ∧ info = (url, XTref.externalSpec x))
  ∧ collectExternalSpecs None = [].
Proof.
  destruct (addSpec_foldl [] xtrefs) as [Hnodup Hentries]; [by constructor|].
  assert (∀ url info, (url, info) ∈ collectExternalSpecs (Some xtrefs) →
            url ≠ []
            ∧ ∃ x, List.find (λ x, bool_decide (XTref.ghPageUrl x = url)) xtrefs = Some x
                ∧ info = (url, XTref.externalSpec x)) as Hfirst.
  { intros url info [[]%elem_of_nil|(_ & ? & ?)]%Hentries. done. }
  split; [done|]. split; [|split; [|done]].
  - intros url. split.
    + intros ((url' & info) & -> & Hin)%list_elem_of_fmap. cbn.
      destruct (Hfirst _ _ Hin) as (Hne & x & Hfind & _). split; [done|].
      exists x. apply find_some in Hfind as [Hx Hurl].
      split; [by apply list_elem_of_In|by apply bool_decide_eq_true in Hurl].
    + intros (Hne & x & Hx & <-). by apply collectExternalSpecs_urls.
  - intros url info Hin. by destruct (Hfirst _ _ Hin).
Qed.

(** ** More on the fetcher *)

Lemma fetchLive_clock ghPageUrl w :
  clock (fetchLive ghPageUrl w).2 = (network ghPageUrl (clock w)).2.
Proof.
  unfold fetchLive. destruct (network ghPageUrl (clock w)) as [outcome settled].
  destruct outcome as [|response]; [done|].
  destruct (negb (ok response)); [done|]. by destruct (text response).
Qed.

Lemma fetchExternalSpec_requests (cfg : Config) ghPageUrl w :
  (¬ cacheMiss cfg ghPageUrl w
   ∧ fetchExternalSpec cfg ghPageUrl w = (data <$> fetchCache w !! ghPageUrl, w)
   ∧ is_Some (fetchCache w !! ghPageUrl))
  ∨ (cacheMiss cfg ghPageUrl w
     ∧ requests (fetchExternalSpec cfg ghPageUrl w).2 = requests w ++ [ghPageUrl]).
Proof.
  unfold fetchExternalSpec, cacheMiss.
  destruct (fetchCache w !! ghPageUrl) as [cached|].
  - destruct (decide (clock w - timestamp cached < cacheTimeout cfg)%Z).
    + left. split; [lia|]. split; [done|by eauto].
    + right. split; [lia|apply fetchLive_requests].
  - right. split; [done|apply fetchLive_requests].
Qed.

Lemma fetchExternalSpec_others (cfg : Config) ghPageUrl w other :
  other ≠ ghPageUrl →
  fetchCache (fetchExternalSpec cfg ghPageUrl w).2 !! other = fetchCache w !! other.
Proof.
  intros Hother.
  destruct (fetchExternalSpec_cache cfg ghPageUrl w)
    as [->|(html & settled & _ & ->)]; [done|].
  by rewrite lookup_insert_ne.
Qed.

(** X11.  A call of [fetchExternalSpec] touches nothing but its own URL:
    the cache entries of the other URLs stay as they are, at most one
    request is sent, and it is sent to this URL. *)
Theorem fetchExternalSpec_frame (cfg : Config) (ghPageUrl : jsstring) (w : World) :
  (∀ other, other ≠ ghPageUrl →
     fetchCache (fetchExternalSpec cfg ghPageUrl w).2 !! other = fetchCache w !! other)
  ∧ (requests (fetchExternalSpec cfg ghPageUrl w).2 = requests w
     ∨ requests (fetchExternalSpec cfg ghPageUrl w).2 = requests w ++ [ghPageUrl]).
Proof.
  split.
  - intros other Hother. by apply fetchExternalSpec_others.
  - destruct (fetchExternalSpec_requests cfg ghPageUrl w)
      as [(_ & -> & _)|[_ ?]]; [by left|by right].
Qed.

(** X12.  What a successful request brought is served from the cache
    afterwards: when a call that went to the network returned terms, a call
    for the same URL less than [cacheTimeout] after the first has ended
    returns the same terms and leaves the cache, the clock and the request
    log as they are. *)
Theorem fetchExternalSpec_then_cached (cfg : Config) (ghPageUrl : jsstring) (w : World)
    (terms : gmap jsstring LiveTerm.t) (now : Z) :
  cacheMiss cfg ghPageUrl w →
  (fetchExternalSpec cfg ghPageUrl w).1 = Some terms →
  (now - clock (fetchExternalSpec cfg ghPageUrl w).2 < cacheTimeout cfg)%Z →
  fetchExternalSpec cfg ghPageUrl
    {| fetchCache := fetchCache (fetchExternalSpec cfg ghPageUrl w).2;
       clock := now;
       requests := requests (fetchExternalSpec cfg ghPageUrl w).2 |}
  = (Some terms,
     {| fetchCache := fetchCache (fetchExternalSpec cfg ghPageUrl w).2;
        clock := now;
        requests := requests (fetchExternalSpec cfg ghPageUrl w).2 |}).
Proof.
  intros Hmiss. rewrite (fetchExternalSpec_miss _ _ _ Hmiss).
  intros Hterms Hnow. rewrite fetchLive_clock in Hnow.
  destruct (fetchLive_cases ghPageUrl w)
    as [[Hnone _]|(response & html & _ & _ & _ & Hsome & Hcache)].
  { by rewrite Hnone in Hterms. }
  rewrite Hsome in Hterms. injection Hterms as <-.
  unfold fetchExternalSpec at 1. cbn [fetchCache clock].
  rewrite Hcache, lookup_insert_eq. cbn [timestamp data].
  rewrite decide_True by done. by rewrite <- Hcache.
Qed.

(** X13.  [null] is never served from the cache nor stored in it: when
    [fetchExternalSpec] returns [null], the URL had no fresh cache entry,
    the request was sent just now, and the cache is as it was. *)
Theorem fetchExternalSpec_null (cfg : Config) (ghPageUrl : jsstring) (w : World) :
  (fetchExternalSpec cfg ghPageUrl w).1 = None →
  cacheMiss cfg ghPageUrl w
  ∧ requests (fetchExternalSpec cfg ghPageUrl w).2 = requests w ++ [ghPageUrl]
  ∧ fetchCache (fetchExternalSpec cfg ghPageUrl w).2 = fetchCache w.
Proof.
  intros Hnone.
  destruct (fetchExternalSpec_requests cfg ghPageUrl w)
    as [(_ & Hhit & [cached Hcached])|[Hmiss Hsent]].
  { rewrite Hhit, Hcached in Hnone. done. }
  split; [done|]. split; [done|].
  destruct (fetchExternalSpec_cache cfg ghPageUrl w)
    as [?|(html & settled & Hsome & _)]; [done|].
  by rewrite Hsome in Hnone.
Qed.

Lemma fetchAll_requests_foldl (cfg : Config) specs acc :
  ∃ sent,
    requests (foldl (fetchNext cfg) acc specs).2 = requests acc.2 ++ sent
    ∧ sublist sent specs.*1
    ∧ ((∀ url, url ∈ specs.*1 → fetchCache acc.2 !! url = None) →
       NoDup specs.*1 → sent = specs.*1).
Proof.
  revert acc. induction specs as [|spec specs IH]; intros acc.
  { exists []. by rewrite app_nil_r. }
  cbn [foldl]. unfold fetchNext at 2.
  destruct (fetchExternalSpec cfg spec.1 acc.2) as [terms w'] eqn:Hfetch.
  destruct (IH (acc.1 ++ [(spec.1, terms)], w')) as (sent & Hsent & Hsub & Hall).
  cbn [snd] in Hsent, Hall.
  destruct (fetchExternalSpec_requests cfg spec.1 acc.2)
    as [(Hhit & Hsame & Hcached)|[Hmiss Hrequest]]; rewrite Hfetch in *.
  - injection Hsame as _ ->. exists sent. split; [done|].
    split; [by apply sublist_cons|].
    intros Hempty _. destruct Hcached as [cached Hcached].
    rewrite Hempty in Hcached; [done|]. cbn. left.
  - cbn [snd] in Hrequest. exists (spec.1 :: sent). split; [|split].
    + rewrite Hsent, Hrequest, <- app_assoc. done.
    + cbn. by apply sublist_skip.
    + cbn [fmap list_fmap]. intros Hempty [Hfirst Hnodup]%NoDup_cons.
      f_equal. apply Hall; [|done]. intros url Hurl.
      pose proof (fetchExternalSpec_others cfg spec.1 acc.2 url) as Hframe.
      rewrite Hfetch in Hframe. cbn [snd] in Hframe.
      rewrite Hframe; [apply Hempty; by right|]. by intros ->.
Qed.

(** X14.  The fetch phase of [validateExternalRefs] sends requests to
    collected URLs only, at most one to each and in the order of the index;
    when the cache is empty it sends exactly one to each. *)
Theorem fetchAll_requests (cfg : Config) (allXTrefs : option (list XTref.t))
    (w : World) :
  ∃ sent,
    requests (fetchAll cfg (collectExternalSpecs allXTrefs) w).2 = requests w ++ sent
    ∧ sublist sent (collectExternalSpecs allXTrefs).*1
    ∧ NoDup sent
    ∧ (fetchCache w = ∅ → sent = (collectExternalSpecs allXTrefs).*1).
Proof.
  assert (NoDup (collectExternalSpecs allXTrefs).*1) as Hnodup.
  { destruct allXTrefs as [xtrefs|]; [|by constructor].
    by apply (addSpec_foldl [] xtrefs); constructor. }
  destruct (fetchAll_requests_foldl cfg (collectExternalSpecs allXTrefs) ([], w))
    as (sent & Hsent & Hsub & Hall).
  exists sent. split; [done|]. split; [done|].
  split; [by eapply sublist_NoDup|].
  intros Hempty. apply Hall; [|done]. intros url _. cbn.
  by rewrite Hempty, lookup_empty.
Qed.

(** ** More on term extraction *)

Lemma foldl_insert_absent {V : Type} (kvs : list (jsstring * V)) (m : gmap jsstring V) k :
  k ∉ kvs.*1 → foldl (λ terms kv, <[kv.1 := kv.2]> terms) m kvs !! k = m !! k.
Proof.
  revert m. induction kvs as [|[k' v'] kvs IH]; intros m Hk; [done|].
  cbn in Hk. apply not_elem_of_cons in Hk as [? ?].
  cbn [foldl]. rewrite IH by done. by rewrite lookup_insert_ne.
Qed.

Lemma foldl_insert_last {V : Type} (pre post : list (jsstring * V))
    (m : gmap jsstring V) k v :
  k ∉ post.*1 →
  foldl (λ terms kv, <[kv.1 := kv.2]> terms) m (pre ++ (k, v) :: post) !! k = Some v.
Proof.
  intros Hk. rewrite foldl_app. cbn [foldl]. rewrite foldl_insert_absent by done.
  apply lookup_insert_eq.
Qed.

Lemma last_occurrence {V : Type} (kvs : list (jsstring * V)) k :
  k ∈ kvs.*1 → ∃ pre v post, kvs = pre ++ (k, v) :: post ∧ k ∉ post.*1.
Proof.
  induction kvs as [|[k' v'] kvs IH]; [by intros ?%elem_of_nil|].
  intros Hk. destruct (decide (k ∈ kvs.*1)) as [Hin|Hout].
  - destruct (IH Hin) as (pre & v & post & -> & ?).
    by exists ((k', v') :: pre), v, post.
  - cbn in Hk. apply elem_of_cons in Hk as [->|?]; [|done].
    by exists [], v', kvs.
Qed.

(** X15.  [extractTermsFromHtml] has an entry under a key exactly when some
    term element of the page has this key, and when several have it, the
    entry is that of the last of them in document order. *)
Theorem extractTermsFromHtml_last_wins (html : jsstring) :
  (∀ key, is_Some (extractTermsFromHtml html !! key)
     ↔ key ∈ (termEntries (parseDocument html)).*1)
  ∧ (∀ pre key entry post,
       termEntries (parseDocument html) = pre ++ (key, entry) :: post →
       key ∉ post.*1 →
       extractTermsFromHtml html !! key = Some entry).
Proof.
  rewrite extractTermsFromHtml_entries. split.
  - intros key. split.
    + intros [entry Hentry].
      destruct (decide (key ∈ (termEntries (parseDocument html)).*1)) as [|Hout];
        [done|].
      rewrite foldl_insert_absent, lookup_empty in Hentry; done.
    + intros (pre & v & post & -> & Hpost)%last_occurrence.
      rewrite foldl_insert_last by done. by eauto.
  - intros pre key entry post -> Hpost. by apply foldl_insert_last.
Qed.

(** ** More on the transclusion step *)

Lemma item_ind' (P : item → Prop) :
  (∀ name data, P (File name data)) →
  (∀ name items, Forall P items → P (Directory name items)) →
  (∀ name, P (Other name)) →
  ∀ it, P it.
Proof.
  intros Hfile Hdir Hother. fix IH 1. intros [name data|name items|name];
    [apply Hfile| |apply Hother].
  apply Hdir. induction items as [|it items IHitems]; constructor;
    [apply IH|apply IHitems].
Qed.

Lemma processItem_shape index it :
  withoutMarkdown (processItem index it).1 = withoutMarkdown it
  ∧ sublist (processItem index it).2 (markdownFiles it).
Proof.
  induction it as [name data|name items IH|name] using item_ind'.
  - cbn [processItem withoutMarkdown markdownFiles]. case_bool_decide as Hmd.
    + destruct (processFile index data) as [data' failed]. cbn.
      rewrite bool_decide_eq_true_2 by done. split; [done|].
      destruct failed; [done|]. by apply sublist_cons.
    + cbn. by rewrite bool_decide_eq_false_2.
  - cbn [processItem withoutMarkdown markdownFiles fst snd]. split.
    + f_equal. induction IH as [|it items [Hit _] _ IHitems]; [done|].
      cbn. by rewrite Hit, IHitems.
    + induction IH as [|it items [_ Hit] _ IHitems]; [done|].
      cbn. by apply sublist_app.
  - done.
Qed.

(** X16.  [prepareTref] changes nothing but the content of markdown files:
    the names, the kinds and the nesting of the entries and the content of
    all other files are as before; and the files it logs an error for are
    markdown files of the tree, each logged at most once and in the order
    of the tree. *)
Theorem prepareTref_shape (index : option (list XTref.t)) (directory : list item) :
  map withoutMarkdown (prepareTref index directory).1 = map withoutMarkdown directory
  ∧ sublist (prepareTref index directory).2 (concat (map markdownFiles directory)).
Proof.
  unfold prepareTref. cbn [fst snd].
  induction directory as [|it directory [IH1 IH2]]; [done|].
  destruct (processItem_shape index it) as [Hit1 Hit2]. cbn. split.
  - by rewrite Hit1, IH1.
  - by apply sublist_app.
Qed.

Lemma processLine_unreadable written line :
  processLine None written line = returned written
  ∨ processLine None written line = thrown.
Proof.
  unfold processLine. destruct (startsWith _ line); [|by left].
  destruct (matchTref line) as [[match0 match1]|]; [by right|by left].
Qed.

Lemma processLines_unreadable written lines :
  (processLines None written lines).1 = written.
Proof.
  induction lines as [|line lines IH]; [done|]. cbn [processLines].
  by destruct (processLine_unreadable written line) as [-> | ->].
Qed.

Lemma processLines_written xtrefs written lines :
  (processLines (Some xtrefs) written lines).1 = written
  ∨ ∃ line match0 spec term entry,
      line ∈ lines ∧ markerOf line = Some (match0, spec, term)
      ∧ lookupEntry xtrefs spec term = Some entry
      ∧ (processLines (Some xtrefs) written lines).1
        = transclusion match0 (XTref.commitHash entry)
            (removeDefParts 0 (XTref.content entry)).
Proof.
  revert written. induction lines as [|line lines IH]; intros written; [by left|].
  cbn [processLines]. destruct (markerOf line) as [[[match0 spec] term]|] eqn:Hmarker.
  - destruct (lookupEntry xtrefs spec term) as [entry|] eqn:Hentry.
    + rewrite (processLine_found _ _ _ _ _ _ _ Hmarker Hentry).
      destruct (IH (transclusion match0 (XTref.commitHash entry)
                      (removeDefParts 0 (XTref.content entry))))
        as [Hsame|(l & m & s & t & e & Hl & ? & ? & ?)]; right.
      * exists line, match0, spec, term, entry. split; [left|]. by rewrite Hsame.
      * exists l, m, s, t, e. split; [by right|done].
    + rewrite (processLine_unresolved _ _ _ _ _ _ Hmarker Hentry). by left.
  - rewrite (processLine_other _ _ _ Hmarker).
    destruct (IH written) as [?|(l & m & s & t & e & Hl & ? & ? & ?)]; [by left|].
    right. exists l, m, s, t, e. split; [by right|done].
Qed.

(** X17.  All that [prepareTref] ever writes to a file is the transclusion
    of an entry of the index that a marker line of this file names; without
    a readable index it writes nothing. *)
Theorem prepareTref_writes (index : option (list XTref.t)) (name data : jsstring) :
  (processItem index (File name data)).1 = File name data
  ∨ ∃ xtrefs line match0 spec term entry,
      index = Some xtrefs ∧ extname name = js ".md"
      ∧ line ∈ splitOn 10%N data
      ∧ markerOf line = Some (match0, spec, term)
      ∧ lookupEntry xtrefs spec term = Some entry
      ∧ (processItem index (File name data)).1
        = File name (transclusion match0 (XTref.commitHash entry)
                       (removeDefParts 0 (XTref.content entry))).
Proof.
  cbn [processItem]. case_bool_decide as Hmd; [|by left].
  unfold processFile. destruct index as [xtrefs|].
  - destruct (processLines_written xtrefs data (splitOn 10%N data))
      as [Hsame|(l & m & s & t & e & Hl & Hm & He & Hwritten)];
      destruct (processLines _ _ _) as [data' failed]; cbn in *; subst data'.
    + by left.
    + right. by exists xtrefs, l, m, s, t, e.
  - left. pose proof (processLines_unreadable data (splitOn 10%N data)) as Hsame.
    destruct (processLines _ _ _) as [data' failed]. cbn in *. by subst.
Qed.

Lemma lazyUntil_unfold close s :
  lazyUntil close s =
    if startsWith close s then Some ([], drop (length close) s)
    else match s with
         | [] => None
         | c :: rest =>
             if isLineTerminator c then None
             else match lazyUntil close rest with
                  | Some (captured, after) => Some (c :: captured, after)
                  | None => None
                  end
         end.
Proof. by destruct s. Qed.

Lemma startsWith_prefix prefix s t :
  startsWith prefix s = true → startsWith prefix (s ++ t) = true.
Proof.
  revert s. induction prefix as [|p prefix IH]; intros [|c s]; try done.
  cbn. intros [? ?]%andb_true_iff. apply andb_true_iff. split; [done|by apply IH].
Qed.

Lemma startsWith_self prefix s : startsWith prefix (prefix ++ s) = true.
Proof.
  induction prefix as [|p prefix IH]; [done|]. cbn.
  by rewrite bool_decide_eq_true_2, IH.
Qed.

Lemma lazyUntil_captured close s captured after :
  lazyUntil close s = Some (captured, after) →
  Forall (λ c, isLineTerminator c = false) captured
  ∧ lazyUntil close (captured ++ close) = Some (captured, []).
Proof.
  revert captured. induction s as [|c s IH]; intros captured;
    rewrite lazyUntil_unfold.
  - destruct (startsWith close []) eqn:Hclose; [|done]. intros [= <- <-].
    split; [done|]. cbn [app]. rewrite lazyUntil_unfold.
    rewrite <- (app_nil_r close) at 2. rewrite startsWith_self.
    by rewrite drop_all.
  - destruct (startsWith close (c :: s)) eqn:Hclose.
    + intros [= <- <-]. split; [done|]. cbn [app]. rewrite lazyUntil_unfold.
      rewrite <- (app_nil_r close) at 2. rewrite startsWith_self.
      by rewrite drop_all.
    + destruct (isLineTerminator c) eqn:Hc; [done|].
      destruct (lazyUntil close s) as [[captured' after']|] eqn:Hrest; [|done].
      intros [= <- <-]. destruct (IH _ eq_refl) as [Hcaptured Hagain].
      split; [by constructor|]. cbn [app]. rewrite lazyUntil_unfold.
      assert (startsWith close (c :: captured' ++ close) = false) as ->.
      { apply not_true_iff_false. intros Hstarts.
        apply (startsWith_prefix _ _ after') in Hstarts.
        apply lazyUntil_app in Hrest. rewrite Hrest in Hclose.
        cbn [app] in Hstarts. rewrite <- app_assoc in Hstarts. congruence. }
      by rewrite Hc, Hagain.
Qed.

Lemma matchTref_inv line match0 match1 :
  matchTref line = Some (match0, match1) →
  match0 = js "[[tref:" ++ match1 ++ js "]]"
  ∧ ∃ suffix, matchAt (js "[[tref:") (js "]]") suffix = Some match1.
Proof.
  induction line as [|c line IH]; cbn [matchTref].
  - destruct (matchAt _ _ []) as [captured|] eqn:Hat; [|done].
    intros [= <- <-]. by eauto.
  - destruct (matchAt _ _ (c :: line)) as [captured|] eqn:Hat; [|done].
    intros [= <- <-]. by eauto.
Qed.

Lemma matchAt_captured opening close s captured :
  matchAt opening close s = Some captured →
  Forall (λ c, isLineTerminator c = false) captured
  ∧ matchAt opening close (opening ++ captured ++ close) = Some captured.
Proof.
  unfold matchAt. destruct (startsWith opening s); [|done].
  destruct (lazyUntil close (drop (length opening) s)) as [[captured' after]|] eqn:Hlazy;
    [|done].
  intros [= <-]. apply lazyUntil_captured in Hlazy as [? Hagain]. split; [done|].
  by rewrite startsWith_self, drop_app_length, Hagain.
Qed.

(** The marker a line gives is a marker line itself, with the same
    reading. *)
Lemma markerOf_match0 line match0 spec term :
  markerOf line = Some (match0, spec, term) →
  markerOf match0 = Some (match0, spec, term)
  ∧ Forall (λ c, c ≠ 10%N) match0.
Proof.
  unfold markerOf. destruct (startsWith _ line); [|done].
  destruct (matchTref line) as [[m0 m1]|] eqn:Hmatch; [|done].
  intros [= <- <- <-]. apply matchTref_inv in Hmatch as [-> [suffix Hat]].
  apply matchAt_captured in Hat as [Hcaptured Hagain]. split.
  - rewrite startsWith_self.
    assert (matchTref (js "[[tref:" ++ m1 ++ js "]]")
            = Some (js "[[tref:" ++ m1 ++ js "]]", m1)) as ->; [|done].
    change (js "[[tref:" ++ m1 ++ js "]]")
      with (91%N :: (js "[tref:" ++ m1 ++ js "]]")) at 1.
    cbn [matchTref].
    change (91%N :: (js "[tref:" ++ m1 ++ js "]]"))
      with (js "[[tref:" ++ m1 ++ js "]]").
    by rewrite Hagain.
  - apply Forall_app. split; [by repeat constructor|].
    apply Forall_app. split; [|by repeat constructor].
    eapply Forall_impl; [done|]. by intros c Hc ->.
Qed.

Lemma splitOn_line sep line rest :
  Forall (λ c, c ≠ sep) line →
  splitOn sep (line ++ sep :: rest) = line :: splitOn sep rest.
Proof.
  induction 1 as [|c line Hc _ IH]; cbn [app splitOn].
  - by rewrite bool_decide_eq_true_2.
  - by rewrite bool_decide_eq_false_2, IH.
Qed.

Lemma splitOn_whole sep line :
  Forall (λ c, c ≠ sep) line → splitOn sep line = [line].
Proof.
  induction 1 as [|c line Hc _ IH]; cbn [splitOn]; [done|].
  by rewrite bool_decide_eq_false_2, IH.
Qed.

(** X18.  What [prepareTref] has written it writes again: on a file that
    holds the transclusion of an entry, with no further marker line after
    the first line, another run with the same index leaves the file as it
    is and logs nothing. *)
Theorem prepareTref_regenerates (xtrefs : list XTref.t)
    (name line match0 spec : jsstring) (term : option jsstring) (entry : XTref.t) :
  extname name = js ".md" →
  markerOf line = Some (match0, spec, term) →
  lookupEntry xtrefs spec term = Some entry →
  (∀ l, l ∈ tail (splitOn 10%N
                   (transclusion match0 (XTref.commitHash entry)
                      (removeDefParts 0 (XTref.content entry)))) →
        markerOf l = None) →
  processItem (Some xtrefs)
    (File name (transclusion match0 (XTref.commitHash entry)
                  (removeDefParts 0 (XTref.content entry))))
  = (File name (transclusion match0 (XTref.commitHash entry)
                  (removeDefParts 0 (XTref.content entry))), []).
Proof.
  intros Hmd Hmarker Hentry. apply markerOf_match0 in Hmarker as [Hmarker Hline].
  cbn [processItem]. rewrite bool_decide_eq_true_2 by done. unfold processFile.
  unfold transclusion at 1 3. cbn [app]. rewrite splitOn_line by done.
  cbn [tail]. intros Hrest. cbn [processLines].
  rewrite (processLine_found _ _ _ _ _ _ _ Hmarker Hentry).
  rewrite processLines_others; [done|]. exact Hrest.
Qed.

Lemma removeDefParts_sublist inMatch content :
  sublist (removeDefParts inMatch content) content.
Proof.
  revert inMatch. induction content as [|c content IH]; intros inMatch; [done|].
  cbn [removeDefParts]. destruct inMatch; [|by apply sublist_cons].
  destruct (matchAt _ _ (c :: content)); [by apply sublist_cons|by apply sublist_skip].
Qed.

(** X19.  Removing the [[[def: ...]]:] parts only takes characters away:
    what is left is the content without some of its characters, in the same
    order; and a content in which no [[[def: ] occurs is left as it is. *)
Theorem removeDefParts_only_removes (content : jsstring) :
  sublist (removeDefParts 0 content) content
  ∧ ((∀ before after, content ≠ before ++ js "[[def: " ++ after) →
     removeDefParts 0 content = content).
Proof.
  split; [apply removeDefParts_sublist|].
  induction content as [|c content IH]; [done|]. intros Hfree.
  rewrite removeDefParts_other.
  - f_equal. apply IH. intros before after ->. by apply (Hfree (c :: before) after).
  - unfold matchAt. destruct (startsWith _ (c :: content)) eqn:Hstarts; [|done].
    apply startsWith_app in Hstarts. by destruct (Hfree [] _ Hstarts).
Qed.

Lemma lazyUntil_fresh captured after :
  Forall (λ c, c ≠ 93%N ∧ isLineTerminator c = false) captured →
  lazyUntil (js "]]") (captured ++ js "]]" ++ after) = Some (captured, after).
Proof.
  induction 1 as [|c captured [Hc Hline] _ IH]; [done|].
  cbn [app]. rewrite lazyUntil_unfold.
  assert (startsWith (js "]]") (c :: captured ++ js "]]" ++ after) = false) as ->.
  { cbn. by rewrite bool_decide_eq_false_2. }
  by rewrite Hline, IH.
Qed.

(** X20.  A line that begins with [[[tref:spec,term]]] is read as the
    marker it begins with, naming the trimmed [spec] and the trimmed [term],
    when [spec] and [term] hold no comma, no closing bracket and no line
    terminator. *)
Theorem markerOf_generated (spec term rest : jsstring) :
  Forall (λ c, c ≠ 44%N ∧ c ≠ 93%N ∧ isLineTerminator c = false) (spec ++ term) →
  markerOf (js "[[tref:" ++ spec ++ [44%N] ++ term ++ js "]]" ++ rest)
  = Some (js "[[tref:" ++ spec ++ [44%N] ++ term ++ js "]]",
          trim spec, Some (trim term)).
Proof.
  intros [Hspec Hterm]%Forall_app. unfold markerOf. rewrite startsWith_self.
  assert (matchAt (js "[[tref:") (js "]]")
            (js "[[tref:" ++ spec ++ [44%N] ++ term ++ js "]]" ++ rest)
          = Some (spec ++ [44%N] ++ term)) as Hat.
  { unfold matchAt. rewrite startsWith_self, drop_app_length.
    replace (spec ++ [44%N] ++ term ++ js "]]" ++ rest)
      with ((spec ++ [44%N] ++ term) ++ js "]]" ++ rest)
      by (by rewrite <- !app_assoc).
    rewrite lazyUntil_fresh; [done|].
    apply Forall_app. split; [eapply Forall_impl; [done|]; by intros c (? & ? & ?)|].
    apply Forall_app. split; [by repeat constructor|].
    eapply Forall_impl; [done|]; by intros c (? & ? & ?). }
  assert (matchTref (js "[[tref:" ++ spec ++ [44%N] ++ term ++ js "]]" ++ rest)
          = Some (js "[[tref:" ++ (spec ++ [44%N] ++ term) ++ js "]]",
                  spec ++ [44%N] ++ term)) as ->.
  { change (js "[[tref:" ++ spec ++ [44%N] ++ term ++ js "]]" ++ rest)
      with (91%N :: (js "[tref:" ++ spec ++ [44%N] ++ term ++ js "]]" ++ rest)) at 1.
    cbn [matchTref].
    change (91%N :: (js "[tref:" ++ spec ++ [44%N] ++ term ++ js "]]" ++ rest))
      with (js "[[tref:" ++ spec ++ [44%N] ++ term ++ js "]]" ++ rest).
    by rewrite Hat. }
  cbn [app]. rewrite splitOn_line, splitOn_whole.
  - cbn. by rewrite <- !app_assoc.
  - eapply Forall_impl; [done|]; by intros c (? & ? & ?).
  - eapply Forall_impl; [done|]; by intros c (? & ? & ?).
Qed.

(** ** Validating again *)

Lemma createIndicator_class type details :
  hasClass indicatorClass (createIndicator type details) = true.
Proof. apply bool_decide_eq_true. cbn. left. Qed.

Lemma validateXref_twice (cfg : Config) following liveData cachedXtref :
  validateXref cfg (validateXref cfg following liveData cachedXtref)
    liveData cachedXtref
  = validateXref cfg following liveData cachedXtref.
Proof.
  destruct cachedXtref as [x|]; [|done]. unfold validateXref.
  destruct (negb (truthy (XTref.ghPageUrl x))); [done|].
  destruct (liveData !! XTref.ghPageUrl x) as [[liveTerms|]|]; [| |done].
  - cbv zeta. destruct (liveTerms !! toLowerCase (XTref.term x)) as [liveTerm|].
    + destruct (lessThan _ _).
      * apply insertIndicatorAfterElement_twice, createIndicator_class.
      * destruct (showValidIndicators cfg); [|done].
        apply insertIndicatorAfterElement_twice, createIndicator_class.
    + apply insertIndicatorAfterElement_twice, createIndicator_class.
  - apply insertIndicatorAfterElement_twice, createIndicator_class.
Qed.

Lemma validateTref_twice (cfg : Config) element liveData cachedXtref :
  validateTref cfg (validateTref cfg element liveData cachedXtref)
    liveData cachedXtref
  = validateTref cfg element liveData cachedXtref.
Proof.
  destruct cachedXtref as [x|]; [|done]. unfold validateTref.
  destruct (negb (truthy (XTref.ghPageUrl x))); [done|].
  destruct (liveData !! XTref.ghPageUrl x) as [[liveTerms|]|]; [| |done].
  - cbv zeta. destruct (liveTerms !! toLowerCase (XTref.term x)) as [liveTerm|].
    + destruct (lessThan _ _).
      * apply insertIndicatorIntoTref_twice, createIndicator_class.
      * destruct (showValidIndicators cfg); [|done].
        apply insertIndicatorIntoTref_twice, createIndicator_class.
    + apply insertIndicatorIntoTref_twice, createIndicator_class.
  - apply insertIndicatorIntoTref_twice, createIndicator_class.
Qed.

(** X21.  Validating a reference a second time, with the same live data
    and the same entry of the index, changes nothing: [validateXref] and
    [validateTref] leave the result of their first call as it is. *)
Theorem validate_twice (cfg : Config) (following : list node) (element : node)
    (liveData : gmap jsstring (option (gmap jsstring LiveTerm.t)))
    (cachedXtref : option XTref.t) :
  validateXref cfg (validateXref cfg following liveData cachedXtref)
    liveData cachedXtref
  = validateXref cfg following liveData cachedXtref
  ∧ validateTref cfg (validateTref cfg element liveData cachedXtref)
      liveData cachedXtref
    = validateTref cfg element liveData cachedXtref.
Proof. split; [apply validateXref_twice|apply validateTref_twice]. Qed.

(** ** The shape of a normalised text *)

Lemma punctuation_not_whiteSpace c : isPunctuation c = true → isWhiteSpace c = false.
Proof.
  unfold isPunctuation. rewrite !orb_true_iff.
  intros [[[[[H|H]|H]|H]|H]|H]; apply N.eqb_eq in H; by subst.
Qed.

Lemma spacePunctuation_cons afterPunctuation c s :
  spacePunctuation afterPunctuation (c :: s) =
    if isWhiteSpace c then
      if afterPunctuation || punctuationAhead (c :: s)
      then spacePunctuation afterPunctuation s
      else c :: spacePunctuation false s
    else if isPunctuation c then c :: 32%N :: spacePunctuation true s
    else c :: spacePunctuation false s.
Proof. done. Qed.

Lemma punctuationAhead_cons c s :
  punctuationAhead (c :: s) = if isWhiteSpace c then punctuationAhead s else isPunctuation c.
Proof. unfold punctuationAhead. rewrite dropWhile_cons. by destruct (isWhiteSpace c). Qed.

Lemma dropWhile_length {A : Type} (p : A → bool) l : length (dropWhile p l) ≤ length l.
Proof.
  induction l as [|x l IH]; [done|]. rewrite dropWhile_cons.
  destruct (p x); simpl; lia.
Qed.

Lemma dropWhile_head {A : Type} (p : A → bool) l x l' :
  dropWhile p l = x :: l' → p x = false.
Proof.
  induction l as [|y l IH]; [done|]. rewrite dropWhile_cons.
  destruct (p y) eqn:Hy; [done|]. by intros [= <- _].
Qed.

Lemma dropWhile_split {A : Type} (p : A → bool) l :
  ∃ pre, l = pre ++ dropWhile p l ∧ forallb p pre = true.
Proof.
  induction l as [|x l (pre & Hl & Hpre)]; [by exists []|].
  rewrite dropWhile_cons. destruct (p x) eqn:Hx; [|by exists []].
  exists (x :: pre). cbn. by rewrite Hx, Hpre, <- Hl.
Qed.

Lemma spacePunctuation_spaced_fuel n afterPunctuation s :
  length s ≤ n →
  spaced afterPunctuation (spacePunctuation afterPunctuation (collapseWhiteSpace s)).
Proof.
  revert afterPunctuation s.
  induction n as [|n IH]; intros b [|c t] Hlen;
    try (by apply spaced_nil); [cbn in Hlen; lia|].
  cbn in Hlen. rewrite collapseWhiteSpace_head. destruct (isWhiteSpace c) eqn:Hc.
  - pose proof (dropWhile_length isWhiteSpace t) as Hdrop.
    rewrite spacePunctuation_cons. change (isWhiteSpace 32) with true. cbv iota.
    destruct (b || _) eqn:Hahead; [apply IH; lia|].
    apply orb_false_iff in Hahead as [-> Hahead].
    destruct (dropWhile isWhiteSpace t) as [|x t'] eqn:Ht'; [apply spaced_end|].
    pose proof (dropWhile_head _ _ _ _ Ht') as Hx.
    rewrite collapseWhiteSpace_other in Hahead |- * by done.
    rewrite !punctuationAhead_cons, Hx in Hahead.
    change (isWhiteSpace 32) with true in Hahead. cbv iota in Hahead.
    rewrite spacePunctuation_cons, Hx, Hahead.
    apply spaced_space; [done..|]. apply IH. cbn in Hdrop. lia.
  - rewrite spacePunctuation_cons, Hc. destruct (isPunctuation c) eqn:Hp.
    + apply spaced_punctuation; [done|]. apply IH. lia.
    + apply spaced_plain; [done..|]. apply IH. lia.
Qed.

Lemma spacePunctuation_spaced afterPunctuation s :
  spaced afterPunctuation (spacePunctuation afterPunctuation (collapseWhiteSpace s)).
Proof. by apply (spacePunctuation_spaced_fuel (length s)). Qed.

(** [spacePunctuation] leaves a text of this shape as it is. *)
Lemma spaced_spacePunctuation afterPunctuation s :
  spaced afterPunctuation s → spacePunctuation afterPunctuation s = s.
Proof.
  induction 1 as [b|b c s Hc Hp _ IH|b c s Hp _ IH|c s Hc Hp _ IH|].
  - done.
  - by rewrite spacePunctuation_cons, Hc, Hp, IH.
  - rewrite spacePunctuation_cons, (punctuation_not_whiteSpace c Hp), Hp.
    rewrite spacePunctuation_cons. change (isWhiteSpace 32) with true. cbv iota.
    rewrite orb_true_l. by rewrite IH.
  - rewrite spacePunctuation_cons. change (isWhiteSpace 32) with true. cbv iota.
    rewrite !punctuationAhead_cons, Hc. change (isWhiteSpace 32) with true.
    cbv iota. rewrite Hp. cbn [orb].
    by rewrite spacePunctuation_cons, Hc, Hp, IH.
  - done.
Qed.

Lemma spaced_head afterPunctuation c s :
  spaced afterPunctuation (c :: s) → afterPunctuation = true → isWhiteSpace c = false.
Proof.
  inversion 1; subst; try done. intros _. by apply punctuation_not_whiteSpace.
Qed.

Lemma spaced_whiteSpace afterPunctuation s :
  spaced afterPunctuation s → Forall (λ c, isWhiteSpace c = true → c = 32%N) s.
Proof.
  induction 1 as [b|b c s Hc Hp _ IH|b c s Hp _ IH|c s Hc Hp _ IH|].
  - done.
  - constructor; [by rewrite Hc|done].
  - constructor; [by rewrite (punctuation_not_whiteSpace c Hp)|by constructor].
  - constructor; [done|]. constructor; [by rewrite Hc|done].
  - by constructor.
Qed.

Lemma spaced_pairs afterPunctuation s before c1 c2 after :
  spaced afterPunctuation s → s = before ++ c1 :: c2 :: after →
  (isWhiteSpace c1 = true → isWhiteSpace c2 = false)
  ∧ (isPunctuation c1 = true → c2 = 32%N).
Proof.
  intros Hs. revert before.
  induction Hs as [b|b c s Hc Hp Hs IH|b c s Hp Hs IH|c s Hc Hp Hs IH|];
    intros before Heq.
  - by destruct before.
  - destruct before as [|c0 before]; simplify_eq/=; [|by eapply IH].
    split; congruence.
  - destruct before as [|c0 [|c0' before]]; simplify_eq/=; [| |by eapply IH].
    + split; [|done]. by rewrite (punctuation_not_whiteSpace c1 Hp).
    + split; [|done]. intros _. by eapply spaced_head.
  - destruct before as [|c0 [|c0' before]]; simplify_eq/=; [| |by eapply IH].
    + split; [done|done].
    + split; congruence.
  - by destruct before as [|c0 [|c0' before]].
Qed.

Lemma collapseWhiteSpace_Forall (P : N → Prop) s :
  P 32%N → Forall P s → Forall P (collapseWhiteSpace s).
Proof.
  intros Hspace. induction 1 as [|c s Hc Hs IH]; [done|].
  rewrite collapseWhiteSpace_cons. destruct (isWhiteSpace c); [|by constructor].
  destruct s as [|c' s]; [by repeat constructor|].
  destruct (isWhiteSpace c'); [done|by constructor].
Qed.

Lemma spacePunctuation_Forall (P : N → Prop) afterPunctuation s :
  P 32%N → Forall P s → Forall P (spacePunctuation afterPunctuation s).
Proof.
  intros Hspace Hs. revert afterPunctuation.
  induction Hs as [|c s Hc Hs IH]; intros b; [done|].
  rewrite spacePunctuation_cons. destruct (isWhiteSpace c).
  - destruct (b || _); [done|by constructor].
  - destruct (isPunctuation c); by repeat constructor.
Qed.

Lemma forallb_rev {A : Type} (p : A → bool) l :
  forallb p l = true → forallb p (rev l) = true.
Proof.
  rewrite !forallb_forall. intros H x Hx. apply H. by apply in_rev.
Qed.

(** A text is its trimmed form between two runs of white space. *)
Lemma trim_infix s :
  ∃ pre post, s = pre ++ trim s ++ post
    ∧ forallb isWhiteSpace pre = true ∧ forallb isWhiteSpace post = true.
Proof.
  unfold trim, trimEnd, trimStart.
  destruct (dropWhile_split isWhiteSpace s) as (pre & Hs & Hpre).
  destruct (dropWhile_split isWhiteSpace (rev (dropWhile isWhiteSpace s)))
    as (post & Hrev & Hpost).
  exists pre, (rev post). split; [|split; [done|by apply forallb_rev]].
  rewrite <- rev_app_distr, <- Hrev, rev_involutive. done.
Qed.

Lemma dropWhile_fixed {A : Type} (p : A → bool) l :
  dropWhile p (dropWhile p l) = dropWhile p l.
Proof.
  induction l as [|x l IH]; [done|]. rewrite dropWhile_cons.
  destruct (p x) eqn:Hx; [done|]. by rewrite dropWhile_cons, Hx.
Qed.

Lemma trimStart_trimEnd s :
  trimStart (trimEnd (trimStart s)) = trimEnd (trimStart s).
Proof.
  unfold trimStart, trimEnd.
  destruct (dropWhile isWhiteSpace s) as [|c t] eqn:Hs; [done|].
  pose proof (dropWhile_head _ _ _ _ Hs) as Hc.
  destruct (dropWhile_split isWhiteSpace (rev (c :: t))) as (post & Hrev & Hpost).
  assert (c :: t = rev (dropWhile isWhiteSpace (rev (c :: t))) ++ rev post) as Heq.
  { by rewrite <- rev_app_distr, <- Hrev, rev_involutive. }
  destruct (rev (dropWhile isWhiteSpace (rev (c :: t)))) as [|c' t'].
  - destruct (rev post) as [|p post'] eqn:Hp; [done|]. cbn in Heq.
    injection Heq as <- _. apply forallb_rev in Hpost. rewrite Hp in Hpost.
    cbn in Hpost. by rewrite Hc in Hpost.
  - cbn in Heq. injection Heq as <- _. by rewrite dropWhile_cons, Hc.
Qed.

Lemma trim_trim s : trim (trim s) = trim s.
Proof.
  unfold trim. rewrite trimStart_trimEnd. unfold trimEnd.
  by rewrite rev_involutive, dropWhile_fixed.
Qed.

Lemma Forall_infix {A : Type} (P : A → Prop) pre s post :
  Forall P (pre ++ s ++ post) → Forall P s.
Proof. by intros [_ [? _]%Forall_app]%Forall_app. Qed.

(** The text before it is trimmed. *)
Lemma normalizeText_untrimmed text :
  ∃ spacedText,
    normalizeText text = trim spacedText
    ∧ spaced false spacedText
    ∧ Forall (λ c, c = 32%N ∨ (∃ c', c = lowerUnit c') ∧ isZeroWidth c = false)
        spacedText.
Proof.
  eexists. split; [done|]. split; [apply spacePunctuation_spaced|].
  apply spacePunctuation_Forall; [by left|].
  apply collapseWhiteSpace_Forall; [by left|].
  apply Forall_forall. intros c [Hc Hz]%list_elem_of_In%filter_In. right. split.
  - unfold toLowerCase in Hc. apply in_map_iff in Hc as (c' & <- & _). by eauto.
  - by apply negb_true_iff.
Qed.

(** X22.  A normalised text consists of lower-cased characters and
    spaces; it holds no zero-width character and no leading or trailing
    white space; its only white space is single spaces, never two in a row;
    and each of its punctuation characters [.,;:!?] is followed by a space,
    unless it ends the text. *)
Theorem normalizeContent_shape (html : jsstring) :
  Forall (λ c, (c = 32%N ∨ ∃ c', c = lowerUnit c')
               ∧ isZeroWidth c = false ∧ (isWhiteSpace c = true → c = 32%N))
    (normalizeContent html)
  ∧ trim (normalizeContent html) = normalizeContent html
  ∧ (∀ before c1 c2 after,
       normalizeContent html = before ++ c1 :: c2 :: after →
       (isWhiteSpace c1 = true → isWhiteSpace c2 = false)
       ∧ (isPunctuation c1 = true → c2 = 32%N)).
Proof.
  rewrite normalizeContent_text.
  destruct (normalizeText_untrimmed (plainText html)) as (s & -> & Hs & Hchars).
  destruct (trim_infix s) as (pre & post & Heq & _ & _). split; [|split].
  - apply (Forall_infix _ pre _ post). rewrite <- Heq.
    pose proof (spaced_whiteSpace _ _ Hs) as Hspaces.
    apply Forall_forall. intros c Hc. split; [|split].
    + rewrite Forall_forall in Hchars.
      destruct (Hchars c Hc) as [->|[? _]]; [by left|by right].
    + rewrite Forall_forall in Hchars. by destruct (Hchars c Hc) as [->|[_ ?]].
    + rewrite Forall_forall in Hspaces. by apply Hspaces.
  - apply trim_trim.
  - intros before c1 c2 after Hout.
    apply (spaced_pairs _ s (pre ++ before) c1 c2 (after ++ post) Hs).
    rewrite Heq at 1. rewrite Hout. by rewrite <- !app_assoc.
Qed.

(** ** Normalising a normalised text *)

Lemma trim_run run s :
  forallb isWhiteSpace run = true → trim (run ++ s) = trim s.
Proof. intros Hrun. unfold trim, trimStart. by rewrite dropWhile_app_all. Qed.

Lemma trim_app_run s run :
  forallb isWhiteSpace run = true → trim (s ++ run) = trim s.
Proof.
  intros Hrun. unfold trim, trimStart.
  destruct (dropWhile_split isWhiteSpace s) as (pre & Hs & Hpre).
  rewrite Hs at 1. rewrite <- app_assoc, dropWhile_app_all by done.
  destruct (dropWhile isWhiteSpace s) as [|c t] eqn:Hdrop.
  - cbn [app]. rewrite <- (app_nil_r run), dropWhile_app_all by done. done.
  - pose proof (dropWhile_head _ _ _ _ Hdrop) as Hc.
    cbn [app]. rewrite dropWhile_cons, Hc. unfold trimEnd.
    change (c :: t ++ run) with ((c :: t) ++ run).
    rewrite rev_app_distr, dropWhile_app_all; [done|by apply forallb_rev].
Qed.

Lemma trim_spacePunctuation_space s :
  trim (spacePunctuation false (32%N :: s)) = trim (spacePunctuation false s).
Proof.
  rewrite spacePunctuation_cons. change (isWhiteSpace 32) with true. cbv iota.
  destruct (false || _); [done|]. by apply (trim_run [32%N]).
Qed.

Lemma trim_spacePunctuation_dropWhile s :
  trim (spacePunctuation false (collapseWhiteSpace (dropWhile isWhiteSpace s)))
  = trim (spacePunctuation false (collapseWhiteSpace s)).
Proof.
  destruct s as [|c s]; [done|]. rewrite dropWhile_cons.
  destruct (isWhiteSpace c) eqn:Hc; [|done].
  by rewrite (collapseWhiteSpace_space c s Hc), trim_spacePunctuation_space.
Qed.

Lemma collapseWhiteSpace_app_run s run :
  forallb isWhiteSpace run = true →
  collapseWhiteSpace (s ++ run) = collapseWhiteSpace s
  ∨ collapseWhiteSpace (s ++ run) = collapseWhiteSpace s ++ [32%N].
Proof.
  intros Hrun.
  assert (collapseWhiteSpace run = [] ∨ collapseWhiteSpace run = [32%N]) as Hcollapsed.
  { destruct run as [|r run]; [by left|right].
    rewrite <- (app_nil_r (r :: run)), collapseWhiteSpace_run by done. done. }
  induction s as [|c s IH]; [done|]. cbn [app].
  rewrite !collapseWhiteSpace_cons. destruct (isWhiteSpace c); cycle 1.
  { destruct IH as [-> | ->]; [by left|by right]. }
  destruct s as [|c' s].
  - cbn [app]. destruct run as [|r run]; [by left|].
    cbn in Hrun. apply andb_true_iff in Hrun as [Hr Hrun]. rewrite Hr. left.
    rewrite <- (app_nil_r (r :: run)), collapseWhiteSpace_run; [done|done|].
    cbn. by rewrite Hr, Hrun.
  - cbn [app] in IH |- *.
    destruct (isWhiteSpace c'); destruct IH as [-> | ->];
      (by left) || (by right).
Qed.

Lemma punctuationAhead_app_space s :
  punctuationAhead (s ++ [32%N]) = punctuationAhead s.
Proof.
  induction s as [|c s IH]; [done|]. cbn [app].
  rewrite !punctuationAhead_cons. by destruct (isWhiteSpace c).
Qed.

Lemma spacePunctuation_app_space afterPunctuation s :
  spacePunctuation afterPunctuation (s ++ [32%N]) = spacePunctuation afterPunctuation s
  ∨ spacePunctuation afterPunctuation (s ++ [32%N])
    = spacePunctuation afterPunctuation s ++ [32%N].
Proof.
  revert afterPunctuation. induction s as [|c s IH]; intros b.
  - cbn. destruct b; [by left|by right].
  - cbn [app]. rewrite !spacePunctuation_cons.
    change (c :: s ++ [32%N]) with ((c :: s) ++ [32%N]).
    rewrite punctuationAhead_app_space. destruct (isWhiteSpace c).
    + destruct (b || _); [done|].
      destruct (IH false) as [-> | ->]; [by left|by right].
    + destruct (isPunctuation c).
      * destruct (IH true) as [-> | ->]; [by left|by right].
      * destruct (IH false) as [-> | ->]; [by left|by right].
Qed.

Section Normalised.

Hypothesis lower_whiteSpace : ∀ c, isWhiteSpace (lowerUnit c) = isWhiteSpace c.
Hypothesis lower_zeroWidth : ∀ c, isZeroWidth (lowerUnit c) = isZeroWidth c.

Lemma lowerVisible_app s1 s2 :
  List.filter (λ c, negb (isZeroWidth c)) (toLowerCase (s1 ++ s2))
  = List.filter (λ c, negb (isZeroWidth c)) (toLowerCase s1)
    ++ List.filter (λ c, negb (isZeroWidth c)) (toLowerCase s2).
Proof. unfold toLowerCase. by rewrite map_app, List.filter_app. Qed.

Lemma normalizeText_run_start run s :
  forallb isWhiteSpace run = true → normalizeText (run ++ s) = normalizeText s.
Proof.
  intros Hrun. unfold normalizeText. rewrite lowerVisible_app.
  destruct (visible_lower_run lower_whiteSpace lower_zeroWidth run Hrun) as [Hws _].
  destruct (List.filter _ (toLowerCase run)) as [|r run'] eqn:Hvisible; [done|].
  rewrite collapseWhiteSpace_run by done.
  by rewrite trim_spacePunctuation_space, trim_spacePunctuation_dropWhile.
Qed.

Lemma normalizeText_run_end s run :
  forallb isWhiteSpace run = true → normalizeText (s ++ run) = normalizeText s.
Proof.
  intros Hrun. unfold normalizeText. rewrite lowerVisible_app.
  destruct (visible_lower_run lower_whiteSpace lower_zeroWidth run Hrun) as [Hws _].
  destruct (collapseWhiteSpace_app_run
              (List.filter (λ c, negb (isZeroWidth c)) (toLowerCase s))
              _ Hws) as [-> | ->]; [done|].
  destruct (spacePunctuation_app_space false
              (collapseWhiteSpace
                 (List.filter (λ c, negb (isZeroWidth c)) (toLowerCase s))))
    as [-> | ->]; [done|].
  by apply trim_app_run.
Qed.

Lemma normalizeText_trim s : normalizeText (trim s) = normalizeText s.
Proof.
  destruct (trim_infix s) as (pre & post & Hs & Hpre & Hpost).
  rewrite Hs at 2. by rewrite normalizeText_run_start, normalizeText_run_end.
Qed.

(** X23.  [normalizeContent] ignores the white space that begins and ends
    the text of its input: inputs whose texts are equal once trimmed have
    the same normalised text. *)
Theorem normalizeContent_trim (html1 html2 : jsstring) :
  trim (plainText html1) = trim (plainText html2) →
  normalizeContent html1 = normalizeContent html2.
Proof.
  intros Htrim. rewrite !normalizeContent_text.
  by rewrite <- (normalizeText_trim (plainText html1)), Htrim, normalizeText_trim.
Qed.

Hypothesis lower_idempotent : ∀ c, lowerUnit (lowerUnit c) = lowerUnit c.

Lemma lowerVisible_cons c s :
  (∃ c', c = lowerUnit c') → isZeroWidth c = false →
  List.filter (λ c, negb (isZeroWidth c)) (toLowerCase (c :: s))
  = c :: List.filter (λ c, negb (isZeroWidth c)) (toLowerCase s).
Proof.
  intros [c' ->] Hz. cbn [toLowerCase map List.filter].
  by rewrite lower_idempotent, Hz.
Qed.

Lemma lowerVisible_space s :
  List.filter (λ c, negb (isZeroWidth c)) (toLowerCase (32%N :: s))
  = lowerUnit 32 :: List.filter (λ c, negb (isZeroWidth c)) (toLowerCase s).
Proof. cbn [toLowerCase map List.filter]. by rewrite lower_zeroWidth. Qed.

Lemma lowerVisible_head afterPunctuation s :
  afterPunctuation = true → spaced afterPunctuation s →
  Forall (λ c, c = 32%N ∨ (∃ c', c = lowerUnit c') ∧ isZeroWidth c = false) s →
  dropWhile isWhiteSpace (List.filter (λ c, negb (isZeroWidth c)) (toLowerCase s))
  = List.filter (λ c, negb (isZeroWidth c)) (toLowerCase s).
Proof.
  intros Hb Hs Hgood. destruct s as [|c s]; [done|].
  pose proof (spaced_head _ _ _ Hs Hb) as Hc.
  apply Forall_cons in Hgood as [[->|[Hlower Hz]] _]; [done|].
  by rewrite lowerVisible_cons, dropWhile_cons, Hc.
Qed.

(** The steps before [spacePunctuation] leave a text of the shape of its
    results as it is. *)
Lemma spaced_collapseWhiteSpace afterPunctuation s :
  spaced afterPunctuation s →
  Forall (λ c, c = 32%N ∨ (∃ c', c = lowerUnit c') ∧ isZeroWidth c = false) s →
  collapseWhiteSpace (List.filter (λ c, negb (isZeroWidth c)) (toLowerCase s)) = s.
Proof.
  assert (isWhiteSpace (lowerUnit 32) = true) as Hspace by by rewrite lower_whiteSpace.
  induction 1 as [b|b c s Hc Hp Hs IH|b c s Hp Hs IH|c s Hc Hp Hs IH|]; intros Hgood.
  - done.
  - apply Forall_cons in Hgood as [[->|[Hlower Hz]] Hgood]; [done|].
    by rewrite lowerVisible_cons, collapseWhiteSpace_other, IH.
  - apply Forall_cons in Hgood as [[->|[Hlower Hz]] [_ Hgood]%Forall_cons]; [done|].
    rewrite lowerVisible_cons by done.
    rewrite collapseWhiteSpace_other by by apply punctuation_not_whiteSpace.
    rewrite lowerVisible_space, collapseWhiteSpace_space by done.
    by rewrite (lowerVisible_head true), IH.
  - apply Forall_cons in Hgood as [_ [[->|[Hlower Hz]] Hgood]%Forall_cons]; [done|].
    rewrite lowerVisible_space, collapseWhiteSpace_space by done.
    rewrite lowerVisible_cons, dropWhile_cons, Hc by done.
    by rewrite collapseWhiteSpace_other, IH.
  - rewrite lowerVisible_space. cbn [toLowerCase map List.filter].
    by rewrite collapseWhiteSpace_cons, Hspace.
Qed.

Lemma normalizeText_idempotent text :
  normalizeText (normalizeText text) = normalizeText text.
Proof.
  destruct (normalizeText_untrimmed text) as (s & -> & Hs & Hgood).
  rewrite normalizeText_trim. unfold normalizeText.
  by rewrite (spaced_collapseWhiteSpace false), spaced_spacePunctuation.
Qed.

(** X24.  Normalising is idempotent: an input whose text is a normalised
    text is normalised to this very text. *)
Theorem normalizeContent_idempotent (html html' : jsstring) :
  plainText html' = normalizeContent html →
  normalizeContent html' = normalizeContent html.
Proof.
  intros Htext. rewrite (normalizeContent_text html'), Htext.
  rewrite normalizeContent_text. apply normalizeText_idempotent.
Qed.

End Normalised.

(** ** Finding the cached entry *)

Lemma takeWhile_until {A : Type} (p : A → bool) l x rest :
  Forall (λ y, p y = true) l → p x = false →
  takeWhile p (l ++ x :: rest) = l ∧ dropWhile p (l ++ x :: rest) = x :: rest.
Proof.
  intros Hl Hx. induction Hl as [|y l Hy _ [IH1 IH2]]; cbn.
  - by rewrite Hx.
  - by rewrite Hy, IH1, IH2.
Qed.

Lemma takeWhile_whole {A : Type} (p : A → bool) l :
  Forall (λ y, p y = true) l → takeWhile p l = l.
Proof. induction 1 as [|y l Hy _ IH]; cbn; [done|]. by rewrite Hy, IH. Qed.

Lemma matchTerm_href spec term :
  spec ≠ [] → Forall (λ c, c ≠ 58%N) spec →
  term ≠ [] → Forall (λ c, isLineTerminator c = false) term →
  matchTerm (js "#term:" ++ spec ++ [58%N] ++ term) = Some (spec, term).
Proof.
  intros Hspec Hcolon Hterm Hline.
  assert (matchTermAt (js "#term:" ++ spec ++ [58%N] ++ term) = Some (spec, term))
    as Hat.
  { unfold matchTermAt. rewrite startsWith_self.
    change 6 with (length (js "#term:")). rewrite drop_app_length. cbv zeta.
    change ([58%N] ++ term) with (58%N :: term).
    destruct (takeWhile_until (λ c, negb (c =? 58)%N) spec 58%N term) as [-> ->];
      [|done|].
    { eapply Forall_impl; [done|]. intros c Hc. cbn.
      by destruct (N.eqb_spec c 58). }
    rewrite takeWhile_whole.
    - by destruct spec, term.
    - eapply Forall_impl; [done|]. by intros c ->. }
  change (js "#term:" ++ spec ++ [58%N] ++ term)
    with (35%N :: (js "term:" ++ spec ++ [58%N] ++ term)) at 1.
  cbn [matchTerm].
  change (35%N :: (js "term:" ++ spec ++ [58%N] ++ term))
    with (js "#term:" ++ spec ++ [58%N] ++ term).
  by rewrite Hat.
Qed.

(** X25.  An anchor whose [data-local-href] is [#term:], the specification
    of an index entry, a colon and a term that is the entry's term up to
    letter case, is given an entry of this specification and this term up
    to case by [findCachedXtrefForXref], and the entry itself when no other
    has them; the specification name has to be free of colons and the term
    of line terminators. *)
Theorem findCachedXtrefForXref_href (xtrefs : list XTref.t) (element : node)
    (x : XTref.t) (termName : jsstring) :
  x ∈ xtrefs →
  getAttribute "data-local-href" element
    = Some (js "#term:" ++ XTref.externalSpec x ++ [58%N] ++ termName) →
  toLowerCase termName = toLowerCase (XTref.term x) →
  XTref.externalSpec x ≠ [] → Forall (λ c, c ≠ 58%N) (XTref.externalSpec x) →
  termName ≠ [] → Forall (λ c, isLineTerminator c = false) termName →
  ∃ found,
    findCachedXtrefForXref (Some xtrefs) element = Some found
    ∧ found ∈ xtrefs
    ∧ XTref.externalSpec found = XTref.externalSpec x
    ∧ toLowerCase (XTref.term found) = toLowerCase (XTref.term x)
    ∧ ((∀ y, y ∈ xtrefs → XTref.externalSpec y = XTref.externalSpec x →
          toLowerCase (XTref.term y) = toLowerCase (XTref.term x) → y = x) →
       found = x).
Proof.
  intros Hx Hhref Hlower Hspec Hcolon Hterm Hline.
  unfold findCachedXtrefForXref. rewrite Hhref. cbn [default from_option id].
  rewrite matchTerm_href by done.
  destruct (List.find _ xtrefs) as [found|] eqn:Hfind.
  - apply find_some in Hfind as [Hin [Hs Ht]%andb_true_iff].
    apply list_elem_of_In in Hin.
    apply bool_decide_eq_true in Hs. apply bool_decide_eq_true in Ht.
    exists found. split; [done|]. split; [done|]. split; [done|].
    split; [congruence|]. intros Honly. apply Honly; [done..|congruence].
  - apply list_elem_of_In in Hx. apply (find_none _ _ Hfind) in Hx.
    rewrite bool_decide_eq_true_2, bool_decide_eq_true_2 in Hx; done.
Qed.

(** ** The document after validation *)















(** ** The indicator element *)

(** X27.  An indicator carries the indicator class and the class of its
    type; it has the class [has-details] exactly when it holds a details
    panel, which is the case for a missing term and for a changed
    definition of which both the old and the new content are given. *)
Theorem createIndicator_details (type : IndicatorType) (details : Details) :
  hasClass indicatorClass (createIndicator type details) = true
  ∧ hasClass (typeClass type) (createIndicator type details) = true
  ∧ (hasClass "has-details" (createIndicator type details) = true
     ↔ ∃ panel, panel ∈ children (createIndicator type details)
         ∧ hasClass "validation-details" panel = true)
  ∧ (hasClass "has-details" (createIndicator type details) = true
     ↔ type = missing
       ∨ (type = changed ∧ oldContent details ≠ [] ∧ newContent details ≠ [])).
Proof.
  split; [apply createIndicator_class|].
  split; [apply bool_decide_eq_true; cbn; right; left|].
  assert (hasClass "has-details" (createIndicator type details)
          = bool_decide (type = changed) && truthy (oldContent details)
            && truthy (newContent details) || bool_decide (type = missing)) as ->.
  { unfold createIndicator. cbn [hasClass].
    by destruct type, (truthy (oldContent details)), (truthy (newContent details)). }
  split.
  - unfold createIndicator. cbn [children].
    destruct (bool_decide (type = changed) && truthy (oldContent details)
              && truthy (newContent details)), (bool_decide (type = missing));
      cbn [orb app]; (split; [intros Hdetails|try done]).
    + eexists. split; [right; left|done].
    + eexists. split; [right; left|done].
    + eexists. split; [right; left|done].
    + done.
    + by intros (panel & ->%list_elem_of_singleton & Hcls).
  - rewrite orb_true_iff, !andb_true_iff, !bool_decide_eq_true, !truthy_nonempty.
    tauto.
Qed.

Lemma escapeHtml_brackets text :
  List.filter (N.eqb 60) (escapeHtml text) = []
  ∧ List.filter (N.eqb 62) (escapeHtml text) = [].
Proof.
  induction text as [|c text [IH1 IH2]]; [done|].
  rewrite escapeHtml_cons, !List.filter_app, IH1, IH2, !app_nil_r.
  destruct (N.eqb_spec c 38); [done|]. destruct (N.eqb_spec c 60); [done|].
  destruct (N.eqb_spec c 62); [done|]. destruct (N.eqb_spec c 160); [done|].
  cbn [List.filter]. destruct (N.eqb_spec 60 c); [congruence|].
  destruct (N.eqb_spec 62 c); [congruence|done].
Qed.

(** X28.  The old and the new content cannot add markup to the details
    panel of a changed definition: whatever they are, the markup of the
    panel holds 18 characters [<] and 18 characters [>], besides those of
    the similarity line. *)
Theorem changedDetailsHtml_escaped (details : Details) :
  length (List.filter (N.eqb 60) (changedDetailsHtml details))
  = 18 + (if truthy (similarity details)
          then 2 + length (List.filter (N.eqb 60) (similarity details)) else 0)
  ∧ length (List.filter (N.eqb 62) (changedDetailsHtml details))
    = 18 + (if truthy (similarity details)
            then 2 + length (List.filter (N.eqb 62) (similarity details)) else 0).
Proof.
  unfold changedDetailsHtml. cbv zeta.
  destruct (hasDifferences _), (truthy (similarity details));
    rewrite !List.filter_app, !length_app;
    rewrite ?(proj1 (escapeHtml_brackets _)), ?(proj2 (escapeHtml_brackets _));
    generalize (length (List.filter (N.eqb 60) (similarity details)));
    generalize (length (List.filter (N.eqb 62) (similarity details)));
    intros n62 n60; cbv - [Nat.add]; lia.
Qed.

End Validator.

(** * Examples and counterexamples *)

(** The cases of the repository's unit tests and of the specification's
    scenarios, run on the model. *)

Example levenshteinDistance_kitten :
  levenshteinDistance (js "kitten") (js "sitting") = Some 3.
Proof. reflexivity. Qed.

Example truncateText_short : truncateText (js "short") 10 = js "short".
Proof. reflexivity. Qed.

Example truncateText_long :
  truncateText (js "this is a long text") 10 = js "this is a ...".
Proof. reflexivity. Qed.

Example truncateText_exact : truncateText (js "exactly10!") 10 = js "exactly10!".
Proof. reflexivity. Qed.

Example escapeHtml_script :
  escapeHtml (js "<script>alert(1)</script>")
  = js "&lt;script&gt;alert(1)&lt;/script&gt;".
Proof. reflexivity. Qed.

Example escapeHtml_ampersand : escapeHtml (js "one & two") = js "one &amp; two".
Proof. reflexivity. Qed.

Example normalizeContent_empty : normalizeContent asciiLower textFragment [] = [].
Proof. reflexivity. Qed.

Example normalizeContent_markup :
  normalizeContent asciiLower
    (parsedAs [Element "dd" [] [] []
                 [Element "p" [] [] []
                    [Text (js "This is a ");
                     Element "strong" [] [] [] [Text (js "test")];
                     Text (js " definition.")]]])
    (js "<dd><p>This is a <strong>test</strong> definition.</p></dd>")
  = js "this is a test definition.".
Proof. reflexivity. Qed.

Example normalizeContent_whiteSpace :
  normalizeContent asciiLower textFragment
    (js "Multiple   spaces" ++ [10%N] ++ js "and" ++ [10%N] ++ js "newlines")
  = js "multiple spaces and newlines".
Proof. reflexivity. Qed.

Example normalizeContent_punctuation :
  normalizeContent asciiLower textFragment (js "One ,two;three . Four")
  = js "one, two; three. four".
Proof. reflexivity. Qed.

(** Scenario C: the changed definition is below the threshold, and the
    diff reports the line on both sides. *)
Example scenario_changed :
  lessThan
    (calculateSimilarity (js "this is a test definition.")
       (js "this is an updated test definition."))
    (similarityThreshold VALIDATOR_CONFIG) = true
  ∧ findTextDifferences (js "This is a test definition.")
      (js "This is an updated test definition.")
    = {| oldUnique := js "This is a test definition.";
         newUnique := js "This is an updated test definition.";
         hasDifferences := true |}.
Proof. by vm_compute. Qed.

Example findTextDifferences_shared_lines :
  findTextDifferences
    (js "kept" ++ [10%N; 10%N] ++ js "removed" ++ [10%N])
    (js "added" ++ [10%N] ++ js "kept")
  = {| oldUnique := js "removed"; newUnique := js "added"; hasDifferences := true |}.
Proof. by vm_compute. Qed.

Example findTextDifferences_same :
  findTextDifferences (js "same") (js "same")
  = {| oldUnique := js "(no removed content)";
       newUnique := js "(no added content)";
       hasDifferences := false |}.
Proof. by vm_compute. Qed.

(** A meta-info wrapper before the definition is left out of it. *)
Example termEntry_skips_meta :
  LiveTerm.content <$>
    (extractTermsFromHtml asciiLower
       (parsedAs
          [Element "dl" [] ["terms-and-definitions-list"] []
             [Element "dt" [] [] []
                [Element "span" (js "term:meta-term") [] [] [Text (js "meta-term")]];
              Element "dd" [] ["meta-info-content-wrapper"] [] [Text (js "Meta info")];
              Element "dd" [] [] [] [Text (js "Real definition.")]]])
       noSerialiser [] !! js "meta-term")
  = Some (js "Real definition.").
Proof. by vm_compute. Qed.

Example removeDefParts_example :
  removeDefParts 0 (js "[[def: agent, agents]]: text [[def: b]]:more")
  = js " text more".
Proof. reflexivity. Qed.

(** ASCII lower-casing keeps the character classes of the normalizer. *)
Lemma asciiLower_whiteSpace c : isWhiteSpace (asciiLower c) = isWhiteSpace c.
Proof.
  unfold asciiLower. destruct ((65 <=? c) && (c <=? 90))%N eqn:Hupper; [|done].
  apply andb_true_iff in Hupper as [?%N.leb_le ?%N.leb_le].
  unfold isWhiteSpace.
  repeat match goal with
  | |- context [(?a <=? ?b)%N] => destruct (N.leb_spec a b); try lia
  | |- context [(?a =? ?b)%N] => destruct (N.eqb_spec a b); try lia
  end; done.
Qed.

Lemma asciiLower_zeroWidth c : isZeroWidth (asciiLower c) = isZeroWidth c.
Proof.
  unfold asciiLower. destruct ((65 <=? c) && (c <=? 90))%N eqn:Hupper; [|done].
  apply andb_true_iff in Hupper as [?%N.leb_le ?%N.leb_le].
  unfold isZeroWidth.
  repeat match goal with
  | |- context [(?a <=? ?b)%N] => destruct (N.leb_spec a b); try lia
  | |- context [(?a =? ?b)%N] => destruct (N.eqb_spec a b); try lia
  end; done.
Qed.



(** C5, as stated, fails: a list with two term entries, [term:spec-a:agent]
    and [term:spec-b:Agent], gives a map of size 1, as both have the key
    [agent]. *)
Lemma extractTermsFromHtml_size_counterexample :
  length (termEntries asciiLower noSerialiser collidingTerms) = 2
  ∧ (termEntries asciiLower noSerialiser collidingTerms).*1 = [js "agent"; js "agent"]
  ∧ size (extractTermsFromHtml asciiLower (parsedAs collidingTerms) noSerialiser []) = 1.
Proof. by vm_compute. Qed.

(** C5, as amended, on a list of two terms with different keys. *)
Lemma extractTermsFromHtml_spec_witness :
  NoDup (termEntries asciiLower noSerialiser distinctTerms).*1
  ∧ size (extractTermsFromHtml asciiLower (parsedAs distinctTerms) noSerialiser []) = 2.
Proof.
  assert (NoDup (termEntries asciiLower noSerialiser distinctTerms).*1) as Hnodup.
  { by apply (bool_decide_unpack _). }
  split; [done|].
  exact (proj1 (proj2 (extractTermsFromHtml_spec asciiLower (parsedAs distinctTerms)
                         noSerialiser [])) Hnodup).
Defined.

(** C9, as stated, fails: in a file whose first marker line names a pair
    without an entry, a later marker line of an indexed pair does not get
    the file rewritten; and of two marker lines of indexed pairs, only the
    second is in the file afterwards. *)
Lemma prepareTref_transcludes_counterexample :
  markerOf (js "[[tref:a,x]]") = Some (js "[[tref:a,x]]", js "a", Some (js "x"))
  ∧ lookupEntry sampleIndex (js "a") (Some (js "x")) = Some sampleEntry
  ∧ splitOn 10%N (js "[[tref:a,y]]" ++ [10%N] ++ js "[[tref:a,x]]")
    = [js "[[tref:a,y]]"; js "[[tref:a,x]]"]
  ∧ processItem (Some sampleIndex)
      (File (js "x.md") (js "[[tref:a,y]]" ++ [10%N] ++ js "[[tref:a,x]]"))
    = (File (js "x.md") (js "[[tref:a,y]]" ++ [10%N] ++ js "[[tref:a,x]]"),
       [js "x.md"])
  ∧ splitOn 10%N (js "[[tref:a,x]]" ++ [10%N] ++ js "[[tref:a,z]]")
    = [js "[[tref:a,x]]"; js "[[tref:a,z]]"]
  ∧ processItem (Some sampleIndex)
      (File (js "x.md") (js "[[tref:a,x]]" ++ [10%N] ++ js "[[tref:a,z]]"))
    = (File (js "x.md")
         (transclusion (js "[[tref:a,z]]") (js "3d4e5f")
            ([10%N] ++ js "~ Another definition.")), []).
Proof. by vm_compute. Qed.

(** C9, as amended, on a file that holds one marker line. *)
Lemma prepareTref_transcludes_witness :
  extname (js "x.md") = js ".md"
  ∧ markerOf (js "[[tref: a, x]]") = Some (js "[[tref: a, x]]", js "a", Some (js "x"))
  ∧ lookupEntry sampleIndex (js "a") (Some (js "x")) = Some sampleEntry
  ∧ processItem (Some sampleIndex) (File (js "x.md") (js "[[tref: a, x]]"))
    = (File (js "x.md")
         (transclusion (js "[[tref: a, x]]") (js "0a1b2c")
            ([10%N] ++ js "~ A definition.")), []).
Proof.
  assert (extname (js "x.md") = js ".md") as Hext by done.
  assert (markerOf (js "[[tref: a, x]]")
          = Some (js "[[tref: a, x]]", js "a", Some (js "x"))) as Hmarker by done.
  assert (lookupEntry sampleIndex (js "a") (Some (js "x")) = Some sampleEntry)
    as Hentry by done.
  split; [done|]. split; [done|]. split; [done|].
  refine (proj1 (prepareTref_transcludes sampleIndex (js "x.md") (js "[[tref: a, x]]")
                   [] [] (js "[[tref: a, x]]") (js "[[tref: a, x]]") (js "a")
                   (Some (js "x")) sampleEntry Hext eq_refl _ Hmarker Hentry _)).
  - intros l m s t Hl. by apply elem_of_nil in Hl.
  - intros l Hl. by apply elem_of_nil in Hl.
Defined.

(** C10, as stated, fails: a file is rewritten for its first marker line
    although a later marker line names a pair without an entry. *)
Lemma prepareTref_unresolved_counterexample :
  splitOn 10%N (js "[[tref:a,x]]" ++ [10%N] ++ js "[[tref:a,y]]")
    = [js "[[tref:a,x]]"; js "[[tref:a,y]]"]
  ∧ markerOf (js "[[tref:a,y]]") = Some (js "[[tref:a,y]]", js "a", Some (js "y"))
  ∧ lookupEntry sampleIndex (js "a") (Some (js "y")) = None
  ∧ processItem (Some sampleIndex)
      (File (js "x.md") (js "[[tref:a,x]]" ++ [10%N] ++ js "[[tref:a,y]]"))
    = (File (js "x.md")
         (transclusion (js "[[tref:a,x]]") (js "0a1b2c")
            ([10%N] ++ js "~ A definition.")),
       [js "x.md"]).
Proof. by vm_compute. Qed.

(** C10, as amended, on a file that holds one unresolved marker line. *)
Lemma prepareTref_unresolved_witness :
  extname (js "y.md") = js ".md"
  ∧ markerOf (js "[[tref:a,y]]") = Some (js "[[tref:a,y]]", js "a", Some (js "y"))
  ∧ lookupEntry sampleIndex (js "a") (Some (js "y")) = None
  ∧ processItem (Some sampleIndex) (File (js "y.md") (js "[[tref:a,y]]"))
    = (File (js "y.md") (js "[[tref:a,y]]"), [js "y.md"]).
Proof.
  assert (extname (js "y.md") = js ".md") as Hext by done.
  assert (markerOf (js "[[tref:a,y]]")
          = Some (js "[[tref:a,y]]", js "a", Some (js "y"))) as Hmarker by done.
  assert (lookupEntry sampleIndex (js "a") (Some (js "y")) = None) as Hentry by done.
  split; [done|]. split; [done|]. split; [done|].
  refine (proj1 (prepareTref_unresolved sampleIndex (js "y.md") (js "[[tref:a,y]]")
                   [] [] (js "[[tref:a,y]]") (js "[[tref:a,y]]") (js "a")
                   (Some (js "y")) [] [] Hext eq_refl _ Hmarker Hentry)).
  intros l Hl. by apply elem_of_nil in Hl.
Defined.


(** C4 on a cache entry that is one second old. *)
Lemma fetchExternalSpec_cache_hit_witness :
  fetchCache cachedWorld !! js "https://example.github.io/a/"
    = Some {| timestamp := 1000; data := ∅ |}
  ∧ (clock cachedWorld - 1000 < cacheTimeout VALIDATOR_CONFIG)%Z
  ∧ fetchExternalSpec asciiLower (parsedAs []) noSerialiser notFound VALIDATOR_CONFIG
      (js "https://example.github.io/a/") cachedWorld
    = (Some ∅, cachedWorld).
Proof.
  assert (fetchCache cachedWorld !! js "https://example.github.io/a/"
          = Some {| timestamp := 1000; data := ∅ |}) as Hcached by done.
  assert (clock cachedWorld - 1000 < cacheTimeout VALIDATOR_CONFIG)%Z as Hfresh by done.
  split; [done|]. split; [done|].
  destruct (fetchExternalSpec_cache_hit asciiLower (parsedAs []) noSerialiser notFound
              VALIDATOR_CONFIG (js "https://example.github.io/a/") cachedWorld
              {| timestamp := 1000; data := ∅ |} Hcached Hfresh)
    as (Hresult & _ & _ & Hworld).
  by apply injective_projections.
Defined.

(** Scenario B of the specification: the live page answers 404, and the
    xref and the tref of the entry get an error indicator. *)
Lemma validate_classification_witness :
  sampleEntry ∈ sampleIndex
  ∧ XTref.ghPageUrl sampleEntry ≠ []
  ∧ validateXref asciiLower textFragment noFormat VALIDATOR_CONFIG sampleFollowing
      (liveDataOf
         (fetchAll asciiLower (parsedAs []) noSerialiser notFound VALIDATOR_CONFIG
            (collectExternalSpecs (Some sampleIndex)) freshWorld).1)
      (Some sampleEntry)
    = createIndicator textFragment error noDetails :: sampleFollowing.
Proof.
  assert (sampleEntry ∈ sampleIndex) as Hin by left.
  assert (XTref.ghPageUrl sampleEntry ≠ []) as Hurl by done.
  split; [done|]. split; [done|].
  destruct (validate_classification asciiLower textFragment (parsedAs []) noSerialiser
              noFormat notFound VALIDATOR_CONFIG sampleFollowing sampleTref sampleIndex
              freshWorld sampleEntry Hin Hurl)
    as [(liveTerms & Hlive & _ & Hxref & _) _].
  rewrite Hxref. clear Hxref.
  assert (liveTerms = None) as -> by (vm_compute in Hlive; by simplify_eq).
  reflexivity.
Defined.

(** ** Further examples *)

(** Scenario B on a whole page: with the index of two entries and a live
    page that answers 404, one request is sent, the anchor and the tref
    element each get an error indicator, and the event counts one
    specification, one xref and one tref. *)
Example validateExternalRefs_not_found :
  validateExternalRefs asciiLower textFragment (parsedAs []) noSerialiser noFormat
    notFound VALIDATOR_CONFIG (Some sampleIndex) samplePage freshWorld
  = ([Element "p" [] [] []
        [Text (js "See "); sampleXref;
         createIndicator textFragment error noDetails; Text (js " for more.")];
      Element "dl" [] ["terms-and-definitions-list"] []
        [Element "dt" [] ["term-external"] []
           [Element "span" [] ["term-external"] [("data-original-term", js "x")]
              [Text (js "x"); createIndicator textFragment error noDetails]];
         Element "dd" [] [] [] [Text (js "A definition.")]]],
     {| fetchCache := ∅; clock := 0;
        requests := [js "https://example.github.io/a/"] |},
     Some {| specsValidated := 1; xrefsValidated := 1; trefsValidated := 1 |}).
Proof. by vm_compute. Qed.

(** Without an index nothing happens. *)
Example validateExternalRefs_no_index :
  validateExternalRefs asciiLower textFragment (parsedAs []) noSerialiser noFormat
    notFound VALIDATOR_CONFIG None samplePage freshWorld
  = (samplePage, freshWorld, None).
Proof. reflexivity. Qed.

Example matchTerm_colons :
  matchTerm (js "https://example.org/#term:spec-a:did:web") = Some (js "spec-a", js "did:web")
  ∧ matchTerm (js "#term::x") = None
  ∧ matchTerm (js "#term:a:") = None.
Proof. by vm_compute. Qed.

Example levenshteinDistance_cases :
  levenshteinDistance [] (js "abc") = Some 3
  ∧ levenshteinDistance (js "abc") [] = Some 3
  ∧ levenshteinDistance (js "abc") (js "abc") = Some 0.
Proof. by vm_compute. Qed.

Lemma asciiLower_idempotent c : asciiLower (asciiLower c) = asciiLower c.
Proof.
  unfold asciiLower. destruct ((65 <=? c) && (c <=? 90))%N eqn:Hupper; [|by rewrite Hupper].
  apply andb_true_iff in Hupper as [?%N.leb_le ?%N.leb_le].
  destruct (N.leb_spec 65 (c + 32)); [|lia].
  destruct (N.leb_spec (c + 32) 90); [lia|done].
Qed.

(** ** Instances of the further properties *)

(** X8 on a text with markup. *)
Lemma escapeHtml_injective_witness :
  escapeHtml (js "<b>") = escapeHtml ([60; 98; 62]%N) ∧ js "<b>" = [60; 98; 62]%N.
Proof.
  assert (escapeHtml (js "<b>") = escapeHtml ([60; 98; 62]%N)) as Heq by reflexivity.
  split; [done|]. exact (escapeHtml_injective (js "<b>") [60; 98; 62]%N Heq).
Defined.

(** X12 on an empty cache and a page that is served: a second call 850 ms
    after the first has ended is answered from the cache. *)
Lemma fetchExternalSpec_then_cached_witness :
  cacheMiss VALIDATOR_CONFIG (js "https://example.github.io/a/") freshWorld
  ∧ (fetchExternalSpec asciiLower (parsedAs distinctTerms) noSerialiser (served [])
       VALIDATOR_CONFIG (js "https://example.github.io/a/") freshWorld).1
    = Some (extractTermsFromHtml asciiLower (parsedAs distinctTerms) noSerialiser [])
  ∧ (fetchExternalSpec asciiLower (parsedAs distinctTerms) noSerialiser (served [])
       VALIDATOR_CONFIG (js "https://example.github.io/a/")
       {| fetchCache :=
            fetchCache
              (fetchExternalSpec asciiLower (parsedAs distinctTerms) noSerialiser
                 (served []) VALIDATOR_CONFIG (js "https://example.github.io/a/")
                 freshWorld).2;
          clock := 1000;
          requests := [js "https://example.github.io/a/"] |}).1
    = Some (extractTermsFromHtml asciiLower (parsedAs distinctTerms) noSerialiser []).
Proof.
  assert (cacheMiss VALIDATOR_CONFIG (js "https://example.github.io/a/") freshWorld)
    as Hmiss by done.
  assert ((fetchExternalSpec asciiLower (parsedAs distinctTerms) noSerialiser (served [])
             VALIDATOR_CONFIG (js "https://example.github.io/a/") freshWorld).1
          = Some (extractTermsFromHtml asciiLower (parsedAs distinctTerms)
                    noSerialiser [])) as Hterms by reflexivity.
  assert (1000 - clock (fetchExternalSpec asciiLower (parsedAs distinctTerms)
                          noSerialiser (served []) VALIDATOR_CONFIG
                          (js "https://example.github.io/a/") freshWorld).2
          < cacheTimeout VALIDATOR_CONFIG)%Z as Hnow by reflexivity.
  split; [done|]. split; [done|].
  exact (f_equal fst
           (fetchExternalSpec_then_cached asciiLower (parsedAs distinctTerms)
              noSerialiser (served []) VALIDATOR_CONFIG
              (js "https://example.github.io/a/") freshWorld _ 1000
              Hmiss Hterms Hnow)).
Defined.

(** X13 on an empty cache and a page that answers 404. *)
Lemma fetchExternalSpec_null_witness :
  (fetchExternalSpec asciiLower (parsedAs []) noSerialiser notFound VALIDATOR_CONFIG
     (js "https://example.github.io/a/") freshWorld).1 = None
  ∧ requests
      (fetchExternalSpec asciiLower (parsedAs []) noSerialiser notFound
         VALIDATOR_CONFIG (js "https://example.github.io/a/") freshWorld).2
    = [] ++ [js "https://example.github.io/a/"].
Proof.
  assert ((fetchExternalSpec asciiLower (parsedAs []) noSerialiser notFound
             VALIDATOR_CONFIG (js "https://example.github.io/a/") freshWorld).1 = None)
    as Hnone by reflexivity.
  split; [done|].
  exact (proj1 (proj2 (fetchExternalSpec_null asciiLower (parsedAs []) noSerialiser
                         notFound VALIDATOR_CONFIG (js "https://example.github.io/a/")
                         freshWorld Hnone))).
Defined.

(** X18 on the file written for the marker [[[tref: a, x]]]. *)
Lemma prepareTref_regenerates_witness :
  extname (js "x.md") = js ".md"
  ∧ markerOf (js "[[tref: a, x]]") = Some (js "[[tref: a, x]]", js "a", Some (js "x"))
  ∧ lookupEntry sampleIndex (js "a") (Some (js "x")) = Some sampleEntry
  ∧ processItem (Some sampleIndex)
      (File (js "x.md")
         (transclusion (js "[[tref: a, x]]") (XTref.commitHash sampleEntry)
            (removeDefParts 0 (XTref.content sampleEntry))))
    = (File (js "x.md")
         (transclusion (js "[[tref: a, x]]") (XTref.commitHash sampleEntry)
            (removeDefParts 0 (XTref.content sampleEntry))), []).
Proof.
  assert (extname (js "x.md") = js ".md") as Hext by done.
  assert (markerOf (js "[[tref: a, x]]")
          = Some (js "[[tref: a, x]]", js "a", Some (js "x"))) as Hmarker by done.
  assert (lookupEntry sampleIndex (js "a") (Some (js "x")) = Some sampleEntry)
    as Hentry by done.
  split; [done|]. split; [done|]. split; [done|].
  refine (prepareTref_regenerates sampleIndex (js "x.md") (js "[[tref: a, x]]")
            (js "[[tref: a, x]]") (js "a") (Some (js "x")) sampleEntry
            Hext Hmarker Hentry _).
  apply Forall_forall. apply (bool_decide_unpack _). vm_compute. exact I.
Defined.

(** X20 on the marker [[[tref: a, x]]], followed by text. *)
Lemma markerOf_generated_witness :
  Forall (λ c, c ≠ 44%N ∧ c ≠ 93%N ∧ isLineTerminator c = false) (js " a" ++ js " x")
  ∧ markerOf (js "[[tref: a, x]] and more")
    = Some (js "[[tref: a, x]]", js "a", Some (js "x")).
Proof.
  assert (Forall (λ c, c ≠ 44%N ∧ c ≠ 93%N ∧ isLineTerminator c = false)
            (js " a" ++ js " x")) as Hfree.
  { by repeat constructor. }
  split; [done|].
  exact (markerOf_generated (js " a") (js " x") (js " and more") Hfree).
Defined.

(** X23 on a text with white space around it. *)
Lemma normalizeContent_trim_witness :
  trim (plainText textFragment (js "  Hello World" ++ [10%N]))
    = trim (plainText textFragment (js "Hello World"))
  ∧ normalizeContent asciiLower textFragment (js "  Hello World" ++ [10%N])
    = normalizeContent asciiLower textFragment (js "Hello World").
Proof.
  assert (trim (plainText textFragment (js "  Hello World" ++ [10%N]))
          = trim (plainText textFragment (js "Hello World"))) as Htrim by reflexivity.
  split; [done|].
  exact (normalizeContent_trim asciiLower textFragment asciiLower_whiteSpace
           asciiLower_zeroWidth (js "  Hello World" ++ [10%N]) (js "Hello World") Htrim).
Defined.

(** X24 on [One ,two;three . Four] and its normalised text. *)
Lemma normalizeContent_idempotent_witness :
  plainText textFragment (js "one, two; three. four")
    = normalizeContent asciiLower textFragment (js "One ,two;three . Four")
  ∧ normalizeContent asciiLower textFragment (js "one, two; three. four")
    = js "one, two; three. four".
Proof.
  assert (plainText textFragment (js "one, two; three. four")
          = normalizeContent asciiLower textFragment (js "One ,two;three . Four"))
    as Htext by reflexivity.
  split; [done|].
  exact (normalizeContent_idempotent asciiLower textFragment asciiLower_whiteSpace
           asciiLower_zeroWidth asciiLower_idempotent (js "One ,two;three . Four")
           (js "one, two; three. four") Htext).
Defined.

(** X25 on the anchor of the sample page, whose term is in upper case. *)
Lemma findCachedXtrefForXref_href_witness :
  sampleEntry ∈ sampleIndex
  ∧ getAttribute "data-local-href" sampleXref
    = Some (js "#term:" ++ XTref.externalSpec sampleEntry ++ [58%N] ++ js "X")
  ∧ toLowerCase asciiLower (js "X") = toLowerCase asciiLower (XTref.term sampleEntry)
  ∧ findCachedXtrefForXref asciiLower (Some sampleIndex) sampleXref = Some sampleEntry.
Proof.
  assert (sampleEntry ∈ sampleIndex) as Hin by left.
  assert (getAttribute "data-local-href" sampleXref
          = Some (js "#term:" ++ XTref.externalSpec sampleEntry ++ [58%N] ++ js "X"))
    as Hhref by reflexivity.
  assert (toLowerCase asciiLower (js "X")
          = toLowerCase asciiLower (XTref.term sampleEntry)) as Hlower by reflexivity.
  assert (XTref.externalSpec sampleEntry ≠ []) as Hspec by done.
  assert (Forall (λ c, c ≠ 58%N) (XTref.externalSpec sampleEntry)) as Hcolon.
  { by repeat constructor. }
  assert (js "X" ≠ []) as Hterm by done.
  assert (Forall (λ c, isLineTerminator c = false) (js "X")) as Hline.
  { by repeat constructor. }
  split; [done|]. split; [done|]. split; [done|].
  destruct (findCachedXtrefForXref_href asciiLower sampleIndex sampleXref sampleEntry
              (js "X") Hin Hhref Hlower Hspec Hcolon Hterm Hline)
    as (found & Hfound & _ & _ & _ & Honly).
  rewrite Hfound. f_equal. apply Honly. intros y Hy _ Hy_term.
  apply elem_of_cons in Hy as [->|Hy]; [done|].
  apply list_elem_of_singleton in Hy as ->. by vm_compute in Hy_term.
Defined.
